(** * proofreader: sentence location, paragraph splitting, correction
      streaming and the display diff

    A shallow embedding of [src/diff.ts] (the LCS diff used for display)
    and of the [TextProcessor] class (paragraph splitting, sentence
    location, batched correction), followed by the properties the
    specification states about them. *)

From Stdlib Require Import NArith String Ascii Lia.
From stdpp Require Import base list sorting.

Set Default Proof Using "Type".

(** ** JavaScript strings

    A JavaScript string is a sequence of UTF-16 code units; indexing,
    [length], [===] on one-character strings and the regular expression
    class [\s] all work on code units. *)

Definition char := N.
Definition jsstring := list char.

(** An ASCII literal as a JavaScript string. *)
Definition js (s : string) : jsstring :=
  map N_of_ascii (list_ascii_of_string s).

(** [s[k]] as a string: the one-character string at index [k]. Out of
    range JavaScript gives [undefined]; no caller below reaches that. *)
Definition char_at (s : jsstring) (k : nat) : jsstring :=
  match s !! k with
  | Some c => [c]
  | None => []
  end.

(** [s[i] === t[j]] on code units ([undefined === undefined] included). *)
Definition same_char (s : jsstring) (i : nat) (t : jsstring) (j : nat) : bool :=
  bool_decide (s !! i = t !! j).

(** ** diff.ts *)

Module Diff.

Inductive DiffType := DEqual | DInsert | DDelete.

#[global] Instance DiffType_eq_dec : EqDecision DiffType.
Proof. solve_decision. Defined.

Record DiffPart := mkPart { type : DiffType; value : jsstring }.

#[global] Instance DiffPart_eq_dec : EqDecision DiffPart.
Proof. solve_decision. Defined.

(** [dp[i][j]] and [dp[i][j] = v] on the [number[][]] table. *)
Definition dp_get (dp : list (list nat)) (i j : nat) : nat :=
  default 0 (dp !! i ≫= (.!! j)).

Definition dp_set (dp : list (list nat)) (i j v : nat) : list (list nat) :=
  alter (<[j := v]>) i dp.

(** Body of the inner loop, lines 11-15. *)
Definition fill_cell (text1 text2 : jsstring) (i : nat)
    (dp : list (list nat)) (j : nat) : list (list nat) :=
  if same_char text1 (i - 1) text2 (j - 1)
  then dp_set dp i j (dp_get dp (i - 1) (j - 1) + 1)
  else dp_set dp i j (Nat.max (dp_get dp (i - 1) j) (dp_get dp i (j - 1))).

(** [for (let j = 1; j <= n; j++)]. *)
Definition fill_row (text1 text2 : jsstring) (n : nat)
    (dp : list (list nat)) (i : nat) : list (list nat) :=
  foldl (fill_cell text1 text2 i) dp (seq 1 n).

(** Lines 6-17: the table of LCS lengths. *)
Definition lcs_table (text1 text2 : jsstring) : list (list nat) :=
  let m := length text1 in
  let n := length text2 in
  foldl (fill_row text1 text2 n) (replicate (m + 1) (replicate (n + 1) 0)) (seq 1 m).

(** Lines 22-34: the reconstruction loop. [diff.unshift] is a cons. Each
    iteration lowers [i + j], which the fuel counts; [None] is an
    exhausted fuel. *)
Fixpoint backtrack (fuel : nat) (text1 text2 : jsstring) (dp : list (list nat))
    (i j : nat) (diff : list DiffPart) : option (list DiffPart) :=
  if (0 <? i) || (0 <? j) then
    match fuel with
    | O => None
    | S fuel' =>
      if (0 <? i) && (0 <? j) && same_char text1 (i - 1) text2 (j - 1) then
        backtrack fuel' text1 text2 dp (i - 1) (j - 1)
          (mkPart DEqual (char_at text1 (i - 1)) :: diff)
      else if (0 <? j) && ((i =? 0) || (dp_get dp (i - 1) j <=? dp_get dp i (j - 1))) then
        backtrack fuel' text1 text2 dp i (j - 1)
          (mkPart DInsert (char_at text2 (j - 1)) :: diff)
      else
        backtrack fuel' text1 text2 dp (i - 1) j
          (mkPart DDelete (char_at text1 (i - 1)) :: diff)
    end
  else Some diff.

(** Body of the loop of [mergeDiff]; the state is [(merged, current)]. *)
Definition merge_step (st : list DiffPart * option DiffPart) (part : DiffPart)
    : list DiffPart * option DiffPart :=
  match snd st with
  | None => (fst st, Some part)
  | Some current =>
    if bool_decide (type current ≠ type part)
    then (fst st ++ [current], Some part)
    else (fst st, Some (mkPart (type current) (value current ++ value part)))
  end.

Definition mergeDiff (diff : list DiffPart) : list DiffPart :=
  let st := foldl merge_step ([], None) diff in
  match snd st with
  | Some current => fst st ++ [current]
  | None => fst st
  end.

Definition computeDiff (text1 text2 : jsstring) : option (list DiffPart) :=
  let m := length text1 in
  let n := length text2 in
  mergeDiff <$> backtrack (m + n) text1 text2 (lcs_table text1 text2) m n [].

End Diff.

(** ** Whitespace, lines and trimming *)

(** The class [\s] of a JavaScript regular expression without the [u]
    flag: the WhiteSpace and LineTerminator code points. [trim] removes
    the same set. *)
Definition is_space (c : char) : bool :=
  ((9 <=? c) && (c <=? 13) || (c =? 32) || (c =? 160) || (c =? 5760)
   || (8192 <=? c) && (c <=? 8202) || (c =? 8232) || (c =? 8233)
   || (c =? 8239) || (c =? 8287) || (c =? 12288) || (c =? 65279))%N.

(** [s.replace(/\s+/g, '')]: every maximal run of whitespace is replaced
    by the empty string, which leaves the non-whitespace code units. *)
Definition remove_ws (s : jsstring) : jsstring :=
  List.filter (fun c => negb (is_space c)) s.

Fixpoint trim_start (s : jsstring) : jsstring :=
  match s with
  | c :: rest => if is_space c then trim_start rest else s
  | [] => []
  end.

Definition trim_end (s : jsstring) : jsstring := rev (trim_start (rev s)).

(** [s.trim()]. *)
Definition trim (s : jsstring) : jsstring := trim_end (trim_start s).

Definition newline : char := 10%N.
Definition hash : char := 35%N.

(** [s.split('\n')]; never empty: [''.split('\n')] is [['']]. *)
Fixpoint split_lines (s : jsstring) : list jsstring :=
  match s with
  | [] => [[]]
  | c :: rest =>
    if (c =? newline)%N then [] :: split_lines rest
    else match split_lines rest with
         | line :: more => (c :: line) :: more
         | [] => [[c]]
         end
  end.

(** [line.startsWith('#')]. *)
Definition startsWith_hash (line : jsstring) : bool :=
  match line with
  | c :: _ => (c =? hash)%N
  | [] => false
  end.

(** Truthiness of a string: it is not empty. *)
Definition truthy (s : jsstring) : bool :=
  match s with [] => false | _ :: _ => true end.

(** [parts.join(sep)]. *)
Fixpoint join (sep : jsstring) (parts : list jsstring) : jsstring :=
  match parts with
  | [] => []
  | [p] => p
  | p :: rest => p ++ sep ++ join sep rest
  end.

(** ** Data model of the text processor *)

Record Position := mkPosition { lineIndex : nat; columnIndex : nat }.

Record Range := mkRange { startsAt : Position; endsAt : Position }.

Module DocumentSentence.
Record t := mk { range : Range; text : jsstring }.
End DocumentSentence.

Definition DocumentSentences := list DocumentSentence.t.

Inductive MatchResult :=
| Success (startPosition endPosition : Position)
| Failure.

(** A JavaScript value as [JSON.parse] can return it, and [undefined],
    which reading an absent property gives. A number is kept as its
    literal. The declared types of the source are not checked when the
    program runs, so a reply and the fields copied from it into a record
    are values of this kind. *)
#[warnings="-register-all"] Inductive Value :=
| VUndefined
| VNull
| VBool (b : bool)
| VNumber (literal : jsstring)
| VString (s : jsstring)
| VArray (items : list Value)
| VObject (fields : list (jsstring * Value)).

Module CorrectionResult.
Record t := mk {
    range : Range;
    errors : Value;
    originalSentence : jsstring;
    correctedSentence : Value
  }.
End CorrectionResult.

Module Paragraph.
Record t := mk { text : jsstring; startLine : nat }.
End Paragraph.

(** The object [callOpenAIAPI] is declared to resolve to. *)
Module Response.
Record t := mk { error : list jsstring; correctedSentence : jsstring }.
End Response.

#[global] Instance Position_eq_dec : EqDecision Position.
Proof. solve_decision. Defined.
#[global] Instance Range_eq_dec : EqDecision Range.
Proof. solve_decision. Defined.

(** ** splitIntoParagraphs *)

Record SplitState := mkSplit {
  paragraphs : list Paragraph.t;
  currentParagraph : jsstring;
  startLine : nat
}.

(** One iteration of the loop over [lines], at index [i]. *)
Definition split_step (st : SplitState) (i : nat) (line : jsstring) : SplitState :=
  let st' :=
    if startsWith_hash line && truthy (currentParagraph st)
    then mkSplit (paragraphs st ++ [Paragraph.mk (trim (currentParagraph st)) (startLine st)])
                 [] i
    else st in
  mkSplit (paragraphs st') (currentParagraph st' ++ line ++ [newline]) (startLine st').

Fixpoint split_loop (i : nat) (lines : list jsstring) (st : SplitState) : SplitState :=
  match lines with
  | [] => st
  | line :: more => split_loop (S i) more (split_step st i line)
  end.

Definition splitIntoParagraphs (text : jsstring) : list Paragraph.t :=
  let st := split_loop 0 (split_lines text) (mkSplit [] [] 0) in
  if truthy (currentParagraph st)
  then paragraphs st ++ [Paragraph.mk (trim (currentParagraph st)) (startLine st)]
  else paragraphs st.

(** ** findEndPosition *)

(** The inner [while] over the columns of one line: [rest] is the part of
    [lines[currentLine]] from [currentColumn] on. It either returns the
    match or falls off the line with the running [matchCount] and
    [matchStartPosition]. *)
Fixpoint scan_line (cleanSentence : jsstring) (currentLine : nat) (rest : jsstring)
    (currentColumn matchCount : nat) (matchStartPosition : option Position)
    : MatchResult + (nat * option Position) :=
  match rest with
  | [] => inr (matchCount, matchStartPosition)
  | currentChar :: rest' =>
    if is_space currentChar then
      scan_line cleanSentence currentLine rest' (S currentColumn) matchCount matchStartPosition
    else if bool_decide (cleanSentence !! matchCount = Some currentChar) then
      let matchStartPosition' :=
        if matchCount =? 0 then Some (mkPosition currentLine currentColumn)
        else matchStartPosition in
      let matchCount' := S matchCount in
      if matchCount' =? length cleanSentence then
        inl (Success (default (mkPosition currentLine currentColumn) matchStartPosition')
                     (mkPosition currentLine (currentColumn + 1)))
      else
        scan_line cleanSentence currentLine rest' (S currentColumn) matchCount' matchStartPosition'
    else
      scan_line cleanSentence currentLine rest' (S currentColumn) 0 None
  end.

(** The outer [while] over the lines; [remaining] is [lines] from
    [currentLine] on. *)
Fixpoint scan_lines (cleanSentence : jsstring) (remaining : list jsstring)
    (currentLine currentColumn matchCount : nat) (matchStartPosition : option Position)
    : MatchResult :=
  match remaining with
  | [] => Failure
  | line :: more =>
    match scan_line cleanSentence currentLine (drop currentColumn line)
                    currentColumn matchCount matchStartPosition with
    | inl found => found
    | inr (matchCount', matchStartPosition') =>
      scan_lines cleanSentence more (S currentLine) 0 matchCount' matchStartPosition'
    end
  end.

Definition findEndPosition (sentence originalText : jsstring) (startPosition : Position)
    : MatchResult :=
  let lines := split_lines originalText in
  scan_lines (remove_ws sentence) (drop (lineIndex startPosition) lines)
             (lineIndex startPosition) (columnIndex startPosition) 0 None.

(** ** calculateRanges *)

(** Body of the loop over [sentences]; the state is
    [(result, currentPosition)]. *)
Definition calc_step (originalText : jsstring) (st : DocumentSentences * Position)
    (sentence : jsstring) : DocumentSentences * Position :=
  match findEndPosition sentence originalText (snd st) with
  | Success startPosition endPosition =>
    (fst st ++ [DocumentSentence.mk (mkRange startPosition endPosition) sentence],
     mkPosition (lineIndex endPosition) (columnIndex endPosition))
  | Failure => st
  end.

Definition calculateRanges (sentences : list jsstring) (originalText : jsstring)
    (startLine : nat) : DocumentSentences :=
  fst (foldl (calc_step originalText) ([], mkPosition startLine 0) sentences).

(** ** The external service and [Promise.all] *)

(** What one [openai.chat.completions.create] request does. *)
Inductive Completion :=
| Throws
| Message (content : option jsstring).

(** The OpenAI client as the processor sees it. Requests are numbered by
    the index of the task that issues them, so that two requests with the
    same prompt may be answered differently, and each takes its own time.
    [JSON_parse] is [JSON.parse]: any value, or [None] when it throws.
    [splitIntoSentences] is the whole segmentation request with its
    decoding: the sentence list, or [None] when the request or the
    decoding throws. [coerced_gt_zero] is the comparison [v > 0] of the
    language on a value that has to be converted to a number first (a
    number literal, a string, an array, an object), [None] when the
    conversion throws. *)
Record OpenAI := mkOpenAI {
  create : nat -> jsstring -> Completion;
  create_latency : nat -> nat;
  JSON_parse : jsstring -> option Value;
  splitIntoSentences : nat -> jsstring -> option (list jsstring);
  splitIntoSentences_latency : nat -> nat;
  coerced_gt_zero : Value -> option bool
}.

Record TextProcessor := mkTextProcessor {
  openai : OpenAI;
  maxConcurrency : nat
}.

(** A promise in flight: the time after which it settles, and whether it
    resolves with a value or rejects. *)
Record Pending (B : Type) := mkPending {
  settles_after : nat;
  outcome : option B
}.
Arguments mkPending {B} _ _.
Arguments settles_after {B} _.
Arguments outcome {B} _.

Definition latency_of {B} (pending : list (Pending B)) (k : nat) : nat :=
  default 0 (settles_after <$> pending !! k).

(** The order in which the promises of one [Promise.all] settle: by
    latency, requests of equal latency in the order they were issued. *)
Fixpoint settle_before {B} (pending : list (Pending B)) (k : nat) (order : list nat)
    : list nat :=
  match order with
  | [] => [k]
  | k' :: rest =>
    if latency_of pending k <=? latency_of pending k' then k :: order
    else k' :: settle_before pending k rest
  end.

Definition completion_order {B} (pending : list (Pending B)) : list nat :=
  foldr (settle_before pending) [] (seq 0 (length pending)).

(** [Promise.all] keeps an array of values, one slot per promise; a
    promise that resolves writes its own slot, whenever that happens, and
    the first rejection rejects the whole. *)
Fixpoint settle_all {B} (pending : list (Pending B)) (order : list nat)
    (values : list (option B)) : option (list (option B)) :=
  match order with
  | [] => Some values
  | k :: order' =>
    match outcome <$> pending !! k with
    | Some (Some v) => settle_all pending order' (<[k := Some v]> values)
    | Some None => None
    | None => settle_all pending order' values
    end
  end.

Definition promise_all {B} (pending : list (Pending B)) : option (list B) :=
  values ← settle_all pending (completion_order pending)
                      (replicate (length pending) None);
  mapM id values.

(** [array.map((x, index) => ({x, index}))]. *)
Definition with_index {A} (l : list A) : list (A * nat) :=
  imap (fun index x => (x, index)) l.

(** [tasks.slice(i, i + maxConcurrency)]. *)
Definition slice_batch {A} (tasks : list A) (i maxConcurrency : nat) : list A :=
  take maxConcurrency (drop i tasks).

(** ** processParagraphs *)

(** [results.sort((a, b) => a.index - b.index)], a stable sort: a result
    stays before the later results of the same index. *)
Fixpoint insert_by_index {A} (x : A * nat) (sorted : list (A * nat)) : list (A * nat) :=
  match sorted with
  | [] => [x]
  | y :: rest =>
    if snd x <=? snd y then x :: sorted else y :: insert_by_index x rest
  end.

Definition sort_by_index {A} (l : list (A * nat)) : list (A * nat) :=
  foldr insert_by_index [] l.

(** The task of one paragraph, lines 110-112. *)
Definition segment_task (tp : TextProcessor) (text : jsstring)
    (task : Paragraph.t * nat) : Pending (DocumentSentences * nat) :=
  mkPending (splitIntoSentences_latency (openai tp) (snd task))
    (sentences ← splitIntoSentences (openai tp) (snd task) (Paragraph.text (fst task));
     Some (calculateRanges sentences text (Paragraph.startLine (fst task) + 1), snd task)).

(** The loop over the batches, lines 107-115. A batch starts when the
    one before has settled. [None] is a rejected request or, with a
    [maxConcurrency] of [0], the loop that never ends. *)
Fixpoint segment_batches (fuel : nat) (tp : TextProcessor) (text : jsstring)
    (tasks : list (Paragraph.t * nat)) (i : nat)
    (results : list (DocumentSentences * nat)) : option (list (DocumentSentences * nat)) :=
  if i <? length tasks then
    match fuel with
    | O => None
    | S fuel' =>
      batchResults ← promise_all
        (segment_task tp text <$> slice_batch tasks i (maxConcurrency tp));
      segment_batches fuel' tp text tasks (i + maxConcurrency tp) (results ++ batchResults)
    end
  else Some results.

Definition processParagraphs (tp : TextProcessor) (text : jsstring)
    : option DocumentSentences :=
  let tasks := with_index (splitIntoParagraphs text) in
  results ← segment_batches (length tasks) tp text tasks 0 [];
  Some (concat (fst <$> sort_by_index results)).

(** ** correctTextStream *)

(** [sentences.slice(Math.max(0, i - 2), Math.min(sentences.length, i + 3))]
    joined by newlines. *)
Definition getContext (sentences : DocumentSentences) (currentIndex : nat) : jsstring :=
  let from := currentIndex - 2 in
  let to := Nat.min (length sentences) (currentIndex + 3) in
  join [newline] (DocumentSentence.text <$> take (to - from) (drop from sentences)).

(** The prompt is a template around the context and the target; the
    fixed instruction text is three constants. *)
Record PromptTemplate := mkTemplate {
  before_context : jsstring;
  before_target : jsstring;
  after_target : jsstring
}.

Definition createCorrectionPrompt (tpl : PromptTemplate)
    (targetSentence context : jsstring) : jsstring :=
  before_context tpl ++ context ++ before_target tpl ++ targetSentence ++ after_target tpl.

(** The own property [key] of an object literal; of two fields with the
    same key [JSON.parse] keeps the later. *)
Fixpoint lookup_field (key : jsstring) (fields : list (jsstring * Value)) : option Value :=
  match fields with
  | [] => None
  | (k, v) :: rest =>
    match lookup_field key rest with
    | Some later => Some later
    | None => if bool_decide (k = key) then Some v else None
    end
  end.

(** [v.error] and [v.correctedSentence]: reading a property that no
    prototype has. It throws on [null] and [undefined], gives the own
    property of an object, and [undefined] otherwise. [None] is the
    throw. *)
Definition read_property (v : Value) (key : jsstring) : option Value :=
  match v with
  | VUndefined | VNull => None
  | VObject fields => Some (default VUndefined (lookup_field key fields))
  | VBool _ | VNumber _ | VString _ | VArray _ => Some VUndefined
  end.

(** [e.length]: it throws on [null] and [undefined], is the number of
    code units of a string and of items of an array, the own property of
    an object, and [undefined] on a boolean or a number. *)
Definition read_length (e : Value) : option (nat + Value) :=
  match e with
  | VUndefined | VNull => None
  | VString s => Some (inl (length s))
  | VArray items => Some (inl (length items))
  | VObject fields => Some (inr (default VUndefined (lookup_field (js "length") fields)))
  | VBool _ | VNumber _ => Some (inr VUndefined)
  end.

(** [x > 0] for what [e.length] gave: [undefined] and [null] are not
    greater, [true] is, and the other values go through the conversion
    of the language. *)
Definition greater_than_zero (client : OpenAI) (x : nat + Value) : option bool :=
  match x with
  | inl n => Some (0 <? n)
  | inr VUndefined | inr VNull => Some false
  | inr (VBool b) => Some b
  | inr v => coerced_gt_zero client v
  end.

(** [c !== text] for a string [text]. *)
Definition strict_ne (c : Value) (text : jsstring) : bool :=
  match c with
  | VString s => negb (bool_decide (s = text))
  | _ => true
  end.

(** The object of the [catch], with no errors and an empty correction. *)
Definition fallback_response : Value :=
  VObject [(js "error", VArray []); (js "correctedSentence", VString [])].

(** [callOpenAIAPI]: a request that throws, a missing or empty content
    and a content that does not parse all end in the [catch]; a content
    that parses is returned as it is, whatever its shape. *)
Definition callOpenAIAPI (client : OpenAI) (k : nat) (prompt : jsstring) : Value :=
  match create client k prompt with
  | Throws => fallback_response
  | Message None => fallback_response
  | Message (Some content) =>
    if truthy content then default fallback_response (JSON_parse client content)
    else fallback_response
  end.

(** The record of a sentence the service found nothing to change in. *)
Definition unchanged_record (sentence : DocumentSentence.t) : CorrectionResult.t :=
  CorrectionResult.mk (DocumentSentence.range sentence) (VArray [])
    (DocumentSentence.text sentence) (VString (DocumentSentence.text sentence)).

(** Lines 136-150 on the response: the condition is read from left to
    right, [response.error.length > 0] first, and
    [response.correctedSentence] only when that holds. [None] is a
    throw, which nothing catches. *)
Definition record_of_response (client : OpenAI) (sentence : DocumentSentence.t)
    (response : Value) : option CorrectionResult.t :=
  e ← read_property response (js "error");
  len ← read_length e;
  nonempty ← greater_than_zero client len;
  if (nonempty : bool) then
    c ← read_property response (js "correctedSentence");
    if strict_ne c (DocumentSentence.text sentence)
    then Some (CorrectionResult.mk (DocumentSentence.range sentence) e
                 (DocumentSentence.text sentence) c)
    else Some (unchanged_record sentence)
  else Some (unchanged_record sentence).

(** What the task of one sentence does, lines 132-150: the record it
    resolves to, or [None] when it throws. *)
Definition correct_sentence (tp : TextProcessor) (tpl : PromptTemplate)
    (sentences : DocumentSentences) (task : DocumentSentence.t * nat)
    : option CorrectionResult.t :=
  let context := getContext sentences (snd task) in
  let prompt := createCorrectionPrompt tpl (DocumentSentence.text (fst task)) context in
  let response := callOpenAIAPI (openai tp) (snd task) prompt in
  record_of_response (openai tp) (fst task) response.

Definition correct_task (tp : TextProcessor) (tpl : PromptTemplate)
    (sentences : DocumentSentences) (task : DocumentSentence.t * nat)
    : Pending CorrectionResult.t :=
  mkPending (create_latency (openai tp) (snd task))
            (correct_sentence tp tpl sentences task).

(** How a generator ends for a consumer that reads it to the end: it
    returns, it throws, or its loop never ends. *)
Inductive StreamEnd := Completed | Thrown | Stalled.

(** The generator: the records it yields, batch after batch, and how it
    ends. The records of a batch are yielded once all its tasks have
    resolved; a task that throws rejects [Promise.all] and the generator
    throws, after the records of the batches before. [Stalled] is the
    loop that never ends, with a [maxConcurrency] of [0]. *)
Fixpoint correct_batches (fuel : nat) (tp : TextProcessor) (tpl : PromptTemplate)
    (sentences : DocumentSentences) (tasks : list (DocumentSentence.t * nat)) (i : nat)
    : list CorrectionResult.t * StreamEnd :=
  if i <? length tasks then
    match fuel with
    | O => ([], Stalled)
    | S fuel' =>
      match promise_all
              (correct_task tp tpl sentences <$> slice_batch tasks i (maxConcurrency tp)) with
      | None => ([], Thrown)
      | Some batchResults =>
        let later := correct_batches fuel' tp tpl sentences tasks (i + maxConcurrency tp) in
        (batchResults ++ fst later, snd later)
      end
    end
  else ([], Completed).

Definition correctTextStream (tp : TextProcessor) (tpl : PromptTemplate)
    (sentences : DocumentSentences) : list CorrectionResult.t * StreamEnd :=
  let tasks := with_index sentences in
  correct_batches (length tasks) tp tpl sentences tasks 0.

(** [new TextProcessor(apiKey)]: the default concurrency is 10. *)
Definition new_TextProcessor (client : OpenAI) : TextProcessor :=
  mkTextProcessor client 10.

(** [proofread]: a rejected [processParagraphs] makes the generator
    throw before any record. *)
Definition proofread (client : OpenAI) (tpl : PromptTemplate) (text : jsstring)
    : list CorrectionResult.t * StreamEnd :=
  let processor := new_TextProcessor client in
  match processParagraphs processor text with
  | None => ([], Thrown)
  | Some sentences => correctTextStream processor tpl sentences
  end.

(** ** Notions the properties are stated with *)

(** The text a run list stands for on the side of [text1] (the [equal]
    and [delete] runs) and on the side of [text2] (the [equal] and
    [insert] runs). *)
Fixpoint old_text (runs : list Diff.DiffPart) : jsstring :=
  match runs with
  | [] => []
  | p :: rest =>
    match Diff.type p with
    | Diff.DInsert => old_text rest
    | _ => Diff.value p ++ old_text rest
    end
  end.

Fixpoint new_text (runs : list Diff.DiffPart) : jsstring :=
  match runs with
  | [] => []
  | p :: rest =>
    match Diff.type p with
    | Diff.DDelete => new_text rest
    | _ => Diff.value p ++ new_text rest
    end
  end.

(** No two neighbours of the run list have the same type. *)
Definition runs_alternate (runs : list Diff.DiffPart) : Prop :=
  ∀ i a b, runs !! i = Some a → runs !! (S i) = Some b → Diff.type a ≠ Diff.type b.

(** The merged list with the pending run appended, as the last lines of
    [mergeDiff] do. *)
Definition flush (st : list Diff.DiffPart * option Diff.DiffPart) : list Diff.DiffPart :=
  fst st ++ option_list (snd st).

Fixpoint neighbours_differ (runs : list Diff.DiffPart) : Prop :=
  match runs with
  | a :: (b :: _) as rest => Diff.type a ≠ Diff.type b ∧ neighbours_differ rest
  | _ => True
  end.

(** The processor with other latencies for its correction requests. *)
Definition with_latency (tp : TextProcessor) (latency : nat -> nat) : TextProcessor :=
  mkTextProcessor
    (mkOpenAI (create (openai tp)) latency (JSON_parse (openai tp))
              (splitIntoSentences (openai tp)) (splitIntoSentences_latency (openai tp))
              (coerced_gt_zero (openai tp)))
    (maxConcurrency tp).

(** The prompt and the response of the task of sentence [s], the [i]-th
    of [sentences]. *)
Definition prompt_for (tpl : PromptTemplate) (sentences : DocumentSentences)
    (i : nat) (s : DocumentSentence.t) : jsstring :=
  createCorrectionPrompt tpl (DocumentSentence.text s) (getContext sentences i).

Definition response_for (tp : TextProcessor) (tpl : PromptTemplate)
    (sentences : DocumentSentences) (i : nat) (s : DocumentSentence.t) : Value :=
  callOpenAIAPI (openai tp) i (prompt_for tpl sentences i s).

(** The response has the declared type, with the fields of [r]. *)
Definition has_declared_type (response : Value) (r : Response.t) : Prop :=
  read_property response (js "error") = Some (VArray (VString <$> Response.error r))
  ∧ read_property response (js "correctedSentence")
    = Some (VString (Response.correctedSentence r)).

(** [response.error.length > 0] holds. *)
Definition reports_errors (client : OpenAI) (response : Value) : Prop :=
  ∃ e len, read_property response (js "error") = Some e
           ∧ read_length e = Some len
           ∧ greater_than_zero client len = Some true.

(** [response.correctedSentence !== text] holds. *)
Definition corrects (response : Value) (text : jsstring) : Prop :=
  ∃ c, read_property response (js "correctedSentence") = Some c
       ∧ strict_ne c text = true.

(** The response has an array under [error], whatever else it has. *)
Definition has_error_list (response : Value) : Prop :=
  ∃ items, read_property response (js "error") = Some (VArray items).

(** No task of [correctTextStream] throws on these sentences. *)
Definition no_task_throws (tp : TextProcessor) (tpl : PromptTemplate)
    (sentences : DocumentSentences) : Prop :=
  ∀ i s, sentences !! i = Some s → is_Some (correct_sentence tp tpl sentences (s, i)).

(** The external call fails or returns no content or content that does
    not parse. *)
Definition service_failed (client : OpenAI) (k : nat) (prompt : jsstring) : Prop :=
  match create client k prompt with
  | Throws => True
  | Message None => True
  | Message (Some content) => content = [] ∨ JSON_parse client content = None
  end.

(** Document order on positions: by line, then by column. *)
Definition pos_lt (p q : Position) : Prop :=
  lineIndex p < lineIndex q ∨ (lineIndex p = lineIndex q ∧ columnIndex p < columnIndex q).

Definition pos_le (p q : Position) : Prop :=
  lineIndex p < lineIndex q ∨ (lineIndex p = lineIndex q ∧ columnIndex p ≤ columnIndex q).

(** The half-open range of [a] ends where that of [b] starts, or before. *)
Definition range_before (a b : DocumentSentence.t) : Prop :=
  pos_le (endsAt (DocumentSentence.range a)) (startsAt (DocumentSentence.range b)).

(** The buffer [splitIntoParagraphs] accumulates for a group of lines:
    each line followed by a newline. *)
Definition buffer_of (lines : list jsstring) : jsstring :=
  concat ((fun line => line ++ [newline]) <$> lines).

(** The offset in the document of a position: the lines before it, each
    with its newline, and the column. *)
Definition offset_of (lines : list jsstring) (p : Position) : nat :=
  length (buffer_of (take (lineIndex p) lines)) + columnIndex p.

(** [sentence] is a whitespace-insensitive substring of [originalText]
    at or after [startPosition]: some stretch of the document that
    begins at or after the position has the characters of the sentence
    once the whitespace of both is removed. *)
Definition ws_substring_from (sentence originalText : jsstring)
    (startPosition : Position) : Prop :=
  ∃ before middle after,
    originalText = before ++ middle ++ after
    ∧ offset_of (split_lines originalText) startPosition ≤ length before
    ∧ remove_ws middle = remove_ws sentence.

(** The stretch of a text between two offsets, and the document content
    a range covers. *)
Definition stretch (s : jsstring) (from to : nat) : jsstring :=
  take (to - from) (drop from s).

Definition range_content (originalText : jsstring) (r : Range) : jsstring :=
  let lines := split_lines originalText in
  stretch originalText (offset_of lines (startsAt r)) (offset_of lines (endsAt r)).

(** What the loop of [mergeDiff] keeps true of [(merged, current)]. *)
Definition merge_inv (st : list Diff.DiffPart * option Diff.DiffPart) : Prop :=
  (snd st = None → fst st = []) ∧ neighbours_differ (flush st).

(** The candidate start, when there is one, lies between the position
    the search began at and the position the scan has reached. *)
Definition start_between (lo here : Position) (matchStartPosition : option Position) : Prop :=
  ∀ p, matchStartPosition = Some p → pos_le lo p ∧ pos_lt p here.

(** What the loop of [calculateRanges] keeps true of
    [(result, currentPosition)]: the ranges found so far are in document
    order without overlap, none is empty, and all end at or before the
    cursor. *)
Definition calc_inv (st : DocumentSentences * Position) : Prop :=
  StronglySorted range_before (fst st)
  ∧ Forall (fun a => pos_lt (startsAt (DocumentSentence.range a))
                            (endsAt (DocumentSentence.range a))) (fst st)
  ∧ Forall (fun a => pos_le (endsAt (DocumentSentence.range a)) (snd st)) (fst st).

(** The paragraph texts are the trimmed buffers of the groups. *)
Definition texts_of_groups (ps : list Paragraph.t) (groups : list (list jsstring)) : Prop :=
  Forall2 (fun p g => Paragraph.text p = trim (buffer_of g)) ps groups.

(** While a match is under way, the candidate start is behind the scan
    and the stretch between them spells, whitespace aside, the part of
    [cleanSentence] matched so far. *)
Definition match_so_far (lines : list jsstring) (D cleanSentence : jsstring)
    (o matchCount : nat) (matchStartPosition : option Position) : Prop :=
  0 < matchCount →
  ∃ p, matchStartPosition = Some p
       ∧ offset_of lines p ≤ o
       ∧ remove_ws (stretch D (offset_of lines p) o) = take matchCount cleanSentence.

(** ** Sample inputs *)

(** A client whose requests all throw; later requests settle first. *)
Definition failing_client : OpenAI :=
  mkOpenAI (fun _ _ => Throws) (fun k => 10 - k) (fun _ => None)
           (fun _ _ => None) (fun _ => 0) (fun _ => Some false).

(** The contents the sample clients answer with, and what [JSON.parse]
    makes of them: an object with one error and the correction
    ["fixed"], and the empty object. *)
Definition quoted (s : jsstring) : jsstring := [34%N] ++ s ++ [34%N].

Definition flagged_content : jsstring :=
  js "{" ++ quoted (js "error") ++ js ":[" ++ quoted (js "typo") ++ js "],"
    ++ quoted (js "correctedSentence") ++ js ":" ++ quoted (js "fixed") ++ js "}".

Definition flagged_reply : Value :=
  VObject [(js "error", VArray [VString (js "typo")]);
           (js "correctedSentence", VString (js "fixed"))].

Definition empty_object_content : jsstring := js "{}".

Definition parse_sample (content : jsstring) : option Value :=
  if bool_decide (content = flagged_content) then Some flagged_reply
  else if bool_decide (content = empty_object_content) then Some (VObject [])
  else if bool_decide (content = js "null") then Some VNull
  else None.

(** A client that answers every correction request with one error and
    the correction ["fixed"]. *)
Definition flagging_client : OpenAI :=
  mkOpenAI (fun _ _ => Message (Some flagged_content)) (fun k => 10 - k)
           parse_sample (fun _ _ => None) (fun _ => 0) (fun _ => Some false).

(** A client that answers every correction request with the empty
    object: every call resolves and its content parses. *)
Definition empty_object_client : OpenAI :=
  mkOpenAI (fun _ _ => Message (Some empty_object_content)) (fun _ => 0)
           parse_sample (fun _ _ => None) (fun _ => 0) (fun _ => Some false).

(** A client that answers the request of the second sentence with the
    empty object and the others as [flagging_client] does. *)
Definition second_empty_client : OpenAI :=
  mkOpenAI (fun k _ => Message (Some (if k =? 1 then empty_object_content
                                      else flagged_content)))
           (fun k => 10 - k) parse_sample (fun _ _ => None) (fun _ => 0)
           (fun _ => Some false).

Definition no_template : PromptTemplate := mkTemplate [] [] [].

Definition sample_sentences : DocumentSentences :=
  [DocumentSentence.mk (mkRange (mkPosition 1 0) (mkPosition 1 3)) (js "abc");
   DocumentSentence.mk (mkRange (mkPosition 1 4) (mkPosition 1 7)) (js "def");
   DocumentSentence.mk (mkRange (mkPosition 2 0) (mkPosition 2 3)) (js "ghi")].

(** The document of the two-sentence scenario and the answer of the
    segmentation service to it. *)
Definition title_document : jsstring :=
  js "# Title" ++ [newline] ++ js "This is a test.  It has two sentences.".

Definition two_sentences : list jsstring :=
  [js "This is a test."; js "It has two sentences."].

Definition two_sentence_client : OpenAI :=
  mkOpenAI (fun _ _ => Throws) (fun _ => 0) (fun _ => None)
           (fun _ _ => Some two_sentences) (fun k => 3 - k) (fun _ => Some false).

(** ** extension.ts: the hover text *)

(** [formatDiff], lines 226-243: the runs in order, an inserted value
    between [" **"] and ["** "], a deleted one between [" **~~"] and
    ["~~** "]. *)
Definition format_part (result : jsstring) (part : Diff.DiffPart) : jsstring :=
  match Diff.type part with
  | Diff.DEqual => result ++ Diff.value part
  | Diff.DInsert => result ++ js " **" ++ Diff.value part ++ js "** "
  | Diff.DDelete => result ++ js " **~~" ++ Diff.value part ++ js "~~** "
  end.

Definition formatDiff (text1 text2 : jsstring) : option jsstring :=
  foldl format_part [] <$> Diff.computeDiff text1 text2.

(** ** extension.ts: the range of a diagnostic *)

Module vscode.
Record Position := mk { line : nat; character : nat }.
End vscode.

(** Lines 149-150 of [applyProofReadResult]: a position of the proofread
    text moved to the document, [offset] being where the text starts.
    The character of the offset is added on line 0 only. *)
Definition shift_position (offset : vscode.Position) (p : Position) : vscode.Position :=
  vscode.mk (lineIndex p + vscode.line offset)
            (columnIndex p + (if lineIndex p =? 0 then vscode.character offset else 0)).

(** ** Further notions *)

(** The characters a run list keeps: the values of its [equal] runs. *)
Fixpoint equal_text (runs : list Diff.DiffPart) : jsstring :=
  match runs with
  | [] => []
  | p :: rest =>
    match Diff.type p with
    | Diff.DEqual => Diff.value p ++ equal_text rest
    | _ => equal_text rest
    end
  end.

(** One part per character of [s], all of type [t], as the
    reconstruction loop produces them. *)
Definition parts_of (t : Diff.DiffType) (s : jsstring) : list Diff.DiffPart :=
  (fun c => Diff.mkPart t [c]) <$> s.

(** The run list of a text that is all of one type: one run, or none for
    the empty text. *)
Definition one_run (t : Diff.DiffType) (s : jsstring) : list Diff.DiffPart :=
  match s with
  | [] => []
  | _ :: _ => [Diff.mkPart t s]
  end.

(** [k] is the length of a longest common subsequence of [s] and [t]. *)
Definition is_lcs_len (s t : jsstring) (k : nat) : Prop :=
  (∃ l, l `sublist_of` s ∧ l `sublist_of` t ∧ length l = k)
  ∧ (∀ l, l `sublist_of` s → l `sublist_of` t → length l ≤ k).

(** The table has [m + 1] rows of [n + 1] cells. *)
Definition table_shape (m n : nat) (dp : list (list nat)) : Prop :=
  length dp = m + 1 ∧ Forall (fun row => length row = n + 1) dp.

(** The cells of row 0, of column 0, of the rows above [i] and of row [i]
    left of column [j] hold the LCS lengths of the prefixes. *)
Definition table_filled (text1 text2 : jsstring) (i j : nat) (dp : list (list nat)) : Prop :=
  table_shape (length text1) (length text2) dp
  ∧ ∀ i' j', i' ≤ length text1 → j' ≤ length text2 →
      (i' = 0 ∨ j' = 0 ∨ i' < i ∨ (i' = i ∧ j' < j)) →
      is_lcs_len (take i' text1) (take j' text2) (Diff.dp_get dp i' j').

(** The indices, counted from [i], of the lines that start with the
    heading marker. *)
Fixpoint heading_lines_from (i : nat) (lines : list jsstring) : list nat :=
  match lines with
  | [] => []
  | line :: more =>
    if startsWith_hash line then i :: heading_lines_from (S i) more
    else heading_lines_from (S i) more
  end.

(** What the loop of [splitIntoParagraphs] keeps true once a paragraph
    has been closed: the closed paragraphs after the first, and the
    buffer, begin with the heading marker. *)
Definition heading_inv (st : SplitState) : Prop :=
  (∀ k p, paragraphs st !! S k = Some p → startsWith_hash (Paragraph.text p) = true)
  ∧ (paragraphs st ≠ [] → startsWith_hash (currentParagraph st) = true).

(** The character of the document at a position, if there is one. *)
Definition char_at_position (lines : list jsstring) (p : Position) : option char :=
  lines !! lineIndex p ≫= (.!! columnIndex p).

(** While a match is under way there is a candidate start, and a
    candidate start lies on the first character of [cleanSentence]. *)
Definition start_on_char (lines : list jsstring) (cleanSentence : jsstring)
    (matchCount : nat) (matchStartPosition : option Position) : Prop :=
  (0 < matchCount → is_Some matchStartPosition)
  ∧ ∀ p, matchStartPosition = Some p →
      ∃ c, char_at_position lines p = Some c ∧ cleanSentence !! 0 = Some c.

(** A range from the first to just after the last character of
    [cleanSentence]. *)
Definition on_sentence_ends (lines : list jsstring) (cleanSentence : jsstring)
    (a b : Position) : Prop :=
  ∃ c d, char_at_position lines a = Some c ∧ cleanSentence !! 0 = Some c
         ∧ 0 < columnIndex b
         ∧ char_at_position lines (mkPosition (lineIndex b) (columnIndex b - 1)) = Some d
         ∧ last cleanSentence = Some d.

(** A positioned sentence that is where its range says: the range
    covers, whitespace aside, the text of the sentence, which is not
    blank, and starts at or after [lo]. *)
Definition located_in (originalText : jsstring) (lo : Position)
    (d : DocumentSentence.t) : Prop :=
  remove_ws (range_content originalText (DocumentSentence.range d))
  = remove_ws (DocumentSentence.text d)
  ∧ remove_ws (DocumentSentence.text d) ≠ []
  ∧ pos_le lo (startsAt (DocumentSentence.range d)).

(** The sentences located in paragraph [p], the [k]-th of the document,
    from the answer of the segmentation service to it. *)
Definition paragraph_sentences (tp : TextProcessor) (text : jsstring)
    (k : nat) (p : Paragraph.t) : DocumentSentences :=
  calculateRanges (default [] (splitIntoSentences (openai tp) k (Paragraph.text p)))
                  text (Paragraph.startLine p + 1).

(** What the task of a paragraph resolves to when its request does. *)
Definition segment_result (tp : TextProcessor) (text : jsstring)
    (task : Paragraph.t * nat) : DocumentSentences * nat :=
  (paragraph_sentences tp text (snd task) (fst task), snd task).

(** The segmentation request of a task resolves. *)
Definition segmentation_resolves (tp : TextProcessor) (task : Paragraph.t * nat) : Prop :=
  is_Some (splitIntoSentences (openai tp) (snd task) (Paragraph.text (fst task))).

(** A client whose segmentation request rejects for the second
    paragraph only. *)
Definition second_rejects_client : OpenAI :=
  mkOpenAI (fun _ _ => Throws) (fun _ => 0) (fun _ => None)
           (fun k _ => if k =? 1 then None else Some []) (fun _ => 0)
           (fun _ => Some false).

Definition two_paragraph_document : jsstring :=
  js "intro" ++ [newline] ++ js "# Title" ++ [newline] ++ js "body".

(** Document order on editor positions. *)
Definition vs_lt (p q : vscode.Position) : Prop :=
  vscode.line p < vscode.line q
  ∨ (vscode.line p = vscode.line q ∧ vscode.character p < vscode.character q).

(** A processor without concurrency. *)
Definition stalled_processor : TextProcessor := mkTextProcessor flagging_client 0.

(** What lies ahead of the scan when a sentence is about to be found:
    either no match is under way and, after a stretch without the first
    character of [cleanSentence], the text continues with
    [cleanSentence], whitespace aside; or a match is under way and the
    text continues with the part still to match. *)
Definition ahead (cleanSentence more_text : jsstring) (matchCount : nat)
    (stream : jsstring) : Prop :=
  (matchCount = 0
   ∧ ∃ pre target c0, stream = pre ++ target
       ∧ cleanSentence !! 0 = Some c0 ∧ (c0 ∉ pre)
       ∧ remove_ws target = cleanSentence ++ more_text)
  ∨ (matchCount < length cleanSentence
     ∧ remove_ws stream = drop matchCount cleanSentence ++ more_text).

(** A position that lies on a line of the document, at a column or at
    the end of the line. *)
Definition on_line (lines : list jsstring) (p : Position) : Prop :=
  ∃ line : jsstring, lines !! lineIndex p = Some line ∧ columnIndex p ≤ length line.

(** From offset [o] on, the document continues, whitespace aside, with
    the part of [cleanSentence] still to match and then [more_text]. *)
Definition rest_ahead (lines : list jsstring) (cleanSentence more_text : jsstring)
    (o matchCount : nat) : Prop :=
  matchCount < length cleanSentence
  ∧ remove_ws (drop o (buffer_of lines)) = drop matchCount cleanSentence ++ more_text.

(** * Properties *)

(** ** The display diff *)

Section DiffFacts.
Import Diff.

Lemma old_text_app (l1 l2 : list DiffPart) : old_text (l1 ++ l2) = old_text l1 ++ old_text l2.
Proof.
  induction l1 as [|p l1 IH]; simpl; [done|].
  destruct (type p); rewrite IH; by rewrite ?app_assoc.
Qed.

Lemma new_text_app (l1 l2 : list DiffPart) : new_text (l1 ++ l2) = new_text l1 ++ new_text l2.
Proof.
  induction l1 as [|p l1 IH]; simpl; [done|].
  destruct (type p); rewrite IH; by rewrite ?app_assoc.
Qed.

Lemma char_at_take (s : jsstring) (k : nat) :
  k < length s → take k s ++ char_at s k = take (S k) s.
Proof.
  intros Hk. unfold char_at.
  destruct (s !! k) as [c|] eqn:Hc.
  - by rewrite (take_S_r _ _ _ Hc).
  - apply lookup_ge_None in Hc. lia.
Qed.

Lemma same_char_at (s t : jsstring) (i j : nat) :
  same_char s i t j = true → char_at s i = char_at t j.
Proof.
  unfold same_char, char_at. intros H%bool_decide_eq_true. by rewrite H.
Qed.

(** The reconstruction loop ends within [i + j] iterations, whatever the
    table holds, and spells the two prefixes it has walked over. *)
Lemma backtrack_spells (text1 text2 : jsstring) (dp : list (list nat)) (fuel : nat) :
  ∀ i j diff, i ≤ length text1 → j ≤ length text2 → i + j ≤ fuel →
  ∃ out, backtrack fuel text1 text2 dp i j diff = Some out
         ∧ old_text out = take i text1 ++ old_text diff
         ∧ new_text out = take j text2 ++ new_text diff.
Proof.
  induction fuel as [|fuel IH]; intros i j diff Hi Hj Hf.
  - assert (i = 0) as -> by lia. assert (j = 0) as -> by lia.
    exists diff. by rewrite !take_0.
  - simpl.
    destruct (Nat.ltb_spec 0 i) as [Ei|Ei]; destruct (Nat.ltb_spec 0 j) as [Ej|Ej]; simpl.
    + destruct (same_char text1 (i - 1) text2 (j - 1)) eqn:Ec.
      * destruct (IH (i - 1) (j - 1) (mkPart DEqual (char_at text1 (i - 1)) :: diff))
          as (out & -> & H1 & H2); [lia..|].
        exists out. split; [done|]. rewrite H1, H2. simpl.
        rewrite (same_char_at _ _ _ _ Ec) at 2.
        rewrite !app_assoc, !char_at_take by lia.
        by replace (S (i - 1)) with i by lia; replace (S (j - 1)) with j by lia.
      * destruct ((i =? 0) || (dp_get dp (i - 1) j <=? dp_get dp i (j - 1))).
        -- destruct (IH i (j - 1) (mkPart DInsert (char_at text2 (j - 1)) :: diff))
             as (out & -> & H1 & H2); [lia..|].
           exists out. split; [done|]. rewrite H1, H2. simpl.
           rewrite !app_assoc, !char_at_take by lia.
           by replace (S (j - 1)) with j by lia.
        -- destruct (IH (i - 1) j (mkPart DDelete (char_at text1 (i - 1)) :: diff))
             as (out & -> & H1 & H2); [lia..|].
           exists out. split; [done|]. rewrite H1, H2. simpl.
           rewrite !app_assoc, !char_at_take by lia.
           by replace (S (i - 1)) with i by lia.
    + destruct (IH (i - 1) j (mkPart DDelete (char_at text1 (i - 1)) :: diff))
        as (out & -> & H1 & H2); [lia..|].
      exists out. split; [done|]. rewrite H1, H2. simpl.
      rewrite !app_assoc, !char_at_take by lia.
      by replace (S (i - 1)) with i by lia.
    + assert (i = 0) as -> by lia. simpl.
      destruct (IH 0 (j - 1) (mkPart DInsert (char_at text2 (j - 1)) :: diff))
        as (out & -> & H1 & H2); [lia..|].
      exists out. split; [done|]. rewrite H1, H2. simpl.
      rewrite !app_assoc, !char_at_take by lia.
      by replace (S (j - 1)) with j by lia.
    + assert (i = 0) as -> by lia. assert (j = 0) as -> by lia.
      exists diff. by rewrite !take_0.
Qed.

Lemma neighbours_differ_snoc (l : list DiffPart) (a b : DiffPart) :
  neighbours_differ (l ++ [a]) → type a ≠ type b → neighbours_differ (l ++ [a; b]).
Proof.
  induction l as [|x l IH]; simpl; [tauto|].
  destruct l as [|y l]; simpl in *; [tauto|].
  intros [Hxy Hrest] Hab. split; [done|]. by apply IH.
Qed.

Lemma neighbours_differ_last (l : list DiffPart) (a a' : DiffPart) :
  neighbours_differ (l ++ [a]) → type a = type a' → neighbours_differ (l ++ [a']).
Proof.
  induction l as [|x l IH]; simpl; [done|].
  destruct l as [|y l]; simpl in *.
  - intros [Hxa _] <-. done.
  - intros [Hxy Hrest] Ha. split; [done|]. by apply IH.
Qed.

Lemma neighbours_differ_alternate (l : list DiffPart) :
  neighbours_differ l → runs_alternate l.
Proof.
  induction l as [|x l IH]; intros Hl i a b Ha Hb; [done|].
  destruct l as [|y l]; [by destruct i|].
  destruct Hl as [Hxy Hrest].
  destruct i as [|i]; simpl in *.
  - by simplify_eq.
  - by apply (IH Hrest i a b).
Qed.

Lemma merge_step_inv (st : list DiffPart * option DiffPart) (part : DiffPart) :
  merge_inv st →
  merge_inv (merge_step st part)
  ∧ old_text (flush (merge_step st part)) = old_text (flush st) ++ old_text [part]
  ∧ new_text (flush (merge_step st part)) = new_text (flush st) ++ new_text [part].
Proof.
  destruct st as [merged [current|]]; unfold merge_inv, merge_step, flush; simpl.
  - intros [_ Hd]. case_bool_decide as Ht; simpl.
    + split; [split; [done|]|].
      * rewrite <- app_assoc. simpl. by apply neighbours_differ_snoc.
      * by rewrite (old_text_app (_ ++ _) [part]), (new_text_app (_ ++ _) [part]).
    + assert (type current = type part) as Heq by (by destruct (decide (type current = type part))).
      split; [split; [done|]|].
      * by apply (neighbours_differ_last _ current).
      * rewrite !old_text_app, !new_text_app. simpl. rewrite <- Heq.
        destruct (type current); by rewrite ?app_nil_r, ?app_assoc.
  - intros [Hm _]. rewrite (Hm eq_refl). simpl. by split.
Qed.

Lemma merge_fold_inv (diff : list DiffPart) :
  ∀ st, merge_inv st →
  merge_inv (foldl merge_step st diff)
  ∧ old_text (flush (foldl merge_step st diff)) = old_text (flush st) ++ old_text diff
  ∧ new_text (flush (foldl merge_step st diff)) = new_text (flush st) ++ new_text diff.
Proof.
  induction diff as [|part diff IH]; intros st Hst.
  - simpl. by rewrite !app_nil_r.
  - change (foldl merge_step st (part :: diff))
      with (foldl merge_step (merge_step st part) diff).
    destruct (merge_step_inv st part Hst) as (Hst' & Ho & Hn).
    destruct (IH _ Hst') as (Hinv & Ho' & Hn').
    split; [done|]. rewrite Ho', Hn', Ho, Hn, <- !app_assoc.
    by rewrite <- old_text_app, <- new_text_app.
Qed.

Lemma mergeDiff_flush (diff : list DiffPart) :
  mergeDiff diff = flush (foldl merge_step ([], None) diff).
Proof.
  unfold mergeDiff, flush. destruct (snd _); simpl; [done|]. by rewrite app_nil_r.
Qed.

(** [mergeDiff] keeps both texts and leaves no two neighbours of one type. *)
Lemma mergeDiff_spec (diff : list DiffPart) :
  old_text (mergeDiff diff) = old_text diff
  ∧ new_text (mergeDiff diff) = new_text diff
  ∧ runs_alternate (mergeDiff diff).
Proof.
  rewrite mergeDiff_flush.
  destruct (merge_fold_inv diff ([], None)) as ([_ Hd] & Ho & Hn); [by split|].
  split; [done|]. split; [done|]. by apply neighbours_differ_alternate.
Qed.

End DiffFacts.

(** C8. [computeDiff("cat", "cart")] is the merged run list
    [equal "ca"], [insert "r"], [equal "t"]. *)
Theorem computeDiff_cat_cart :
  Diff.computeDiff (js "cat") (js "cart")
  = Some [Diff.mkPart Diff.DEqual (js "ca");
          Diff.mkPart Diff.DInsert (js "r");
          Diff.mkPart Diff.DEqual (js "t")].
Proof. vm_compute. reflexivity. Qed.

(** C10. For all strings [text1] and [text2], [computeDiff] returns a run
    list; its [equal] and [delete] values, in order, spell [text1], its
    [equal] and [insert] values spell [text2], and no two neighbouring
    runs have the same type. *)
Theorem computeDiff_round_trip (text1 text2 : jsstring) :
  ∃ runs, Diff.computeDiff text1 text2 = Some runs
          ∧ old_text runs = text1
          ∧ new_text runs = text2
          ∧ runs_alternate runs.
Proof.
  unfold Diff.computeDiff.
  destruct (backtrack_spells text1 text2 (Diff.lcs_table text1 text2)
              (length text1 + length text2) (length text1) (length text2) [])
    as (out & -> & Ho & Hn); [lia..|].
  destruct (mergeDiff_spec out) as (Ho' & Hn' & Ha).
  exists (Diff.mergeDiff out). split; [done|].
  rewrite Ho', Hn', Ho, Hn. simpl. by rewrite !app_nil_r, !firstn_all.
Qed.

(** ** [Promise.all] *)

Section PromiseFacts.
Context {B : Type}.
Implicit Types (pending : list (Pending B)) (values : list (option B)).

Lemma settle_before_elem pending (k x : nat) (order : list nat) :
  x ∈ settle_before pending k order ↔ x = k ∨ x ∈ order.
Proof.
  induction order as [|k' order IH]; simpl.
  - rewrite list_elem_of_singleton, elem_of_nil. tauto.
  - destruct (_ <=? _); rewrite !elem_of_cons; [tauto|]. rewrite IH. tauto.
Qed.

(** Every promise of the batch settles, in some order. *)
Lemma completion_order_elem pending (x : nat) :
  x ∈ completion_order pending ↔ x < length pending.
Proof.
  unfold completion_order.
  assert (∀ l, x ∈ foldr (settle_before pending) [] l ↔ x ∈ l) as ->.
  { induction l as [|k l IH]; simpl; [done|].
    by rewrite settle_before_elem, elem_of_cons, IH. }
  rewrite elem_of_seq. lia.
Qed.

(** When no promise rejects, the slots of the promises that have
    settled hold their values and the other slots are untouched,
    whatever the order. *)
Lemma settle_all_resolved pending (vs : list B) (order : list nat) :
  outcome <$> pending = Some <$> vs →
  ∀ values, length values = length vs →
  ∃ values', settle_all pending order values = Some values'
    ∧ length values' = length vs
    ∧ ∀ k, values' !! k = if decide (k ∈ order) then Some <$> vs !! k else values !! k.
Proof.
  intros Hout. induction order as [|k order IH]; intros values Hlen; simpl.
  - exists values. by split_and!.
  - assert (outcome <$> pending !! k = Some <$> vs !! k) as ->.
    { by rewrite <- !list_lookup_fmap, Hout. }
    destruct (vs !! k) as [v|] eqn:Hv; simpl.
    + destruct (IH (<[k := Some v]> values)) as (values' & -> & Hlen' & Hk).
      { by rewrite length_insert. }
      exists values'. split_and!; [done..|]. intros j. rewrite Hk.
      destruct (decide (j ∈ order)) as [Hj|Hj].
      * rewrite decide_True; [done|]. by apply elem_of_cons; right.
      * destruct (decide (j = k)) as [->|Hne].
        -- rewrite decide_True by (by apply elem_of_cons; left).
           rewrite list_lookup_insert_eq, Hv; [done|].
           apply lookup_lt_Some in Hv. lia.
        -- rewrite decide_False by (rewrite elem_of_cons; tauto).
           by rewrite list_lookup_insert_ne.
    + destruct (IH values Hlen) as (values' & -> & Hlen' & Hk).
      exists values'. split_and!; [done..|]. intros j. rewrite Hk.
      destruct (decide (j ∈ order)) as [Hj|Hj].
      * rewrite decide_True; [done|]. by apply elem_of_cons; right.
      * destruct (decide (j = k)) as [->|Hne].
        -- rewrite decide_True by (by apply elem_of_cons; left).
           rewrite Hv. apply lookup_ge_None. apply lookup_ge_None in Hv. lia.
        -- by rewrite decide_False by (rewrite elem_of_cons; tauto).
Qed.

Lemma mapM_id_Some (vs : list B) : mapM id (Some <$> vs) = Some vs.
Proof.
  apply mapM_Some, Forall2_fmap_l, Forall_Forall2_diag, Forall_true. done.
Qed.

(** [Promise.all] of promises that all resolve gives their values in the
    order of the promises, whatever their latencies. *)
Lemma promise_all_resolved pending (vs : list B) :
  outcome <$> pending = Some <$> vs → promise_all pending = Some vs.
Proof.
  intros Hout. unfold promise_all.
  assert (length pending = length vs) as Hlen.
  { by rewrite <- (length_fmap outcome), Hout, length_fmap. }
  destruct (settle_all_resolved pending vs (completion_order pending) Hout
              (replicate (length pending) None)) as (values' & -> & Hlen' & Hk).
  { by rewrite length_replicate. }
  simpl. assert (values' = Some <$> vs) as ->; [|apply mapM_id_Some].
  apply list_eq. intros k. rewrite Hk, list_lookup_fmap.
  case_decide as Hnot; [done|].
  rewrite completion_order_elem in Hnot.
  rewrite (proj2 (lookup_ge_None vs k)) by lia.
  apply lookup_ge_None. rewrite length_replicate. lia.
Qed.

End PromiseFacts.

Section PromiseRejects.
Context {B : Type}.

(** A rejection among the promises that settle rejects the whole. *)
Lemma settle_all_rejected (pending : list (Pending B)) (k : nat) (pk : Pending B)
    (order : list nat) :
  pending !! k = Some pk → outcome pk = None → k ∈ order →
  ∀ values, settle_all pending order values = None.
Proof.
  intros Hk Hrej. induction order as [|k' order IH]; intros Hin values.
  - by apply elem_of_nil in Hin.
  - simpl. destruct (decide (k' = k)) as [->|Hne].
    + by rewrite Hk; simpl; rewrite Hrej.
    + apply elem_of_cons in Hin as [?|Hin]; [congruence|].
      destruct (outcome <$> pending !! k') as [[v|]|]; [by apply IH|done|by apply IH].
Qed.

Lemma promise_all_rejected (pending : list (Pending B)) (k : nat) (pk : Pending B) :
  pending !! k = Some pk → outcome pk = None → promise_all pending = None.
Proof.
  intros Hk Hrej. unfold promise_all.
  rewrite (settle_all_rejected pending k pk _ Hk Hrej); [done|].
  apply completion_order_elem. by apply lookup_lt_Some in Hk.
Qed.

End PromiseRejects.

(** ** The correction stream *)

Section PromiseOutcomes.
Context {B : Type}.

Lemma mapM_id_Some_iff (l : list (option B)) (vs : list B) :
  mapM id l = Some vs ↔ l = Some <$> vs.
Proof.
  split; [|intros ->; apply mapM_id_Some].
  intros H%mapM_Some. induction H as [|x v l vs Hx _ IH]; simpl; [done|].
  simpl in Hx. by subst.
Qed.

Lemma mapM_id_None (l : list (option B)) : mapM id l = None ↔ None ∈ l.
Proof.
  rewrite mapM_None, Exists_exists. split.
  - intros (x & Hin & Hx). simpl in Hx. by subst.
  - intros Hin. by exists None.
Qed.

(** [Promise.all] resolves with the values of its promises, in their
    order, when all of them resolve, and rejects otherwise; the
    latencies do not show. *)
Lemma promise_all_outcomes (pending : list (Pending B)) :
  promise_all pending = mapM id (outcome <$> pending).
Proof.
  destruct (mapM id (outcome <$> pending)) as [vs|] eqn:Hm.
  - apply promise_all_resolved. by apply mapM_id_Some_iff.
  - apply mapM_id_None, list_elem_of_lookup in Hm as [k Hk].
    rewrite list_lookup_fmap in Hk.
    destruct (pending !! k) as [pk|] eqn:Hpk; [|done].
    injection Hk as Hk. by apply (promise_all_rejected pending k pk).
Qed.

End PromiseOutcomes.

Lemma Forall_is_Some_fmap {B} (l : list (option B)) :
  Forall is_Some l ↔ ∃ vs, l = Some <$> vs.
Proof.
  split.
  - induction 1 as [|x l [v ->] _ [vs ->]]; [by exists []|]. by exists (v :: vs).
  - intros [vs ->]. apply Forall_fmap, Forall_true. by eexists.
Qed.

Lemma Forall_is_Some_no_None {B} (l : list (option B)) :
  Forall is_Some l ↔ None ∉ l.
Proof.
  rewrite Forall_forall. split.
  - intros H Hin. by destruct (H None Hin).
  - intros H [v|] Hin; [by eexists|done].
Qed.

Lemma record_of_response_inv (client : OpenAI) (s : DocumentSentence.t)
    (response : Value) (r : CorrectionResult.t) :
  record_of_response client s response = Some r →
  CorrectionResult.range r = DocumentSentence.range s
  ∧ CorrectionResult.originalSentence r = DocumentSentence.text s
  ∧ (r = unchanged_record s
     ∨ (read_property response (js "error") = Some (CorrectionResult.errors r)
        ∧ read_property response (js "correctedSentence")
          = Some (CorrectionResult.correctedSentence r)
        ∧ CorrectionResult.errors r ≠ VArray []
        ∧ CorrectionResult.correctedSentence r ≠ VString (DocumentSentence.text s))).
Proof.
  unfold record_of_response. intros H.
  destruct (read_property response (js "error")) as [e|] eqn:He; simpl in H; [|done].
  destruct (read_length e) as [len|] eqn:Hl; simpl in H; [|done].
  destruct (greater_than_zero client len) as [[|]|] eqn:Hp; simpl in H; [| |done].
  - destruct (read_property response (js "correctedSentence")) as [c|] eqn:Hc;
      simpl in H; [|done].
    destruct (strict_ne c (DocumentSentence.text s)) eqn:Hne; injection H as <-;
      (split_and!; [done|done|]); [right|by left].
    simpl. split_and!; [done|done| |].
    + intros ->. simpl in Hl. injection Hl as <-. simpl in Hp. done.
    + intros ->. simpl in Hne. by rewrite bool_decide_true in Hne.
  - injection H as <-. split_and!; [done|done|by left].
Qed.


(** A response of the declared type reports errors when its list is not
    empty, and corrects when its correction is not the sentence. *)
Lemma declared_type_condition (client : OpenAI) (response : Value) (typed : Response.t)
    (text : jsstring) :
  has_declared_type response typed →
  (reports_errors client response ↔ Response.error typed ≠ [])
  ∧ (corrects response text ↔ Response.correctedSentence typed ≠ text).
Proof.
  intros [He Hc]. split.
  - split.
    + intros (e & len & He' & Hl & Hp) Hnil. rewrite He in He'. injection He' as <-.
      rewrite Hnil in Hl. simpl in Hl. injection Hl as <-. simpl in Hp. done.
    + intros Hne. exists (VArray (VString <$> Response.error typed)),
        (inl (length (Response.error typed))).
      split_and!; [done|by simpl; rewrite length_fmap|]. simpl.
      by destruct (Response.error typed).
  - split.
    + intros (c & Hc' & Hne) Heq. rewrite Hc in Hc'. injection Hc' as <-.
      simpl in Hne. by rewrite bool_decide_true in Hne.
    + intros Hne. exists (VString (Response.correctedSentence typed)). split; [done|].
      simpl. by rewrite bool_decide_false.
Qed.

(** A response with an array under [error] makes no task throw. *)
Lemma record_of_response_error_list (client : OpenAI) (s : DocumentSentence.t)
    (response : Value) :
  has_error_list response → is_Some (record_of_response client s response).
Proof.
  intros [items He]. unfold record_of_response. rewrite He. simpl.
  destruct response; try done. simpl.
  destruct (0 <? length items); simpl; [|by eexists].
  destruct (strict_ne _ _); by eexists.
Qed.


Lemma callOpenAIAPI_fallback (client : OpenAI) (k : nat) (prompt : jsstring) :
  service_failed client k prompt → callOpenAIAPI client k prompt = fallback_response.
Proof.
  unfold service_failed, callOpenAIAPI.
  destruct (create client k prompt) as [|[content|]]; [done| |done].
  intros [->| ->]; [done|]. by destruct (truthy content).
Qed.

(** The task of a sentence whose call failed does not throw: it
    resolves to the record without errors that echoes the sentence. *)
Lemma correct_sentence_failed (tp : TextProcessor) (tpl : PromptTemplate)
    (sentences : DocumentSentences) (s : DocumentSentence.t) (i : nat) :
  service_failed (openai tp) i (prompt_for tpl sentences i s) →
  correct_sentence tp tpl sentences (s, i) = Some (unchanged_record s).
Proof.
  intros Hfail%callOpenAIAPI_fallback. unfold correct_sentence. simpl.
  unfold prompt_for in Hfail. by rewrite Hfail.
Qed.

Lemma correct_sentence_same_client (tp tp' : TextProcessor) (tpl : PromptTemplate)
    (sentences : DocumentSentences) (task : DocumentSentence.t * nat) :
  openai tp = openai tp' →
  correct_sentence tp tpl sentences task = correct_sentence tp' tpl sentences task.
Proof. intros H. unfold correct_sentence. by rewrite H. Qed.

Section StreamFacts.
Variables (tp : TextProcessor) (tpl : PromptTemplate) (sentences : DocumentSentences).

Local Abbreviation limit := (maxConcurrency tp).
Local Abbreviation outcomes_of tasks := (correct_sentence tp tpl sentences <$> tasks).

(** The batch that starts at [i] resolves or rejects as the outcomes of
    its tasks say. *)
Lemma batch_settles (tasks : list (DocumentSentence.t * nat)) (i : nat) :
  promise_all (correct_task tp tpl sentences <$> slice_batch tasks i limit)
  = mapM id (take limit (drop i (outcomes_of tasks))).
Proof.
  rewrite promise_all_outcomes. f_equal. unfold slice_batch.
  by rewrite <- list_fmap_compose, fmap_take, fmap_drop.
Qed.

(** Whatever the fuel and the limit, the records yielded from [i] on are
    those of the first tasks from [i] on, in the order of the tasks. *)
Lemma correct_batches_prefix (tasks : list (DocumentSentence.t * nat)) (fuel : nat) :
  ∀ i, ∃ n, Some <$> fst (correct_batches fuel tp tpl sentences tasks i)
            = take n (drop i (outcomes_of tasks)).
Proof.
  induction fuel as [|fuel IH]; intros i; simpl;
    destruct (i <? length tasks); try (by exists 0).
  rewrite batch_settles.
  destruct (mapM id _) as [rs|] eqn:Hb; [|by exists 0].
  apply mapM_id_Some_iff in Hb. destruct (IH (i + limit)) as [n Hn].
  exists (limit + n). simpl. rewrite fmap_app, Hn, <- Hb.
  rewrite <- (drop_drop (outcomes_of tasks)). apply take_take_drop.
Qed.

(** With a positive limit and enough fuel, tasks that all resolve are
    all yielded and the generator returns. *)
Lemma correct_batches_complete (tasks : list (DocumentSentence.t * nat)) (fuel : nat) :
  0 < limit →
  ∀ i, length tasks ≤ i + fuel →
  Forall is_Some (drop i (outcomes_of tasks)) →
  Some <$> fst (correct_batches fuel tp tpl sentences tasks i) = drop i (outcomes_of tasks)
  ∧ snd (correct_batches fuel tp tpl sentences tasks i) = Completed.
Proof.
  intros Hc. induction fuel as [|fuel IH]; intros i Hfuel Hall; simpl;
    destruct (Nat.ltb_spec i (length tasks)) as [Hi|Hi];
    try lia; try (by rewrite drop_ge by (by rewrite length_fmap)).
  rewrite batch_settles.
  assert (Forall is_Some (take limit (drop i (outcomes_of tasks)))) as Hbatch
    by (by apply Forall_take).
  apply Forall_is_Some_fmap in Hbatch as [rs Hrs].
  rewrite (proj2 (mapM_id_Some_iff _ rs) Hrs). simpl.
  destruct (IH (i + limit)) as [Hrec Hend]; [lia| |].
  { rewrite <- drop_drop. by apply Forall_drop. }
  split; [|done]. rewrite fmap_app, Hrec, <- Hrs, <- drop_drop. apply take_drop.
Qed.

(** With a positive limit and enough fuel, a task that throws makes the
    generator throw. *)
Lemma correct_batches_throws (tasks : list (DocumentSentence.t * nat)) (fuel : nat) :
  0 < limit →
  ∀ i, length tasks ≤ i + fuel →
  ¬ Forall is_Some (drop i (outcomes_of tasks)) →
  snd (correct_batches fuel tp tpl sentences tasks i) = Thrown.
Proof.
  intros Hc. induction fuel as [|fuel IH]; intros i Hfuel Hnot; simpl;
    destruct (Nat.ltb_spec i (length tasks)) as [Hi|Hi]; try lia;
    try (by destruct Hnot; rewrite drop_ge by (by rewrite length_fmap)).
  rewrite batch_settles.
  destruct (mapM id _) as [rs|] eqn:Hb; [|done].
  apply mapM_id_Some_iff in Hb. simpl. apply IH; [lia|].
  intros Hrest. apply Hnot.
  rewrite <- (take_drop limit (drop i (outcomes_of tasks))).
  apply Forall_app. split.
  - rewrite Hb. apply Forall_is_Some_fmap. by exists rs.
  - by rewrite drop_drop.
Qed.

(** With a positive limit, the generator throws in the batch of the
    first task that throws, after the records of the batches before. *)
Lemma correct_batches_throws_at (tasks : list (DocumentSentence.t * nat)) (j : nat) :
  0 < limit →
  outcomes_of tasks !! j = Some None →
  (∀ k, k < j → outcomes_of tasks !! k ≠ Some None) →
  ∀ b fuel i, length tasks ≤ i + fuel →
  i + limit * b ≤ j < i + limit * b + limit →
  Some <$> fst (correct_batches fuel tp tpl sentences tasks i)
  = take (limit * b) (drop i (outcomes_of tasks))
  ∧ snd (correct_batches fuel tp tpl sentences tasks i) = Thrown.
Proof.
  intros Hc Hj Hfirst.
  assert (j < length tasks) as Hlen.
  { apply lookup_lt_Some in Hj. by rewrite length_fmap in Hj. }
  induction b as [|b IH]; intros fuel i Hfuel Hb.
  - rewrite Nat.mul_0_r in *. destruct fuel as [|fuel]; [lia|]. simpl.
    destruct (Nat.ltb_spec i (length tasks)) as [Hi|Hi]; [|lia].
    rewrite batch_settles.
    assert (mapM id (take limit (drop i (outcomes_of tasks))) = None) as ->; [|done].
    apply mapM_id_None, list_elem_of_lookup. exists (j - i).
    rewrite lookup_take_lt by lia. rewrite lookup_drop.
    by replace (i + (j - i)) with j by lia.
  - rewrite Nat.mul_succ_r in *. destruct fuel as [|fuel]; [lia|]. simpl.
    destruct (Nat.ltb_spec i (length tasks)) as [Hi|Hi]; [|lia].
    rewrite batch_settles.
    assert (Forall is_Some (take limit (drop i (outcomes_of tasks)))) as Hbatch.
    { apply Forall_lookup. intros d x [Hx Hd]%lookup_take_Some.
      rewrite lookup_drop in Hx. destruct x as [v|]; [by eexists|].
      destruct (Hfirst (i + d)); [lia|done]. }
    apply Forall_is_Some_fmap in Hbatch as [rs Hrs].
    rewrite (proj2 (mapM_id_Some_iff _ rs) Hrs). simpl.
    destruct (IH fuel (i + limit)) as [Hrec Hend]; [lia|lia|].
    split; [|done]. rewrite fmap_app, Hrec, <- Hrs.
    rewrite <- (drop_drop (outcomes_of tasks)).
    rewrite take_take_drop. f_equal. lia.
Qed.

(** The outcome of the task of the sentence at an index. *)
Lemma outcomes_lookup (i : nat) :
  outcomes_of (with_index sentences) !! i
  = (fun s => correct_sentence tp tpl sentences (s, i)) <$> sentences !! i.
Proof.
  unfold with_index. rewrite list_lookup_fmap, list_lookup_imap.
  by destruct (_ !! _).
Qed.

Lemma no_task_throws_outcomes :
  no_task_throws tp tpl sentences ↔ Forall is_Some (outcomes_of (with_index sentences)).
Proof.
  rewrite Forall_lookup. unfold no_task_throws. split.
  - intros H i x. rewrite outcomes_lookup.
    destruct (sentences !! i) as [s|] eqn:Hs; [|done]. intros [= <-]. by apply H.
  - intros H i s Hs. apply (H i). by rewrite outcomes_lookup, Hs.
Qed.

(** The records [correctTextStream] yields are the first outcomes of the
    tasks, in the order of the sentences. *)
Lemma correctTextStream_prefix :
  ∃ n, Some <$> fst (correctTextStream tp tpl sentences)
       = take n (outcomes_of (with_index sentences)).
Proof.
  unfold correctTextStream.
  destruct (correct_batches_prefix (with_index sentences)
              (length (with_index sentences)) 0) as [n Hn].
  exists n. by rewrite drop_0 in Hn.
Qed.

Lemma correctTextStream_emitted (i : nat) (r : CorrectionResult.t) :
  fst (correctTextStream tp tpl sentences) !! i = Some r →
  ∃ s, sentences !! i = Some s ∧ correct_sentence tp tpl sentences (s, i) = Some r.
Proof.
  intros Hr. destruct correctTextStream_prefix as [n Hn].
  assert ((Some <$> fst (correctTextStream tp tpl sentences)) !! i = Some (Some r)) as H.
  { by rewrite list_lookup_fmap, Hr. }
  rewrite Hn in H. apply lookup_take_Some in H as [H _].
  rewrite outcomes_lookup in H.
  destruct (sentences !! i) as [s|]; [|done]. injection H as H. by exists s.
Qed.

Lemma correctTextStream_complete :
  0 < limit → no_task_throws tp tpl sentences →
  Some <$> fst (correctTextStream tp tpl sentences) = outcomes_of (with_index sentences)
  ∧ snd (correctTextStream tp tpl sentences) = Completed.
Proof.
  intros Hc Hall%no_task_throws_outcomes. unfold correctTextStream.
  destruct (correct_batches_complete (with_index sentences)
              (length (with_index sentences)) Hc 0) as [H1 H2];
    [lia|by rewrite drop_0|]. by rewrite drop_0 in H1.
Qed.

Lemma correctTextStream_throws :
  0 < limit → ¬ no_task_throws tp tpl sentences →
  snd (correctTextStream tp tpl sentences) = Thrown.
Proof.
  intros Hc Hnot. unfold correctTextStream.
  apply correct_batches_throws; [done|lia|].
  rewrite drop_0. by rewrite <- no_task_throws_outcomes.
Qed.

Lemma no_task_throws_dec :
  no_task_throws tp tpl sentences ∨ ¬ no_task_throws tp tpl sentences.
Proof.
  rewrite no_task_throws_outcomes.
  destruct (decide (Forall is_Some (outcomes_of (with_index sentences)))); tauto.
Qed.

Lemma length_with_index {A} (l : list A) : length (with_index l) = length l.
Proof. apply length_imap. Qed.

(** All the records are yielded exactly when no task throws. *)
Lemma correctTextStream_all :
  0 < limit →
  no_task_throws tp tpl sentences
  ↔ length (fst (correctTextStream tp tpl sentences)) = length sentences
    ∧ snd (correctTextStream tp tpl sentences) = Completed.
Proof.
  intros Hc. split.
  - intros Hall. destruct (correctTextStream_complete Hc Hall) as [H1 H2].
    split; [|done]. apply (f_equal length) in H1.
    by rewrite !length_fmap, length_with_index in H1.
  - intros [_ Hend]. destruct no_task_throws_dec as [H|H]; [done|].
    rewrite (correctTextStream_throws Hc H) in Hend. done.
Qed.

Lemma correctTextStream_throws_at (j b : nat) (s : DocumentSentence.t) :
  0 < limit →
  sentences !! j = Some s →
  correct_sentence tp tpl sentences (s, j) = None →
  (∀ k s', k < j → sentences !! k = Some s' →
     is_Some (correct_sentence tp tpl sentences (s', k))) →
  limit * b ≤ j < limit * b + limit →
  Some <$> fst (correctTextStream tp tpl sentences)
  = take (limit * b) (outcomes_of (with_index sentences))
  ∧ snd (correctTextStream tp tpl sentences) = Thrown.
Proof.
  intros Hc Hs Hj Hfirst Hb. unfold correctTextStream.
  destruct (correct_batches_throws_at (with_index sentences) j Hc) with
    (b := b) (fuel := length (with_index sentences)) (i := 0) as [H1 H2].
  - by rewrite outcomes_lookup, Hs; simpl; rewrite Hj.
  - intros k Hk. rewrite outcomes_lookup.
    destruct (sentences !! k) as [s'|] eqn:Hs'; [|done]. simpl.
    destruct (Hfirst k s' Hk Hs') as [r ->]. done.
  - lia.
  - lia.
  - by rewrite drop_0 in H1.
Qed.

End StreamFacts.

(** The latencies of the requests do not show in the stream. *)
Lemma correct_batches_latency (tp : TextProcessor) (latency : nat -> nat)
    (tpl : PromptTemplate) (sentences : DocumentSentences)
    (tasks : list (DocumentSentence.t * nat)) (fuel : nat) :
  ∀ i, correct_batches fuel (with_latency tp latency) tpl sentences tasks i
       = correct_batches fuel tp tpl sentences tasks i.
Proof.
  induction fuel as [|fuel IH]; intros i; simpl; [done|].
  destruct (i <? length tasks); [|done].
  rewrite !promise_all_outcomes, <- !list_fmap_compose.
  change (outcome ∘ correct_task (with_latency tp latency) tpl sentences)
    with (outcome ∘ correct_task tp tpl sentences).
  destruct (mapM id _); [|done]. by rewrite IH.
Qed.

(** C4. With the default concurrency limit and a client whose calls all
    resolve, each with the content [{}], which parses, the generator
    yields none of the records of three sentences and throws:
    [callOpenAIAPI] returns the parsed object as it is, and every task
    throws on [response.error.length]. So calls that resolve do not give
    one record per sentence. *)
Theorem correctTextStream_throws_on_empty_object :
  (∀ k prompt,
     create empty_object_client k prompt = Message (Some empty_object_content)
     ∧ truthy empty_object_content = true
     ∧ JSON_parse empty_object_client empty_object_content = Some (VObject []))
  ∧ callOpenAIAPI empty_object_client 0
      (prompt_for no_template sample_sentences 0
         (DocumentSentence.mk (mkRange (mkPosition 1 0) (mkPosition 1 3)) (js "abc")))
    = VObject []
  ∧ correct_sentence (new_TextProcessor empty_object_client) no_template sample_sentences
      (DocumentSentence.mk (mkRange (mkPosition 1 0) (mkPosition 1 3)) (js "abc"), 0)
    = None
  ∧ length sample_sentences = 3
  ∧ correctTextStream (new_TextProcessor empty_object_client) no_template sample_sentences
    = ([], Thrown)
  ∧ ¬ (∀ (tp : TextProcessor) (tpl : PromptTemplate) (sentences : DocumentSentences),
         0 < maxConcurrency tp →
         (∀ k prompt, ∃ content response,
            create (openai tp) k prompt = Message (Some content)
            ∧ truthy content = true
            ∧ JSON_parse (openai tp) content = Some response) →
         length (fst (correctTextStream tp tpl sentences)) = length sentences).
Proof.
  assert (correctTextStream (new_TextProcessor empty_object_client) no_template
            sample_sentences = ([], Thrown)) as Hrun by (vm_compute; reflexivity).
  split_and!; [by intros k prompt|done|done|done|done|].
  intros H.
  specialize (H (new_TextProcessor empty_object_client) no_template sample_sentences).
  rewrite Hrun in H. simpl in H.
  assert (0 = 3) as Habs; [|discriminate Habs].
  apply H; [lia|].
  intros k prompt. exists empty_object_content, (VObject []).
  split_and!; reflexivity.
Qed.

(** X25. With a positive concurrency limit: every record
    [correctTextStream] yields is, at its index, the record of the task
    of the sentence at that index, with its range and its text; the
    stream is the same whatever the latencies of the requests; no task
    throws when every response has an array under [error]; all the [N]
    records are yielded, and the generator returns, exactly when no task
    throws; and when the first task that throws belongs to batch [b], the
    generator throws after the records of the [b] batches before it. *)
Theorem correctTextStream_in_order (tp : TextProcessor) (tpl : PromptTemplate)
    (sentences : DocumentSentences) :
  0 < maxConcurrency tp →
  (∀ i r, fst (correctTextStream tp tpl sentences) !! i = Some r →
     ∃ s, sentences !! i = Some s
          ∧ correct_sentence tp tpl sentences (s, i) = Some r
          ∧ CorrectionResult.range r = DocumentSentence.range s
          ∧ CorrectionResult.originalSentence r = DocumentSentence.text s)
  ∧ (∀ latency, correctTextStream (with_latency tp latency) tpl sentences
               = correctTextStream tp tpl sentences)
  ∧ ((∀ i s, sentences !! i = Some s →
        has_error_list (response_for tp tpl sentences i s)) →
     no_task_throws tp tpl sentences)
  ∧ (no_task_throws tp tpl sentences
     ↔ length (fst (correctTextStream tp tpl sentences)) = length sentences
       ∧ snd (correctTextStream tp tpl sentences) = Completed)
  ∧ (∀ j s b, sentences !! j = Some s →
       correct_sentence tp tpl sentences (s, j) = None →
       (∀ k s', k < j → sentences !! k = Some s' →
          is_Some (correct_sentence tp tpl sentences (s', k))) →
       maxConcurrency tp * b ≤ j < maxConcurrency tp * b + maxConcurrency tp →
       length (fst (correctTextStream tp tpl sentences)) = maxConcurrency tp * b
       ∧ snd (correctTextStream tp tpl sentences) = Thrown).
Proof.
  intros Hc. split_and!.
  - intros i r Hr. destruct (correctTextStream_emitted _ _ _ _ _ Hr) as (s & Hs & Hrec).
    exists s. split_and!; [done|done|..];
      by destruct (record_of_response_inv _ _ _ _ Hrec) as (? & ? & _).
  - intros latency. apply correct_batches_latency.
  - intros Hall i s Hs. by apply record_of_response_error_list, Hall.
  - by apply correctTextStream_all.
  - intros j s b Hs Hj Hfirst Hb.
    destruct (correctTextStream_throws_at tp tpl sentences j b s Hc Hs Hj Hfirst Hb)
      as [H1 H2].
    split; [|done]. apply (f_equal length) in H1.
    rewrite length_fmap, length_take, length_fmap, length_with_index in H1.
    apply lookup_lt_Some in Hs. lia.
Qed.

Lemma correctTextStream_in_order_witness :
  0 < maxConcurrency (new_TextProcessor flagging_client)
  ∧ length (fst (correctTextStream (new_TextProcessor flagging_client) no_template
                   sample_sentences)) = 3
  ∧ snd (correctTextStream (new_TextProcessor flagging_client) no_template
           sample_sentences) = Completed.
Proof.
  split; [simpl; lia|].
  destruct (correctTextStream_in_order (new_TextProcessor flagging_client)
              no_template sample_sentences) as (_ & _ & Hlist & Hall & _); [simpl; lia|].
  apply Hall, Hlist. intros i s _. exists [VString (js "typo")]. reflexivity.
Defined.



(** C2, as the specification states it, fails: a sentence whose request
    throws is emitted with its own text as the correction, not with the
    empty string. *)
Lemma failed_call_empty_correction_counterexample :
  ¬ (∀ (tp : TextProcessor) (tpl : PromptTemplate) (sentences : DocumentSentences)
       (i : nat) (s : DocumentSentence.t) (r : CorrectionResult.t),
       0 < maxConcurrency tp →
       sentences !! i = Some s →
       service_failed (openai tp) i (prompt_for tpl sentences i s) →
       fst (correctTextStream tp tpl sentences) !! i = Some r →
       CorrectionResult.errors r = VArray []
       ∧ CorrectionResult.correctedSentence r = VString []).
Proof.
  intros H.
  destruct (H (new_TextProcessor failing_client) no_template sample_sentences 0
              (DocumentSentence.mk (mkRange (mkPosition 1 0) (mkPosition 1 3)) (js "abc"))
              (CorrectionResult.mk (mkRange (mkPosition 1 0) (mkPosition 1 3)) (VArray [])
                 (js "abc") (VString (js "abc"))))
    as [_ Hempty].
  - simpl. lia.
  - reflexivity.
  - exact I.
  - vm_compute. reflexivity.
  - discriminate Hempty.
Qed.

(** C2, amended. When the request of a sentence fails, or returns no
    content or content that does not parse, [callOpenAIAPI] resolves to
    the fallback with no errors and an empty correction; the task of the
    sentence does not throw, and its record, once yielded, has no errors
    and the original sentence as its correction. The failed call stops
    nothing: with a positive concurrency limit, when no task of another
    sentence throws, one record per sentence is yielded, the sentence's
    own among them, and the generator returns. *)
Theorem failed_call_degrades (tp : TextProcessor) (tpl : PromptTemplate)
    (sentences : DocumentSentences) (i : nat) (s : DocumentSentence.t) :
  sentences !! i = Some s →
  service_failed (openai tp) i (prompt_for tpl sentences i s) →
  response_for tp tpl sentences i s = fallback_response
  ∧ correct_sentence tp tpl sentences (s, i) = Some (unchanged_record s)
  ∧ (∀ r, fst (correctTextStream tp tpl sentences) !! i = Some r →
        CorrectionResult.errors r = VArray []
        ∧ CorrectionResult.originalSentence r = DocumentSentence.text s
        ∧ CorrectionResult.correctedSentence r = VString (DocumentSentence.text s))
  ∧ (0 < maxConcurrency tp →
     (∀ k s', k ≠ i → sentences !! k = Some s' →
        is_Some (correct_sentence tp tpl sentences (s', k))) →
     length (fst (correctTextStream tp tpl sentences)) = length sentences
     ∧ snd (correctTextStream tp tpl sentences) = Completed
     ∧ fst (correctTextStream tp tpl sentences) !! i = Some (unchanged_record s)).
Proof.
  intros Hs Hfail. pose proof (correct_sentence_failed tp tpl sentences s i Hfail) as Hrec.
  split_and!.
  - by apply callOpenAIAPI_fallback.
  - done.
  - intros r Hr. destruct (correctTextStream_emitted _ _ _ _ _ Hr) as (s' & Hs' & Hrec').
    rewrite Hs in Hs'. injection Hs' as <-. rewrite Hrec in Hrec'.
    by injection Hrec' as <-.
  - intros Hc Hothers.
    assert (no_task_throws tp tpl sentences) as Hall.
    { intros k s' Hs'. destruct (decide (k = i)) as [->|Hne]; [|by apply Hothers].
      rewrite Hs in Hs'. injection Hs' as <-. by rewrite Hrec. }
    destruct (correctTextStream_complete tp tpl sentences Hc Hall) as [H1 H2].
    split_and!; [|done|].
    + apply (f_equal length) in H1. by rewrite !length_fmap, length_with_index in H1.
    + apply (f_equal (fun l => l !! i)) in H1.
      rewrite list_lookup_fmap, outcomes_lookup, Hs in H1. simpl in H1.
      rewrite Hrec in H1.
      destruct (fst (correctTextStream tp tpl sentences) !! i); [|done].
      simpl in H1. by injection H1 as ->.
Qed.

Lemma failed_call_degrades_witness :
  sample_sentences !! 0
  = Some (DocumentSentence.mk (mkRange (mkPosition 1 0) (mkPosition 1 3)) (js "abc"))
  ∧ service_failed (openai (new_TextProcessor failing_client)) 0
      (prompt_for no_template sample_sentences 0
         (DocumentSentence.mk (mkRange (mkPosition 1 0) (mkPosition 1 3)) (js "abc")))
  ∧ correct_sentence (new_TextProcessor failing_client) no_template sample_sentences
      (DocumentSentence.mk (mkRange (mkPosition 1 0) (mkPosition 1 3)) (js "abc"), 0)
    = Some (unchanged_record
              (DocumentSentence.mk (mkRange (mkPosition 1 0) (mkPosition 1 3)) (js "abc")))
  ∧ length (fst (correctTextStream (new_TextProcessor failing_client) no_template
                   sample_sentences)) = 3
  ∧ snd (correctTextStream (new_TextProcessor failing_client) no_template
           sample_sentences) = Completed.
Proof.
  split; [reflexivity|]. split; [exact I|].
  destruct (failed_call_degrades (new_TextProcessor failing_client) no_template
              sample_sentences 0 _ eq_refl I) as (_ & Hrec & _ & Hall).
  split; [exact Hrec|].
  destruct Hall as (Hlen & Hend & _); [simpl; lia| |by split].
  intros k s' _ _. eexists. reflexivity.
Defined.

(** ** Locating a sentence *)

Lemma remove_ws_all_space (sentence : jsstring) :
  (∀ c, c ∈ sentence → is_space c = true) → remove_ws sentence = [].
Proof.
  induction sentence as [|c sentence IH]; intros Hall; simpl; [done|].
  rewrite (Hall c) by (by left). simpl. apply IH. intros c' Hc'. apply Hall. by right.
Qed.

(** Against an empty [cleanSentence] no character matches: the column
    loop always falls off the line. *)
Lemma scan_line_empty (currentLine : nat) (rest : jsstring) :
  ∀ currentColumn matchCount matchStartPosition,
  ∃ st, scan_line [] currentLine rest currentColumn matchCount matchStartPosition = inr st.
Proof.
  induction rest as [|c rest IH]; intros col mc ms; simpl; [by eexists|].
  destruct (is_space c); apply IH.
Qed.

Lemma scan_lines_empty (remaining : list jsstring) :
  ∀ currentLine currentColumn matchCount matchStartPosition,
  scan_lines [] remaining currentLine currentColumn matchCount matchStartPosition = Failure.
Proof.
  induction remaining as [|line more IH]; intros L col mc ms; simpl; [done|].
  destruct (scan_line_empty L (drop col line) col mc ms) as [[mc' ms'] ->]. apply IH.
Qed.

(** C9. A sentence of whitespace characters only, the empty sentence
    included, is never located: [findEndPosition] returns the failure
    for every document and every start position. *)
Theorem findEndPosition_blank_sentence (sentence originalText : jsstring)
    (startPosition : Position) :
  (∀ c, c ∈ sentence → is_space c = true) →
  findEndPosition sentence originalText startPosition = Failure.
Proof.
  intros Hall. unfold findEndPosition.
  rewrite (remove_ws_all_space sentence Hall). apply scan_lines_empty.
Qed.

Lemma findEndPosition_blank_sentence_witness :
  (∀ c, c ∈ js " " → is_space c = true)
  ∧ findEndPosition (js " ") (js "a b") (mkPosition 0 0) = Failure.
Proof.
  assert (∀ c, c ∈ js " " → is_space c = true) as Hall.
  { intros c Hc. apply list_elem_of_singleton in Hc. subst c. reflexivity. }
  split; [exact Hall|].
  exact (findEndPosition_blank_sentence (js " ") (js "a b") (mkPosition 0 0) Hall).
Defined.

(** ** Order of the located ranges *)

Lemma pos_le_refl (p : Position) : pos_le p p.
Proof. unfold pos_le. lia. Qed.

Lemma pos_le_trans (p q r : Position) : pos_le p q → pos_le q r → pos_le p r.
Proof. unfold pos_le. lia. Qed.

Lemma pos_lt_le (p q : Position) : pos_lt p q → pos_le p q.
Proof. unfold pos_lt, pos_le. lia. Qed.

(** One iteration of the column loop. *)
Lemma scan_line_cons (cleanSentence : jsstring) (currentLine : nat) (c : char)
    (rest : jsstring) (col mc : nat) (ms : option Position) :
  scan_line cleanSentence currentLine (c :: rest) col mc ms
  = if is_space c then scan_line cleanSentence currentLine rest (S col) mc ms
    else if bool_decide (cleanSentence !! mc = Some c) then
      if S mc =? length cleanSentence then
        inl (Success (default (mkPosition currentLine col)
                        (if mc =? 0 then Some (mkPosition currentLine col) else ms))
                     (mkPosition currentLine (col + 1)))
      else scan_line cleanSentence currentLine rest (S col) (S mc)
             (if mc =? 0 then Some (mkPosition currentLine col) else ms)
    else scan_line cleanSentence currentLine rest (S col) 0 None.
Proof. reflexivity. Qed.

Lemma scan_line_bounds (cleanSentence : jsstring) (lo : Position) (currentLine : nat)
    (rest : jsstring) :
  ∀ currentColumn matchCount matchStartPosition,
  pos_le lo (mkPosition currentLine currentColumn) →
  start_between lo (mkPosition currentLine currentColumn) matchStartPosition →
  match scan_line cleanSentence currentLine rest currentColumn matchCount matchStartPosition with
  | inl (Success startPosition endPosition) =>
      pos_le lo startPosition ∧ pos_lt startPosition endPosition
  | inl Failure => False
  | inr (_, matchStartPosition') =>
      start_between lo (mkPosition (S currentLine) 0) matchStartPosition'
  end.
Proof.
  induction rest as [|c rest IH]; intros col mc ms Hlo Hms.
  - simpl. intros p Hp. destruct (Hms p Hp) as [H1 H2]. split; [done|].
    revert H2. unfold pos_lt. simpl. lia.
  - rewrite scan_line_cons.
    assert (pos_le lo (mkPosition currentLine (S col))) as Hlo'.
    { revert Hlo. unfold pos_le. simpl. lia. }
    assert (∀ ms', start_between lo (mkPosition currentLine col) ms' →
                   start_between lo (mkPosition currentLine (S col)) ms') as Hstep.
    { intros ms' H p Hp. destruct (H p Hp) as [H1 H2]. split; [done|].
      revert H2. unfold pos_lt. simpl. lia. }
    assert (start_between lo (mkPosition currentLine (S col))
              (Some (mkPosition currentLine col))) as Hhere.
    { intros p [= <-]. split; [done|]. unfold pos_lt. simpl. lia. }
    destruct (is_space c); [by apply IH; auto|].
    case_bool_decide; [|by apply IH].
    destruct (S mc =? length cleanSentence).
    + destruct (mc =? 0); simpl.
      * split; [done|]. unfold pos_lt. simpl. lia.
      * destruct ms as [p|]; simpl.
        -- destruct (Hms p eq_refl) as [H1 H2]. split; [done|].
           revert H2. unfold pos_lt. simpl. lia.
        -- split; [done|]. unfold pos_lt. simpl. lia.
    + apply IH; [done|]. destruct (mc =? 0); auto.
Qed.

Lemma scan_lines_bounds (cleanSentence : jsstring) (lo : Position)
    (remaining : list jsstring) :
  ∀ currentLine currentColumn matchCount matchStartPosition startPosition endPosition,
  pos_le lo (mkPosition currentLine currentColumn) →
  start_between lo (mkPosition currentLine currentColumn) matchStartPosition →
  scan_lines cleanSentence remaining currentLine currentColumn matchCount matchStartPosition
  = Success startPosition endPosition →
  pos_le lo startPosition ∧ pos_lt startPosition endPosition.
Proof.
  induction remaining as [|line more IH]; intros L col mc ms a b Hlo Hms; simpl; [done|].
  pose proof (scan_line_bounds cleanSentence lo L (drop col line) col mc ms Hlo Hms) as Hline.
  destruct (scan_line _ _ _ _ _ _) as [[a' b'|]|[mc' ms']].
  - by intros [= <- <-].
  - done.
  - apply IH; [|done]. revert Hlo. unfold pos_le. simpl. lia.
Qed.

(** A located sentence starts at or after the position the search began
    at, and ends after it starts. *)
Lemma findEndPosition_bounds (sentence originalText : jsstring)
    (startPosition a b : Position) :
  findEndPosition sentence originalText startPosition = Success a b →
  pos_le startPosition a ∧ pos_lt a b.
Proof.
  unfold findEndPosition. apply scan_lines_bounds.
  - destruct startPosition. apply pos_le_refl.
  - by intros p.
Qed.

Lemma StronglySorted_lookup {A} (R : relation A) (l : list A) :
  StronglySorted R l →
  ∀ i j a b, i < j → l !! i = Some a → l !! j = Some b → R a b.
Proof.
  induction 1 as [|x l Hl IH Hx]; intros i j a b Hij Ha Hb; [done|].
  destruct j as [|j]; [lia|]. destruct i as [|i]; simpl in *.
  - simplify_eq. by apply (Forall_lookup_1 _ _ _ _ Hx Hb).
  - apply (IH i j); [lia|done..].
Qed.

Lemma calc_step_inv (originalText : jsstring) (st : DocumentSentences * Position)
    (sentence : jsstring) :
  calc_inv st → calc_inv (calc_step originalText st sentence).
Proof.
  intros (Hsorted & Hne & Hcur). unfold calc_step.
  destruct (findEndPosition _ _ _) as [a b|] eqn:Hfind; [|done].
  apply findEndPosition_bounds in Hfind as [Hlo Hab].
  unfold calc_inv. simpl. split_and!.
  - apply StronglySorted_app_2; [|done|repeat constructor].
    intros x y Hx Hy. apply list_elem_of_singleton in Hy as ->.
    unfold range_before. simpl.
    rewrite Forall_forall in Hcur. by apply (pos_le_trans _ (snd st)); [apply Hcur|].
  - apply Forall_app. split; [done|]. by apply Forall_singleton.
  - destruct b as [bl bc]. simpl. apply Forall_app. split.
    + eapply Forall_impl; [exact Hcur|]. simpl. intros x Hx.
      apply (pos_le_trans _ (snd st)); [done|].
      apply (pos_le_trans _ a); [done|]. by apply pos_lt_le.
    + apply Forall_singleton, pos_le_refl.
Qed.

Lemma calc_fold_inv (originalText : jsstring) (sentences : list jsstring) :
  ∀ st, calc_inv st → calc_inv (foldl (calc_step originalText) st sentences).
Proof.
  induction sentences as [|s sentences IH]; intros st Hst; simpl; [done|].
  by apply IH, calc_step_inv.
Qed.

(** C7. The ranges [calculateRanges] produces are in document order and
    do not overlap: a sentence located later starts at or after the end
    of every sentence located before it, and every range ends after it
    starts. The loop seeds each search at the end of the last located
    sentence: a located sentence starts at or after the cursor and moves
    the cursor to its end, and a sentence that is not located changes
    neither the result nor the cursor. *)
Theorem calculateRanges_monotone (sentences : list jsstring) (originalText : jsstring)
    (startLine : nat) :
  (∀ i j a b, i < j →
     calculateRanges sentences originalText startLine !! i = Some a →
     calculateRanges sentences originalText startLine !! j = Some b →
     range_before a b)
  ∧ (∀ a, a ∈ calculateRanges sentences originalText startLine →
       pos_lt (startsAt (DocumentSentence.range a)) (endsAt (DocumentSentence.range a)))
  ∧ (∀ st sentence a b,
       findEndPosition sentence originalText (snd st) = Success a b →
       pos_le (snd st) a
       ∧ calc_step originalText st sentence
         = (fst st ++ [DocumentSentence.mk (mkRange a b) sentence], b))
  ∧ (∀ st sentence,
       findEndPosition sentence originalText (snd st) = Failure →
       calc_step originalText st sentence = st).
Proof.
  destruct (calc_fold_inv originalText sentences ([], mkPosition startLine 0))
    as (Hsorted & Hne & _).
  { unfold calc_inv. simpl. split_and!; constructor. }
  split_and!.
  - by apply StronglySorted_lookup.
  - intros a Ha. by apply (proj1 (Forall_forall _ _) Hne).
  - intros st sentence a b Hfind. unfold calc_step. rewrite Hfind.
    split; [by apply findEndPosition_bounds in Hfind as [? _]|]. by destruct b.
  - intros st sentence Hfind. unfold calc_step. by rewrite Hfind.
Qed.

(** ** The segmentation pipeline on the two-sentence document *)

Lemma splitIntoParagraphs_title_document :
  splitIntoParagraphs title_document = [Paragraph.mk title_document 0].
Proof. vm_compute. reflexivity. Qed.

Lemma calculateRanges_title_document :
  calculateRanges two_sentences title_document 1
  = [DocumentSentence.mk (mkRange (mkPosition 1 0) (mkPosition 1 15)) (js "This is a test.");
     DocumentSentence.mk (mkRange (mkPosition 1 17) (mkPosition 1 38))
       (js "It has two sentences.")].
Proof. vm_compute. reflexivity. Qed.

(** C5. On the document ["# Title\nThis is a test.  It has two sentences."],
    with a segmentation service that answers the two sentences for its
    one paragraph, [processParagraphs] returns exactly two positioned
    sentences, starting at line 1 column 0 and at line 1 column 17. *)
Theorem processParagraphs_title_document (tp : TextProcessor) :
  0 < maxConcurrency tp →
  splitIntoSentences (openai tp) 0 title_document = Some two_sentences →
  processParagraphs tp title_document
  = Some [DocumentSentence.mk (mkRange (mkPosition 1 0) (mkPosition 1 15))
            (js "This is a test.");
          DocumentSentence.mk (mkRange (mkPosition 1 17) (mkPosition 1 38))
            (js "It has two sentences.")].
Proof.
  intros Hc Hseg. unfold processParagraphs.
  rewrite splitIntoParagraphs_title_document.
  change (with_index [Paragraph.mk title_document 0])
    with [(Paragraph.mk title_document 0, 0)].
  change (length [(Paragraph.mk title_document 0, 0)]) with 1.
  unfold segment_batches.
  change (0 <? length [(Paragraph.mk title_document 0, 0)]) with true. cbv iota.
  assert (slice_batch [(Paragraph.mk title_document 0, 0)] 0 (maxConcurrency tp)
          = [(Paragraph.mk title_document 0, 0)]) as ->.
  { unfold slice_batch. destruct (maxConcurrency tp) as [|n]; [lia|].
    simpl. by rewrite take_nil. }
  pose proof calculateRanges_title_document as Hranges.
  set (ranges := calculateRanges two_sentences title_document 1) in *.
  rewrite (promise_all_resolved _ [(ranges, 0)]).
  2: { simpl. by rewrite Hseg. }
  simpl. destruct (Nat.ltb_spec (maxConcurrency tp) 1) as [?|_]; [lia|].
  subst ranges. rewrite Hranges. reflexivity.
Qed.

Lemma processParagraphs_title_document_witness :
  0 < maxConcurrency (new_TextProcessor two_sentence_client)
  ∧ (DocumentSentence.range <$>
       default [] (processParagraphs (new_TextProcessor two_sentence_client) title_document))
    = [mkRange (mkPosition 1 0) (mkPosition 1 15); mkRange (mkPosition 1 17) (mkPosition 1 38)].
Proof.
  split; [simpl; lia|].
  rewrite (processParagraphs_title_document (new_TextProcessor two_sentence_client));
    [reflexivity | simpl; lia | reflexivity].
Defined.

(** ** Paragraph splitting *)

Lemma trim_start_head (s : jsstring) (c : char) (rest : jsstring) :
  trim_start s = c :: rest → is_space c = false.
Proof.
  induction s as [|x s IH]; simpl; [done|].
  destruct (is_space x) eqn:Hx; [done|]. by intros [= <- _].
Qed.

Lemma trim_start_snoc (s : jsstring) (c : char) :
  is_space c = false → ∃ front, trim_start (s ++ [c]) = front ++ [c].
Proof.
  intros Hc. induction s as [|x s IH]; simpl.
  - rewrite Hc. by exists [].
  - destruct (is_space x); [done|]. by exists (x :: s).
Qed.

Lemma trim_end_last (s : jsstring) (c : char) (front : jsstring) :
  trim_end s = front ++ [c] → is_space c = false.
Proof.
  unfold trim_end. intros H.
  apply (f_equal (@rev char)) in H. rewrite rev_involutive, rev_unit in H.
  by apply trim_start_head in H.
Qed.

Lemma trim_end_head (s : jsstring) (c : char) (rest : jsstring) :
  is_space c = false → ∃ rest', trim_end (c :: rest) = c :: rest'.
Proof.
  intros Hc. unfold trim_end. simpl.
  destruct (trim_start_snoc (rev rest) c Hc) as [front ->].
  rewrite rev_unit. by eexists.
Qed.

(** [trim] leaves no whitespace at either end. *)
Lemma trim_ends (s : jsstring) :
  (∀ c rest, trim s = c :: rest → is_space c = false)
  ∧ (∀ c front, trim s = front ++ [c] → is_space c = false).
Proof.
  unfold trim. split.
  - intros c rest H. destruct (trim_start s) as [|x s'] eqn:Hs.
    + by vm_compute in H.
    + pose proof (trim_start_head _ _ _ Hs) as Hx.
      destruct (trim_end_head s' x s' Hx) as [rest' Hr]. rewrite Hr in H.
      by injection H as <- _.
  - intros c front. apply trim_end_last.
Qed.

Lemma buffer_of_snoc (g : list jsstring) (line : jsstring) :
  buffer_of (g ++ [line]) = buffer_of g ++ line ++ [newline].
Proof. unfold buffer_of. rewrite fmap_app, concat_app. simpl. by rewrite app_nil_r. Qed.

Lemma buffer_of_truthy (g : list jsstring) : truthy (buffer_of g) = false → g = [].
Proof. destruct g as [|[|c line] g]; by simpl. Qed.

Lemma split_lines_nonempty (s : jsstring) : split_lines s ≠ [].
Proof.
  induction s as [|c s IH]; simpl; [done|].
  destruct (c =? newline)%N; [done|]. by destruct (split_lines s).
Qed.

(** The loop cuts the lines it has read into closed groups and an open
    one, whose buffer is [currentParagraph]. *)
Lemma split_loop_groups (lines : list jsstring) :
  ∀ i st groups g,
  texts_of_groups (paragraphs st) groups →
  currentParagraph st = buffer_of g →
  ∃ groups' g',
    texts_of_groups (paragraphs (split_loop i lines st)) groups'
    ∧ currentParagraph (split_loop i lines st) = buffer_of g'
    ∧ concat groups' ++ g' = concat groups ++ g ++ lines.
Proof.
  induction lines as [|line lines IH]; intros i st groups g Hps Hcur; simpl.
  - exists groups, g. by rewrite app_nil_r.
  - unfold split_step.
    destruct (startsWith_hash line && truthy (currentParagraph st)); simpl.
    + destruct (IH (S i)
                  (mkSplit (paragraphs st ++
                              [Paragraph.mk (trim (currentParagraph st)) (startLine st)])
                           ([] ++ line ++ [newline]) i)
                  (groups ++ [g]) [line]) as (groups' & g' & H1 & H2 & H3).
      * apply Forall2_app; [done|]. constructor; [|constructor].
        simpl. by rewrite Hcur.
      * simpl. unfold buffer_of. simpl. by rewrite app_nil_r.
      * exists groups', g'. split; [done|]. split; [done|].
        rewrite H3, concat_app. simpl. by rewrite app_nil_r, <- !app_assoc.
    + destruct (IH (S i)
                  (mkSplit (paragraphs st) (currentParagraph st ++ line ++ [newline])
                           (startLine st))
                  groups (g ++ [line])) as (groups' & g' & H1 & H2 & H3).
      * done.
      * simpl. by rewrite buffer_of_snoc, Hcur.
      * exists groups', g'. split; [done|]. split; [done|]. by rewrite H3, <- !app_assoc.
Qed.

(** Without a heading line nothing is closed inside the loop. *)
Lemma split_loop_no_heading (lines : list jsstring) :
  Forall (fun line => startsWith_hash line = false) lines →
  ∀ i st, split_loop i lines st
          = mkSplit (paragraphs st) (currentParagraph st ++ buffer_of lines) (startLine st).
Proof.
  induction 1 as [|line lines Hline _ IH]; intros i st; simpl.
  - unfold buffer_of. simpl. rewrite app_nil_r. by destruct st.
  - rewrite IH. unfold split_step. rewrite Hline. simpl.
    unfold buffer_of. simpl. by rewrite <- !app_assoc.
Qed.

Lemma splitIntoParagraphs_leading_blank :
  splitIntoParagraphs ([newline] ++ js "abc") = [Paragraph.mk (js "abc") 0].
Proof. vm_compute. reflexivity. Qed.

(** C6, as the specification states it, fails: the text of a paragraph
    is not its buffer with only the trailing whitespace removed. The
    document ["\nabc"] gives the one paragraph ["abc"], without the
    leading blank line. *)
Lemma paragraph_text_trailing_trim_counterexample :
  ¬ (∀ text : jsstring,
       ∃ groups, concat groups = split_lines text
         ∧ Forall2 (fun p g => Paragraph.text p = trim_end (buffer_of g))
                   (splitIntoParagraphs text) groups).
Proof.
  intros H. destruct (H ([newline] ++ js "abc")) as (groups & Hcat & Htexts).
  rewrite splitIntoParagraphs_leading_blank in Htexts.
  apply Forall2_cons_inv_l in Htexts as (g & rest & Hg & Hrest & ->).
  apply Forall2_nil_inv_l in Hrest as ->.
  simpl in Hcat. rewrite app_nil_r in Hcat. subst g.
  vm_compute in Hg. discriminate Hg.
Qed.

(** C6, amended. The text of every emitted paragraph is the buffer of
    its lines with the whitespace at both ends removed, as [trim] does:
    the lines of the document are cut into consecutive groups, one per
    paragraph, and no paragraph text begins or ends with a whitespace
    character. A document without heading lines gives the single
    paragraph of all its lines, trimmed at both ends and starting at
    line 0, so leading blank lines are not kept. *)
Theorem paragraph_text_trimmed (text : jsstring) :
  (∃ groups, concat groups = split_lines text
     ∧ Forall2 (fun p g => Paragraph.text p = trim (buffer_of g))
               (splitIntoParagraphs text) groups)
  ∧ (∀ p, p ∈ splitIntoParagraphs text →
       (∀ c rest, Paragraph.text p = c :: rest → is_space c = false)
       ∧ (∀ c front, Paragraph.text p = front ++ [c] → is_space c = false))
  ∧ (Forall (fun line => startsWith_hash line = false) (split_lines text) →
     splitIntoParagraphs text
     = [Paragraph.mk (trim (buffer_of (split_lines text))) 0]).
Proof.
  assert (∃ groups, concat groups = split_lines text
            ∧ texts_of_groups (splitIntoParagraphs text) groups) as Hgroups.
  { unfold splitIntoParagraphs.
    destruct (split_loop_groups (split_lines text) 0 (mkSplit [] [] 0) [] [])
      as (groups & g & H1 & H2 & H3); [constructor|done|].
    simpl in H3. destruct (truthy _) eqn:Ht.
    - exists (groups ++ [g]). split.
      + rewrite concat_app. simpl. by rewrite app_nil_r.
      + apply Forall2_app; [done|]. constructor; [|constructor].
        simpl. by rewrite H2.
    - exists groups. split; [|done].
      rewrite H2 in Ht. apply buffer_of_truthy in Ht. subst g.
      by rewrite app_nil_r in H3. }
  split_and!.
  - exact Hgroups.
  - destruct Hgroups as (groups & _ & Htexts). intros p Hp.
    apply list_elem_of_lookup in Hp as [i Hi].
    destruct (Forall2_lookup_l _ _ _ _ _ Htexts Hi) as (g & _ & ->).
    apply trim_ends.
  - intros Hno. unfold splitIntoParagraphs.
    rewrite (split_loop_no_heading _ Hno). simpl.
    destruct (truthy (buffer_of (split_lines text))) eqn:Hb; [done|].
    apply buffer_of_truthy in Hb. by apply split_lines_nonempty in Hb.
Qed.

(** ** What a located range covers *)

Lemma buffer_of_cons (line : jsstring) (more : list jsstring) :
  buffer_of (line :: more) = (line ++ [newline]) ++ buffer_of more.
Proof. reflexivity. Qed.

Lemma buffer_of_split_lines (s : jsstring) : buffer_of (split_lines s) = s ++ [newline].
Proof.
  induction s as [|c s IH]; [done|].
  change (split_lines (c :: s))
    with (if (c =? newline)%N then [] :: split_lines s
          else match split_lines s with
               | line :: more => (c :: line) :: more
               | [] => [[c]]
               end).
  destruct (N.eqb_spec c newline) as [->|_].
  - rewrite buffer_of_cons, IH. done.
  - pose proof (split_lines_nonempty s) as Hne.
    destruct (split_lines s) as [|line more]; [done|].
    rewrite buffer_of_cons in *. simpl. f_equal. exact IH.
Qed.

Lemma remove_ws_app (s t : jsstring) : remove_ws (s ++ t) = remove_ws s ++ remove_ws t.
Proof. apply List.filter_app. Qed.

Lemma stretch_empty (s : jsstring) (o : nat) : stretch s o o = [].
Proof. unfold stretch. by rewrite Nat.sub_diag. Qed.

Lemma stretch_snoc (s : jsstring) (from to : nat) (c : char) :
  from ≤ to → s !! to = Some c → stretch s from (S to) = stretch s from to ++ [c].
Proof.
  intros Hle Hc. unfold stretch.
  replace (S to - from) with (S (to - from)) by lia.
  apply take_S_r. rewrite lookup_drop. by replace (from + (to - from)) with to by lia.
Qed.

Lemma lookup_of_drop (s : jsstring) (o : nat) (c : char) (rest : jsstring) :
  drop o s = c :: rest → s !! o = Some c ∧ drop (S o) s = rest.
Proof.
  intros H. assert (s !! o = Some c) as Hc.
  { pose proof (lookup_drop s o 0) as Hl. rewrite H, Nat.add_0_r in Hl. by simpl in Hl. }
  split; [done|]. rewrite (drop_S _ _ _ Hc) in H. by injection H.
Qed.

(** The document from a position on: the rest of its line, the newline
    and the lines below. *)
Lemma drop_offset (lines : list jsstring) (L col : nat) (line : jsstring) :
  lines !! L = Some line → col ≤ length line →
  drop (offset_of lines (mkPosition L col)) (buffer_of lines)
  = drop col line ++ [newline] ++ buffer_of (drop (S L) lines).
Proof.
  intros Hline Hcol. unfold offset_of. simpl.
  rewrite <- (take_drop_middle lines L line Hline) at 2.
  unfold buffer_of. rewrite fmap_app, concat_app. simpl.
  rewrite <- drop_drop, drop_app_length, <- !app_assoc.
  by rewrite drop_app_le.
Qed.

Lemma offset_next_line (lines : list jsstring) (L : nat) (line : jsstring) :
  lines !! L = Some line →
  offset_of lines (mkPosition (S L) 0) = S (offset_of lines (mkPosition L (length line))).
Proof.
  intros Hline. unfold offset_of. simpl.
  rewrite (take_S_r _ _ _ Hline), buffer_of_snoc, !length_app. simpl. lia.
Qed.

Section Soundness.
Variables (lines : list jsstring) (D cleanSentence : jsstring).

Local Abbreviation match_so_far := (match_so_far lines D cleanSentence).

Lemma match_so_far_space (o mc : nat) (ms : option Position) (c : char) :
  D !! o = Some c → is_space c = true →
  match_so_far o mc ms → match_so_far (S o) mc ms.
Proof.
  intros Hc Hsp Hinv Hmc. destruct (Hinv Hmc) as (p & -> & Hle & Hp).
  exists p. split; [done|]. split; [lia|].
  rewrite (stretch_snoc _ _ _ c) by done. rewrite remove_ws_app, Hp. simpl.
  by rewrite Hsp, app_nil_r.
Qed.

Lemma match_so_far_char (L col mc : nat) (ms : option Position) (c : char) :
  D !! offset_of lines (mkPosition L col) = Some c → is_space c = false →
  cleanSentence !! mc = Some c →
  match_so_far (offset_of lines (mkPosition L col)) mc ms →
  match_so_far (S (offset_of lines (mkPosition L col))) (S mc)
    (if mc =? 0 then Some (mkPosition L col) else ms).
Proof.
  intros Hc Hsp Hclean Hinv _. destruct mc as [|mc]; simpl.
  - exists (mkPosition L col). split; [done|]. split; [lia|].
    rewrite (stretch_snoc _ _ _ c), stretch_empty by done. simpl. rewrite Hsp. simpl.
    by rewrite (take_S_r _ _ _ Hclean).
  - destruct Hinv as (p & -> & Hle & Hp); [lia|].
    exists p. split; [done|]. split; [lia|].
    rewrite (stretch_snoc _ _ _ c) by done. rewrite remove_ws_app, Hp. simpl.
    rewrite Hsp. simpl. by rewrite <- (take_S_r _ _ _ Hclean).
Qed.

Lemma scan_line_sound (L : nat) (rest : jsstring) :
  ∀ col mc ms tail,
  drop (offset_of lines (mkPosition L col)) D = rest ++ tail →
  match_so_far (offset_of lines (mkPosition L col)) mc ms →
  match scan_line cleanSentence L rest col mc ms with
  | inl (Success a b) =>
      remove_ws (stretch D (offset_of lines a) (offset_of lines b)) = cleanSentence
  | inl Failure => False
  | inr (mc', ms') =>
      match_so_far (offset_of lines (mkPosition L col) + length rest) mc' ms'
  end.
Proof.
  induction rest as [|c rest IH]; intros col mc ms tail Hdrop Hinv.
  - simpl. by rewrite Nat.add_0_r.
  - rewrite scan_line_cons. simpl in Hdrop.
    apply lookup_of_drop in Hdrop as [Hc Hdrop].
    assert (offset_of lines (mkPosition L (S col)) = S (offset_of lines (mkPosition L col)))
      as Hnext by (unfold offset_of; simpl; lia).
    assert (∀ mc' ms',
              match_so_far (S (offset_of lines (mkPosition L col))) mc' ms' →
              match scan_line cleanSentence L rest (S col) mc' ms' with
              | inl (Success a b) =>
                  remove_ws (stretch D (offset_of lines a) (offset_of lines b)) = cleanSentence
              | inl Failure => False
              | inr (mc'', ms'') =>
                  match_so_far (offset_of lines (mkPosition L col) + length (c :: rest)) mc'' ms''
              end) as Hrest.
    { intros mc' ms' Hinv'. specialize (IH (S col) mc' ms' tail).
      rewrite Hnext in IH. specialize (IH Hdrop Hinv').
      destruct (scan_line _ _ _ _ _ _) as [[a b|]|[mc'' ms'']]; [done..|].
      simpl. by rewrite Nat.add_succ_r. }
    destruct (is_space c) eqn:Hsp.
    { by apply Hrest, (match_so_far_space _ _ _ c). }
    case_bool_decide as Hclean; [|by apply Hrest; intros ?; lia].
    pose proof (match_so_far_char L col mc ms c Hc Hsp Hclean Hinv) as Hinv'.
    destruct (Nat.eqb_spec (S mc) (length cleanSentence)) as [Hlen|_]; [|by apply Hrest].
    destruct Hinv' as (p & -> & _ & Hp); [lia|]. simpl.
    replace (offset_of lines (mkPosition L (col + 1)))
      with (S (offset_of lines (mkPosition L col))) by (unfold offset_of; simpl; lia).
    rewrite Hp, Hlen. apply firstn_all.
Qed.

Lemma scan_lines_sound (remaining : list jsstring) :
  D = buffer_of lines →
  ∀ L col mc ms a b,
  remaining = drop L lines →
  (∀ line, lines !! L = Some line → length line < col → mc = 0) →
  match_so_far (offset_of lines (mkPosition L col)) mc ms →
  scan_lines cleanSentence remaining L col mc ms = Success a b →
  remove_ws (stretch D (offset_of lines a) (offset_of lines b)) = cleanSentence.
Proof.
  intros HD. induction remaining as [|line more IH]; intros L col mc ms a b Hrem Hcol Hinv;
    simpl; [done|].
  assert (lines !! L = Some line) as Hline.
  { rewrite <- (Nat.add_0_r L), <- lookup_drop, <- Hrem. done. }
  assert (more = drop (S L) lines) as Hmore.
  { rewrite (drop_S _ _ _ Hline) in Hrem. by injection Hrem. }
  destruct (Nat.le_gt_cases col (length line)) as [Hle|Hgt].
  - pose proof (scan_line_sound L (drop col line) col mc ms
                  ([newline] ++ buffer_of (drop (S L) lines))) as Hscan.
    rewrite HD in Hscan at 1. specialize (Hscan (drop_offset _ _ _ _ Hline Hle) Hinv).
    destruct (scan_line _ _ _ _ _ _) as [[a' b'|]|[mc' ms']]; [by intros [= <- <-]|done|].
    apply IH; [done|intros; lia|].
    rewrite (offset_next_line _ _ _ Hline).
    assert (offset_of lines (mkPosition L (length line))
            = offset_of lines (mkPosition L col) + length (drop col line)) as Hend.
    { unfold offset_of. simpl. rewrite length_drop. lia. }
    rewrite Hend. apply (match_so_far_space _ _ _ newline); [|done..].
    rewrite <- Hend, HD.
    pose proof (drop_offset _ _ _ _ Hline (Nat.le_refl _)) as Hd.
    rewrite drop_all in Hd. by apply lookup_of_drop in Hd as [? _].
  - rewrite drop_ge by lia. simpl.
    apply IH; [done|intros; lia|]. intros Hmc. specialize (Hcol line Hline Hgt). lia.
Qed.

End Soundness.

Lemma remove_ws_stretch_newline (s : jsstring) (from to : nat) :
  remove_ws (stretch (s ++ [newline]) from to) = remove_ws (stretch s from to).
Proof.
  unfold stretch. rewrite drop_app, take_app, remove_ws_app.
  assert (∀ n m, remove_ws (take n (drop m [newline])) = []) as ->; [|by rewrite app_nil_r].
  intros n [|m]; simpl; rewrite ?drop_nil, ?take_nil; [|done].
  destruct n; simpl; by rewrite ?take_nil.
Qed.

(** A range [findEndPosition] returns starts at or after the start
    position, ends after it starts, and covers a stretch of the document
    that, whitespace aside, is the sentence. *)
Lemma findEndPosition_sound (sentence originalText : jsstring) (startPosition a b : Position) :
  findEndPosition sentence originalText startPosition = Success a b →
  pos_le startPosition a ∧ pos_lt a b
  ∧ remove_ws (range_content originalText (mkRange a b)) = remove_ws sentence.
Proof.
  intros Hfind. destruct (findEndPosition_bounds _ _ _ _ _ Hfind) as [H1 H2].
  split; [done|]. split; [done|].
  unfold range_content. simpl. rewrite <- remove_ws_stretch_newline.
  rewrite <- buffer_of_split_lines.
  apply (scan_lines_sound (split_lines originalText) _ _ _ eq_refl
           (lineIndex startPosition) (columnIndex startPosition) 0 None a b eq_refl);
    [done| |exact Hfind].
  intros Hmc. lia.
Qed.

(** ** A sentence the search misses *)

(** C1. The sentence ["ab"] occurs in the document ["aab"], at column 1,
    and [findEndPosition] started at line 0, column 0 does not find it:
    the first [a] is taken as the start of a match, the second [a]
    breaks it and is not tried as a start itself. Started at column 1
    the same search finds the sentence, at columns 1 to 3. *)
Theorem findEndPosition_misses_match :
  ws_substring_from (js "ab") (js "aab") (mkPosition 0 0)
  ∧ findEndPosition (js "ab") (js "aab") (mkPosition 0 0) = Failure
  ∧ findEndPosition (js "ab") (js "aab") (mkPosition 0 1)
    = Success (mkPosition 0 1) (mkPosition 0 3).
Proof.
  split; [|split; reflexivity].
  exists (js "a"), (js "ab"), []. split_and!; [reflexivity|vm_compute; lia|reflexivity].
Qed.

(** * Further properties *)

(** ** The diff of special inputs *)

Section DiffMore.
Import Diff.

(** Merging parts of one type into the pending run of that type. *)
Lemma merge_fold_uniform (t : DiffType) (s : jsstring) :
  ∀ merged v,
  foldl merge_step (merged, Some (mkPart t v)) (parts_of t s)
  = (merged, Some (mkPart t (v ++ s))).
Proof.
  induction s as [|c s IH]; intros merged v; simpl.
  - by rewrite app_nil_r.
  - unfold merge_step at 2. simpl. rewrite bool_decide_eq_false_2 by (by intros []).
    rewrite IH. by rewrite <- app_assoc.
Qed.

Lemma mergeDiff_uniform (t : DiffType) (s : jsstring) :
  mergeDiff (parts_of t s) = one_run t s.
Proof.
  destruct s as [|c s]; [done|].
  rewrite mergeDiff_flush.
  change (foldl merge_step ([], None) (parts_of t (c :: s)))
    with (foldl merge_step ([], Some (mkPart t [c])) (parts_of t s)).
  by rewrite (merge_fold_uniform t s [] [c]).
Qed.

Lemma parts_of_snoc (t : DiffType) (s : jsstring) (k : nat) :
  k < length s →
  parts_of t (take k s) ++ [mkPart t (char_at s k)] = parts_of t (take (S k) s).
Proof.
  intros Hk. rewrite <- (char_at_take s k Hk). unfold parts_of, char_at.
  destruct (s !! k) as [c|] eqn:Hc.
  - by rewrite fmap_app.
  - apply lookup_ge_None in Hc. lia.
Qed.

(** On equal texts the loop takes the [equal] branch all the way. *)
Lemma backtrack_same (s : jsstring) (dp : list (list nat)) (fuel : nat) :
  ∀ i diff, i ≤ length s → i ≤ fuel →
  backtrack fuel s s dp i i diff = Some (parts_of DEqual (take i s) ++ diff).
Proof.
  induction fuel as [|fuel IH]; intros i diff Hi Hf.
  - assert (i = 0) as -> by lia. done.
  - destruct i as [|i]; [done|]. simpl.
    unfold same_char. rewrite bool_decide_eq_true_2 by done. simpl.
    rewrite Nat.sub_0_r, IH by lia.
    by rewrite <- (parts_of_snoc DEqual s i), <- app_assoc by lia.
Qed.

(** With an empty [text1] it takes the [insert] branch all the way, with
    an empty [text2] the [delete] branch. *)
Lemma backtrack_insert_only (t : jsstring) (dp : list (list nat)) (fuel : nat) :
  ∀ j diff, j ≤ length t → j ≤ fuel →
  backtrack fuel [] t dp 0 j diff = Some (parts_of DInsert (take j t) ++ diff).
Proof.
  induction fuel as [|fuel IH]; intros j diff Hj Hf.
  - assert (j = 0) as -> by lia. done.
  - destruct j as [|j]; [done|]. simpl.
    rewrite Nat.sub_0_r, IH by lia.
    by rewrite <- (parts_of_snoc DInsert t j), <- app_assoc by lia.
Qed.

Lemma backtrack_delete_only (s : jsstring) (dp : list (list nat)) (fuel : nat) :
  ∀ i diff, i ≤ length s → i ≤ fuel →
  backtrack fuel s [] dp i 0 diff = Some (parts_of DDelete (take i s) ++ diff).
Proof.
  induction fuel as [|fuel IH]; intros i diff Hi Hf.
  - assert (i = 0) as -> by lia. done.
  - destruct i as [|i]; [done|]. simpl.
    rewrite Nat.sub_0_r, IH by lia.
    by rewrite <- (parts_of_snoc DDelete s i), <- app_assoc by lia.
Qed.

End DiffMore.

Lemma computeDiff_same_runs (s : jsstring) :
  Diff.computeDiff s s = Some (one_run Diff.DEqual s).
Proof.
  unfold Diff.computeDiff. rewrite backtrack_same by lia. simpl.
  by rewrite app_nil_r, firstn_all, mergeDiff_uniform.
Qed.

(** X1. The diff of a text with itself is the single run [equal] of the
    whole text, and no run at all for the empty text. *)
Theorem computeDiff_same (s : jsstring) :
  Diff.computeDiff s s = Some (one_run Diff.DEqual s).
Proof. apply computeDiff_same_runs. Qed.

(** X2. Against an empty text the diff is one run: the whole of [text2]
    inserted, or the whole of [text1] deleted. *)
Theorem computeDiff_empty_side (s : jsstring) :
  Diff.computeDiff [] s = Some (one_run Diff.DInsert s)
  ∧ Diff.computeDiff s [] = Some (one_run Diff.DDelete s).
Proof.
  unfold Diff.computeDiff. split.
  - rewrite backtrack_insert_only by (simpl; lia). simpl.
    by rewrite app_nil_r, firstn_all, mergeDiff_uniform.
  - rewrite backtrack_delete_only by (simpl; lia). simpl.
    by rewrite app_nil_r, firstn_all, mergeDiff_uniform.
Qed.

(** X3. The hover text of an unchanged sentence is the sentence itself,
    without any markup. *)
Theorem formatDiff_same (s : jsstring) : formatDiff s s = Some s.
Proof.
  unfold formatDiff. rewrite computeDiff_same_runs. by destruct s.
Qed.

(** ** Shape of the run list *)

Section DiffShape.
Import Diff.

Lemma char_at_length (s : jsstring) (k : nat) : k < length s → length (char_at s k) = 1.
Proof.
  intros Hk. unfold char_at. destruct (s !! k) eqn:Hc; [done|].
  apply lookup_ge_None in Hc. lia.
Qed.

(** Every part the reconstruction loop adds holds one character. *)
Lemma backtrack_single_chars (text1 text2 : jsstring) (dp : list (list nat)) (fuel : nat) :
  ∀ i j diff out, i ≤ length text1 → j ≤ length text2 →
  Forall (fun p => length (value p) = 1) diff →
  backtrack fuel text1 text2 dp i j diff = Some out →
  Forall (fun p => length (value p) = 1) out.
Proof.
  induction fuel as [|fuel IH]; intros i j diff out Hi Hj Hdiff; simpl.
  - destruct ((0 <? i) || (0 <? j)); [done|]. by intros [= <-].
  - destruct (Nat.ltb_spec 0 i) as [Ei|Ei]; destruct (Nat.ltb_spec 0 j) as [Ej|Ej]; simpl.
    + destruct (same_char _ _ _ _); [|destruct (_ || _)];
        apply IH; try lia; constructor; try done; simpl; apply char_at_length; lia.
    + apply IH; try lia. constructor; [|done]. simpl. apply char_at_length. lia.
    + assert (i = 0) as -> by lia. simpl.
      apply IH; try lia. constructor; [|done]. simpl. apply char_at_length. lia.
    + by intros [= <-].
Qed.

Lemma merge_step_nonempty (st : list DiffPart * option DiffPart) (part : DiffPart) :
  Forall (fun p => value p ≠ []) (flush st) → value part ≠ [] →
  Forall (fun p => value p ≠ []) (flush (merge_step st part)).
Proof.
  destruct st as [merged [current|]]; unfold merge_step, flush; simpl.
  - intros [Hm Hc]%Forall_app Hp. case_bool_decide; simpl.
    + apply Forall_app. split; [by apply Forall_app|]. by apply Forall_singleton.
    + apply Forall_app. split; [done|]. apply Forall_singleton. simpl.
      apply (proj1 (Forall_singleton _ _)) in Hc.
      intros [? _]%app_eq_nil. done.
  - rewrite app_nil_r. intros Hm Hp. apply Forall_app. split; [done|].
    by apply Forall_singleton.
Qed.

Lemma mergeDiff_nonempty (diff : list DiffPart) :
  Forall (fun p => value p ≠ []) diff → Forall (fun p => value p ≠ []) (mergeDiff diff).
Proof.
  rewrite mergeDiff_flush.
  assert (∀ st, Forall (fun p => value p ≠ []) (flush st) →
                Forall (fun p => value p ≠ []) diff →
                Forall (fun p => value p ≠ []) (flush (foldl merge_step st diff))) as Hfold.
  { induction diff as [|part diff IH]; intros st Hst Hdiff; simpl; [done|].
    apply Forall_cons in Hdiff as [Hp Hdiff]. by apply IH; [apply merge_step_nonempty|]. }
  intros Hdiff. by apply Hfold.
Qed.

(** A list whose neighbours differ goes through the loop unchanged. *)
Lemma merge_fold_alternating (diff : list DiffPart) :
  ∀ merged current, neighbours_differ (current :: diff) →
  flush (foldl merge_step (merged, Some current) diff) = merged ++ current :: diff.
Proof.
  induction diff as [|part diff IH]; intros merged current Hd; [done|].
  destruct Hd as [Hne Hd].
  change (foldl merge_step (merged, Some current) (part :: diff))
    with (foldl merge_step (merge_step (merged, Some current) part) diff).
  unfold merge_step at 2. simpl. rewrite bool_decide_eq_true_2 by done.
  rewrite IH by done. by rewrite <- app_assoc.
Qed.

Lemma mergeDiff_alternating (diff : list DiffPart) :
  neighbours_differ diff → mergeDiff diff = diff.
Proof.
  intros Hd. rewrite mergeDiff_flush. destruct diff as [|part diff]; [done|].
  change (foldl merge_step ([], None) (part :: diff))
    with (foldl merge_step ([], Some part) diff).
  by rewrite merge_fold_alternating.
Qed.

Lemma mergeDiff_neighbours_differ (diff : list DiffPart) :
  neighbours_differ (mergeDiff diff).
Proof.
  rewrite mergeDiff_flush.
  by destruct (merge_fold_inv diff ([], None)) as ([_ Hd] & _); [by split|].
Qed.

End DiffShape.

(** X4. No run of a diff is empty: every run holds at least one
    character. *)
Theorem computeDiff_runs_nonempty (text1 text2 : jsstring) :
  ∃ runs, Diff.computeDiff text1 text2 = Some runs
          ∧ Forall (fun p => Diff.value p ≠ []) runs.
Proof.
  unfold Diff.computeDiff.
  destruct (backtrack_spells text1 text2 (Diff.lcs_table text1 text2)
              (length text1 + length text2) (length text1) (length text2) [])
    as (out & Hout & _); [lia..|].
  rewrite Hout. eexists. split; [done|].
  apply mergeDiff_nonempty.
  eapply Forall_impl; [by eapply backtrack_single_chars; [..|exact Hout]|].
  simpl. intros p Hp Hnil. by rewrite Hnil in Hp.
Qed.

(** X5. [mergeDiff] leaves a run list whose neighbours differ in type as
    it is, so merging twice is merging once. *)
Theorem mergeDiff_idempotent (diff : list Diff.DiffPart) :
  (neighbours_differ diff → Diff.mergeDiff diff = diff)
  ∧ Diff.mergeDiff (Diff.mergeDiff diff) = Diff.mergeDiff diff.
Proof.
  split; [apply mergeDiff_alternating|].
  apply mergeDiff_alternating, mergeDiff_neighbours_differ.
Qed.

(** ** The diff keeps a longest common subsequence *)

Section LcsFacts.
Import Diff.

Lemma is_lcs_len_unique (s t : jsstring) (k1 k2 : nat) :
  is_lcs_len s t k1 → is_lcs_len s t k2 → k1 = k2.
Proof.
  intros [(l1 & H1s & H1t & <-) Hmax1] [(l2 & H2s & H2t & <-) Hmax2].
  apply Nat.le_antisymm; auto.
Qed.

Lemma is_lcs_len_nil_l (t : jsstring) : is_lcs_len [] t 0.
Proof.
  split.
  - exists []. split_and!; [done|apply sublist_nil_l|done].
  - intros l Hl%sublist_nil_r _. by subst l.
Qed.

Lemma is_lcs_len_nil_r (s : jsstring) : is_lcs_len s [] 0.
Proof.
  split.
  - exists []. split_and!; [apply sublist_nil_l|done..].
  - intros l _ Hl%sublist_nil_r. by subst l.
Qed.

Lemma sublist_snoc_inv (l s : jsstring) (a : char) :
  l `sublist_of` s ++ [a] →
  l `sublist_of` s ∨ ∃ l', l = l' ++ [a] ∧ l' `sublist_of` s.
Proof.
  intros (k1 & k2 & -> & H1 & H2)%sublist_app_r.
  apply sublist_cons_r in H2 as [H2|(k' & -> & H2)].
  - apply sublist_nil_r in H2 as ->. left. by rewrite app_nil_r.
  - apply sublist_nil_r in H2 as ->. right. by exists k1.
Qed.

Lemma sublist_snoc_same (l s : jsstring) (a : char) :
  l `sublist_of` s → l ++ [a] `sublist_of` s ++ [a].
Proof. intros H. by apply sublist_app. Qed.

(** The recurrence of the table on prefixes that end in the same
    character. *)
Lemma is_lcs_len_snoc_eq (s t : jsstring) (a : char) (k : nat) :
  is_lcs_len s t k → is_lcs_len (s ++ [a]) (t ++ [a]) (S k).
Proof.
  intros [(l0 & H0s & H0t & <-) Hmax]. split.
  - exists (l0 ++ [a]). split_and!; [by apply sublist_snoc_same..|].
    rewrite length_app. simpl. lia.
  - intros l Hs Ht.
    apply sublist_snoc_inv in Hs as [Hs|(l1 & -> & Hs)].
    + apply sublist_snoc_inv in Ht as [Ht|(l2 & -> & Ht)].
      * specialize (Hmax l Hs Ht). lia.
      * assert (l2 `sublist_of` s) as Hs2.
        { transitivity (l2 ++ [a]); [by apply sublist_inserts_r|done]. }
        specialize (Hmax l2 Hs2 Ht). rewrite length_app. simpl. lia.
    + assert (l1 `sublist_of` t) as Ht1.
      { apply sublist_snoc_inv in Ht as [Ht|(l2 & Heq & Ht)].
        - transitivity (l1 ++ [a]); [by apply sublist_inserts_r|done].
        - by apply app_inj_tail in Heq as [-> _]. }
      specialize (Hmax l1 Hs Ht1). rewrite length_app. simpl. lia.
Qed.

(** The recurrence on prefixes that end in different characters. *)
Lemma is_lcs_len_snoc_ne (s t : jsstring) (a b : char) (k1 k2 : nat) :
  a ≠ b →
  is_lcs_len s (t ++ [b]) k1 → is_lcs_len (s ++ [a]) t k2 →
  is_lcs_len (s ++ [a]) (t ++ [b]) (Nat.max k1 k2).
Proof.
  intros Hab [(l1 & H1s & H1t & <-) Hmax1] [(l2 & H2s & H2t & <-) Hmax2]. split.
  - destruct (Nat.max_spec (length l1) (length l2)) as [[_ ->]|[_ ->]].
    + exists l2. split_and!; [done|by apply sublist_inserts_r|done].
    + exists l1. split_and!; [by apply sublist_inserts_r|done..].
  - intros l Hs Ht.
    apply sublist_snoc_inv in Hs as [Hs|(l' & -> & Hs)].
    + specialize (Hmax1 l Hs Ht). lia.
    + assert (l' ++ [a] `sublist_of` t) as Ht'.
      { apply sublist_snoc_inv in Ht as [Ht|(l'' & Heq & _)]; [done|].
        apply app_inj_tail in Heq as [_ ?]. done. }
      assert (l' ++ [a] `sublist_of` s ++ [a]) as Hs' by by apply sublist_snoc_same.
      specialize (Hmax2 _ Hs' Ht'). lia.
Qed.

(** One cell from its three neighbours, as lines 11-15 compute it. *)
Lemma lcs_step (text1 text2 : jsstring) (i j k11 k10 k01 : nat) :
  1 ≤ i ≤ length text1 → 1 ≤ j ≤ length text2 →
  is_lcs_len (take (i - 1) text1) (take (j - 1) text2) k11 →
  is_lcs_len (take (i - 1) text1) (take j text2) k10 →
  is_lcs_len (take i text1) (take (j - 1) text2) k01 →
  is_lcs_len (take i text1) (take j text2)
    (if same_char text1 (i - 1) text2 (j - 1) then k11 + 1 else Nat.max k10 k01).
Proof.
  intros Hi Hj H11 H10 H01.
  destruct (text1 !! (i - 1)) as [a|] eqn:Ha; [|apply lookup_ge_None in Ha; lia].
  destruct (text2 !! (j - 1)) as [b|] eqn:Hb; [|apply lookup_ge_None in Hb; lia].
  assert (take i text1 = take (i - 1) text1 ++ [a]) as Hti.
  { rewrite <- (take_S_r _ _ _ Ha). f_equal. lia. }
  assert (take j text2 = take (j - 1) text2 ++ [b]) as Htj.
  { rewrite <- (take_S_r _ _ _ Hb). f_equal. lia. }
  unfold same_char. rewrite Ha, Hb. case_bool_decide as Hab.
  - injection Hab as ->. rewrite Hti, Htj, Nat.add_1_r. by apply is_lcs_len_snoc_eq.
  - rewrite Hti, Htj. rewrite Htj in H10. rewrite Hti in H01.
    apply is_lcs_len_snoc_ne; [congruence|done..].
Qed.

End LcsFacts.

Section TableFacts.
Import Diff.
Variables (text1 text2 : jsstring).

Lemma dp_get_set (m n : nat) (dp : list (list nat)) (i j v i' j' : nat) :
  table_shape m n dp → i ≤ m → j ≤ n →
  dp_get (dp_set dp i j v) i' j'
  = if decide (i' = i ∧ j' = j) then v else dp_get dp i' j'.
Proof.
  intros [Hlen Hrows] Hi Hj. unfold dp_get, dp_set.
  destruct (decide (i' = i)) as [->|Hne].
  - rewrite list_lookup_alter_eq.
    destruct (dp !! i) as [row|] eqn:Hrow; [|apply lookup_ge_None in Hrow; lia].
    pose proof (Forall_lookup_1 _ _ _ _ Hrows Hrow) as Hr. simpl in *.
    destruct (decide (j' = j)) as [->|Hnj].
    + rewrite decide_True by done. by rewrite list_lookup_insert_eq by lia.
    + rewrite decide_False by tauto. by rewrite list_lookup_insert_ne.
  - rewrite list_lookup_alter_ne by done. by rewrite decide_False by tauto.
Qed.

Lemma dp_set_shape (m n : nat) (dp : list (list nat)) (i j v : nat) :
  table_shape m n dp → table_shape m n (dp_set dp i j v).
Proof.
  intros [Hlen Hrows]. unfold dp_set. split; [by rewrite length_alter|].
  apply Forall_alter; [done|]. intros row _ Hr. by rewrite length_insert.
Qed.

Lemma fill_cell_set (i j : nat) (dp : list (list nat)) :
  fill_cell text1 text2 i dp j
  = dp_set dp i j (if same_char text1 (i - 1) text2 (j - 1)
                   then dp_get dp (i - 1) (j - 1) + 1
                   else Nat.max (dp_get dp (i - 1) j) (dp_get dp i (j - 1))).
Proof. unfold fill_cell. by destruct (same_char _ _ _ _). Qed.

Lemma fill_cell_filled (i j : nat) (dp : list (list nat)) :
  1 ≤ i ≤ length text1 → 1 ≤ j ≤ length text2 →
  table_filled text1 text2 i j dp →
  table_filled text1 text2 i (S j) (fill_cell text1 text2 i dp j).
Proof.
  intros Hi Hj [Hshape Hcells]. rewrite fill_cell_set.
  split; [by apply dp_set_shape|]. intros i' j' Hi' Hj' Hcond.
  rewrite (dp_get_set _ _ _ _ _ _ _ _ Hshape) by lia.
  case_decide as Hij.
  - destruct Hij as [-> ->]. apply lcs_step; [done..| | |]; apply Hcells; lia.
  - apply Hcells; lia.
Qed.

Lemma fill_cells_filled (i : nat) :
  1 ≤ i ≤ length text1 →
  ∀ k j dp, 1 ≤ j → j + k = length text2 + 1 →
  table_filled text1 text2 i j dp →
  table_filled text1 text2 i (length text2 + 1)
    (foldl (fill_cell text1 text2 i) dp (seq j k)).
Proof.
  intros Hi. induction k as [|k IH]; intros j dp Hj Hjk Hdp; simpl.
  - by replace (length text2 + 1) with j by lia.
  - apply IH; [lia..|]. apply fill_cell_filled; [done|lia|done].
Qed.

Lemma fill_row_filled (i : nat) (dp : list (list nat)) :
  1 ≤ i ≤ length text1 →
  table_filled text1 text2 i 1 dp →
  table_filled text1 text2 (S i) 1 (fill_row text1 text2 (length text2) dp i).
Proof.
  intros Hi Hdp. unfold fill_row.
  destruct (fill_cells_filled i Hi (length text2) 1 dp) as [Hshape Hcells]; [lia..|done|].
  split; [done|]. intros i' j' Hi' Hj' Hcond. apply Hcells; lia.
Qed.

Lemma fill_rows_filled :
  ∀ k i dp, 1 ≤ i → i + k = length text1 + 1 →
  table_filled text1 text2 i 1 dp →
  table_filled text1 text2 (length text1 + 1) 1
    (foldl (fill_row text1 text2 (length text2)) dp (seq i k)).
Proof.
  induction k as [|k IH]; intros i dp Hi Hik Hdp; simpl.
  - by replace (length text1 + 1) with i by lia.
  - apply IH; [lia..|]. apply fill_row_filled; [lia|done].
Qed.

(** Every cell of the finished table is the LCS length of the two
    prefixes it stands for. *)
Lemma lcs_table_correct (i j : nat) :
  i ≤ length text1 → j ≤ length text2 →
  is_lcs_len (take i text1) (take j text2) (dp_get (lcs_table text1 text2) i j).
Proof.
  intros Hi Hj. unfold lcs_table.
  destruct (fill_rows_filled (length text1) 1
              (replicate (length text1 + 1) (replicate (length text2 + 1) 0)))
    as [_ Hcells]; [lia..| |apply Hcells; lia].
  split.
  - split; [by rewrite length_replicate|].
    apply Forall_replicate. by rewrite length_replicate.
  - intros i' j' Hi' Hj' Hcond. unfold dp_get.
    rewrite lookup_replicate_2 by lia. simpl. rewrite lookup_replicate_2 by lia. simpl.
    assert (i' = 0 ∨ j' = 0) as [->| ->] by lia.
    + apply is_lcs_len_nil_l.
    + apply is_lcs_len_nil_r.
Qed.

(** The reconstruction loop keeps as many characters as the cell it
    starts from says. *)
Lemma backtrack_keeps_lcs (fuel : nat) :
  ∀ i j diff, i ≤ length text1 → j ≤ length text2 → i + j ≤ fuel →
  ∃ out, backtrack fuel text1 text2 (lcs_table text1 text2) i j diff = Some out
         ∧ length (equal_text out)
           = dp_get (lcs_table text1 text2) i j + length (equal_text diff).
Proof.
  induction fuel as [|fuel IH]; intros i j diff Hi Hj Hf.
  - assert (i = 0) as -> by lia. assert (j = 0) as -> by lia.
    exists diff. split; [done|].
    by rewrite (is_lcs_len_unique _ _ _ _ (lcs_table_correct 0 0 Hi Hj) (is_lcs_len_nil_l _)).
  - pose proof (lcs_table_correct i j Hi Hj) as Hij. simpl.
    destruct (Nat.ltb_spec 0 i) as [Ei|Ei]; destruct (Nat.ltb_spec 0 j) as [Ej|Ej]; simpl.
    + pose proof (lcs_step text1 text2 i j _ _ _ (conj Ei Hi) (conj Ej Hj)
                    (lcs_table_correct (i - 1) (j - 1) ltac:(lia) ltac:(lia))
                    (lcs_table_correct (i - 1) j ltac:(lia) ltac:(lia))
                    (lcs_table_correct i (j - 1) ltac:(lia) ltac:(lia))) as Hstep.
      pose proof (is_lcs_len_unique _ _ _ _ Hij Hstep) as Hcell.
      destruct (same_char text1 (i - 1) text2 (j - 1)).
      * destruct (IH (i - 1) (j - 1) (mkPart DEqual (char_at text1 (i - 1)) :: diff))
          as (out & -> & Hout); [lia..|].
        exists out. split; [done|]. rewrite Hout, Hcell. simpl.
        rewrite length_app, char_at_length by lia. lia.
      * destruct (Nat.leb_spec (dp_get (lcs_table text1 text2) (i - 1) j)
                    (dp_get (lcs_table text1 text2) i (j - 1))) as [Hle|Hgt].
        -- replace (i =? 0) with false by (symmetry; apply Nat.eqb_neq; lia). simpl.
           destruct (IH i (j - 1) (mkPart DInsert (char_at text2 (j - 1)) :: diff))
             as (out & -> & Hout); [lia..|].
           exists out. split; [done|]. rewrite Hout, Hcell. simpl. lia.
        -- replace (i =? 0) with false by (symmetry; apply Nat.eqb_neq; lia). simpl.
           destruct (IH (i - 1) j (mkPart DDelete (char_at text1 (i - 1)) :: diff))
             as (out & -> & Hout); [lia..|].
           exists out. split; [done|]. rewrite Hout, Hcell. simpl. lia.
    + assert (j = 0) as -> by lia.
      destruct (IH (i - 1) 0 (mkPart DDelete (char_at text1 (i - 1)) :: diff))
        as (out & -> & Hout); [lia..|].
      exists out. split; [done|]. rewrite Hout. simpl.
      rewrite (is_lcs_len_unique _ _ _ _ Hij (is_lcs_len_nil_r _)).
      by rewrite (is_lcs_len_unique _ _ _ _
                    (lcs_table_correct (i - 1) 0 ltac:(lia) ltac:(lia)) (is_lcs_len_nil_r _)).
    + assert (i = 0) as -> by lia. simpl.
      destruct (IH 0 (j - 1) (mkPart DInsert (char_at text2 (j - 1)) :: diff))
        as (out & -> & Hout); [lia..|].
      exists out. split; [done|]. rewrite Hout. simpl.
      rewrite (is_lcs_len_unique _ _ _ _ Hij (is_lcs_len_nil_l _)).
      by rewrite (is_lcs_len_unique _ _ _ _
                    (lcs_table_correct 0 (j - 1) ltac:(lia) ltac:(lia)) (is_lcs_len_nil_l _)).
    + assert (i = 0) as -> by lia. assert (j = 0) as -> by lia.
      exists diff. split; [done|].
      by rewrite (is_lcs_len_unique _ _ _ _ Hij (is_lcs_len_nil_l _)).
Qed.

End TableFacts.

Section KeptText.
Import Diff.

Lemma equal_text_app (l1 l2 : list DiffPart) :
  equal_text (l1 ++ l2) = equal_text l1 ++ equal_text l2.
Proof.
  induction l1 as [|p l1 IH]; simpl; [done|].
  destruct (type p); rewrite IH; by rewrite ?app_assoc.
Qed.

Lemma merge_step_equal_text (st : list DiffPart * option DiffPart) (part : DiffPart) :
  equal_text (flush (merge_step st part)) = equal_text (flush st) ++ equal_text [part].
Proof.
  destruct st as [merged [current|]]; unfold merge_step, flush; simpl.
  - case_bool_decide as Ht; simpl.
    + by rewrite (equal_text_app (_ ++ _) [part]).
    + assert (type current = type part) as Heq
        by (by destruct (decide (type current = type part))).
      rewrite !equal_text_app. simpl. rewrite <- Heq.
      destruct (type current); by rewrite ?app_nil_r, ?app_assoc.
  - by rewrite app_nil_r, equal_text_app.
Qed.

Lemma mergeDiff_equal_text (diff : list DiffPart) :
  equal_text (mergeDiff diff) = equal_text diff.
Proof.
  rewrite mergeDiff_flush.
  assert (∀ st, equal_text (flush (foldl merge_step st diff))
                = equal_text (flush st) ++ equal_text diff) as ->; [|done].
  induction diff as [|part diff IH]; intros st.
  - simpl. by rewrite app_nil_r.
  - change (foldl merge_step st (part :: diff))
      with (foldl merge_step (merge_step st part) diff).
    rewrite IH, merge_step_equal_text, <- app_assoc. by rewrite <- equal_text_app.
Qed.

(** The kept characters are a subsequence of both texts of a run list. *)
Lemma equal_text_sublist (runs : list DiffPart) :
  equal_text runs `sublist_of` old_text runs
  ∧ equal_text runs `sublist_of` new_text runs.
Proof.
  induction runs as [|p runs [IHo IHn]]; simpl; [done|].
  destruct (type p); split;
    by first [apply sublist_app | apply sublist_inserts_l | idtac].
Qed.

End KeptText.

(** X6. The diff is minimal: the characters of its [equal] runs form a
    common subsequence of [text1] and [text2], and no common subsequence
    of the two texts is longer. *)
Theorem computeDiff_keeps_lcs (text1 text2 : jsstring) :
  ∃ runs, Diff.computeDiff text1 text2 = Some runs
    ∧ equal_text runs `sublist_of` text1
    ∧ equal_text runs `sublist_of` text2
    ∧ ∀ l, l `sublist_of` text1 → l `sublist_of` text2 →
           length l ≤ length (equal_text runs).
Proof.
  unfold Diff.computeDiff.
  destruct (backtrack_spells text1 text2 (Diff.lcs_table text1 text2)
              (length text1 + length text2) (length text1) (length text2) [])
    as (out & Hout & Ho & Hn); [lia..|].
  destruct (backtrack_keeps_lcs text1 text2 (length text1 + length text2)
              (length text1) (length text2) []) as (out' & Hout' & Hlen); [lia..|].
  rewrite Hout in Hout'. injection Hout' as <-. rewrite Hout.
  exists (Diff.mergeDiff out). split; [done|].
  destruct (mergeDiff_spec out) as (Ho' & Hn' & _).
  destruct (equal_text_sublist (Diff.mergeDiff out)) as [Hso Hsn].
  rewrite Ho', Ho in Hso. rewrite Hn', Hn in Hsn.
  simpl in Hso, Hsn. rewrite app_nil_r, firstn_all in Hso, Hsn.
  split; [done|]. split; [done|]. intros l Hl1 Hl2.
  rewrite mergeDiff_equal_text, Hlen. simpl. rewrite Nat.add_0_r.
  pose proof (lcs_table_correct text1 text2 (length text1) (length text2)
                (Nat.le_refl _) (Nat.le_refl _)) as [_ Hmax].
  rewrite !firstn_all in Hmax. by apply Hmax.
Qed.

(** ** Where paragraphs start *)

Lemma truthy_snoc (s t : jsstring) (c : char) : truthy (s ++ t ++ [c]) = true.
Proof. by destruct s, t. Qed.

Lemma heading_lines_from_ge (lines : list jsstring) :
  ∀ i, Forall (fun k => i ≤ k) (heading_lines_from i lines)
       ∧ StronglySorted lt (heading_lines_from i lines).
Proof.
  induction lines as [|line lines IH]; intros i; simpl; [by split; constructor|].
  destruct (IH (S i)) as [Hge Hsorted].
  assert (Forall (fun k => i ≤ k) (heading_lines_from (S i) lines)) as Hge'.
  { eapply Forall_impl; [exact Hge|]. simpl. lia. }
  destruct (startsWith_hash line); [|done]. split.
  - constructor; [lia|done].
  - constructor; [done|]. eapply Forall_impl; [exact Hge|]. simpl. lia.
Qed.

(** Once the buffer is not empty, every heading line closes a paragraph
    and starts the next one at its own index. *)
Lemma split_loop_startLines (lines : list jsstring) :
  ∀ i st, truthy (currentParagraph st) = true →
  truthy (currentParagraph (split_loop i lines st)) = true
  ∧ (Paragraph.startLine <$> paragraphs (split_loop i lines st))
      ++ [startLine (split_loop i lines st)]
    = (Paragraph.startLine <$> paragraphs st)
      ++ startLine st :: heading_lines_from i lines.
Proof.
  induction lines as [|line lines IH]; intros i st Hcur; simpl; [done|].
  unfold split_step. rewrite Hcur, andb_true_r.
  destruct (startsWith_hash line); simpl.
  - destruct (IH (S i)
                (mkSplit (paragraphs st ++
                            [Paragraph.mk (trim (currentParagraph st)) (startLine st)])
                         (line ++ [newline]) i)) as [H1 H2]; [apply (truthy_snoc [])|].
    split; [done|]. rewrite H2. simpl. by rewrite fmap_app, <- app_assoc.
  - destruct (IH (S i)
                (mkSplit (paragraphs st) (currentParagraph st ++ line ++ [newline])
                         (startLine st))) as [H1 H2]; [apply truthy_snoc|].
    by split.
Qed.

Lemma splitIntoParagraphs_startLines_eq (text : jsstring) :
  Paragraph.startLine <$> splitIntoParagraphs text
  = 0 :: heading_lines_from 1 (drop 1 (split_lines text)).
Proof.
  unfold splitIntoParagraphs.
  pose proof (split_lines_nonempty text) as Hne.
  destruct (split_lines text) as [|line0 lines]; [done|].
  change (split_loop 0 (line0 :: lines) (mkSplit [] [] 0))
    with (split_loop 1 lines (split_step (mkSplit [] [] 0) 0 line0)).
  assert (split_step (mkSplit [] [] 0) 0 line0 = mkSplit [] (line0 ++ [newline]) 0)
    as -> by (unfold split_step; simpl; by rewrite andb_false_r).
  destruct (split_loop_startLines lines 1 (mkSplit [] (line0 ++ [newline]) 0))
    as [Ht Hs]; [apply (truthy_snoc [])|].
  rewrite Ht, fmap_app. simpl. by rewrite Hs.
Qed.

(** X7. Every document, the empty one included, gives at least one
    paragraph. The first paragraph starts at line 0 and each further one
    at a line, after the first, that begins with the heading marker: the
    start lines are 0 followed by the indices of those lines, in
    increasing order. *)
Theorem splitIntoParagraphs_startLines (text : jsstring) :
  Paragraph.startLine <$> splitIntoParagraphs text
  = 0 :: heading_lines_from 1 (drop 1 (split_lines text))
  ∧ StronglySorted lt (Paragraph.startLine <$> splitIntoParagraphs text).
Proof.
  pose proof (splitIntoParagraphs_startLines_eq text) as Heq.
  split; [done|]. rewrite Heq.
  destruct (heading_lines_from_ge (drop 1 (split_lines text)) 1) as [Hge Hsorted].
  constructor; [done|]. eapply Forall_impl; [exact Hge|]. simpl. lia.
Qed.

Lemma trim_keeps_hash (s : jsstring) :
  startsWith_hash s = true → startsWith_hash (trim s) = true.
Proof.
  destruct s as [|c s]; [done|]. simpl. intros Hc%N.eqb_eq. subst c.
  unfold trim. simpl. by destruct (trim_end_head s hash s eq_refl) as [rest' ->].
Qed.

Lemma startsWith_hash_app (s t : jsstring) :
  startsWith_hash s = true → startsWith_hash (s ++ t) = true.
Proof. by destruct s. Qed.

Lemma split_step_heading_inv (st : SplitState) (i : nat) (line : jsstring) :
  heading_inv st → heading_inv (split_step st i line).
Proof.
  intros [Hps Hcur]. unfold split_step.
  destruct (startsWith_hash line) eqn:Hline; simpl;
    [destruct (truthy (currentParagraph st)) eqn:Ht; simpl|].
  - split; simpl.
    + intros k p Hp. destruct (paragraphs st) as [|p0 ps] eqn:Hst; [by destruct k|].
      apply lookup_app_Some in Hp as [Hp|[_ Hp]]; [by apply (Hps k)|].
      apply list_lookup_singleton_Some in Hp as [_ <-]. simpl.
      apply trim_keeps_hash. by apply Hcur.
    + intros _. by apply startsWith_hash_app.
  - split; simpl; [done|]. intros Hne.
    destruct (currentParagraph st); [|done]. simpl. by apply startsWith_hash_app.
  - split; simpl; [done|]. intros Hne. by apply startsWith_hash_app, Hcur.
Qed.

Lemma split_loop_heading_inv (lines : list jsstring) :
  ∀ i st, heading_inv st → heading_inv (split_loop i lines st).
Proof.
  induction lines as [|line lines IH]; intros i st Hst; simpl; [done|].
  by apply IH, split_step_heading_inv.
Qed.

(** X8. Every paragraph after the first begins with the heading marker:
    the heading line that starts a paragraph is part of its text. *)
Theorem later_paragraphs_start_with_heading (text : jsstring) (k : nat) (p : Paragraph.t) :
  splitIntoParagraphs text !! S k = Some p →
  startsWith_hash (Paragraph.text p) = true.
Proof.
  unfold splitIntoParagraphs.
  destruct (split_loop_heading_inv (split_lines text) 0 (mkSplit [] [] 0)) as [Hps Hcur].
  { split; simpl; [by intros []|done]. }
  destruct (truthy _); [|by apply Hps]. intros Hp.
  destruct (paragraphs _) as [|p0 ps] eqn:Hst; [done|].
  apply lookup_app_Some in Hp as [Hp|[_ Hp]]; [by apply (Hps k)|].
  apply list_lookup_singleton_Some in Hp as [_ <-]. simpl.
  apply trim_keeps_hash. by apply Hcur.
Qed.

Lemma later_paragraphs_start_with_heading_witness :
  splitIntoParagraphs (js "intro" ++ [newline] ++ js "# Title" ++ [newline] ++ js "body") !! 1
  = Some (Paragraph.mk (js "# Title" ++ [newline] ++ js "body") 1)
  ∧ startsWith_hash (js "# Title" ++ [newline] ++ js "body") = true.
Proof.
  assert (splitIntoParagraphs
            (js "intro" ++ [newline] ++ js "# Title" ++ [newline] ++ js "body") !! 1
          = Some (Paragraph.mk (js "# Title" ++ [newline] ++ js "body") 1)) as H
    by (vm_compute; reflexivity).
  split; [exact H|].
  exact (later_paragraphs_start_with_heading _ 0 _ H).
Defined.

(** ** More on located ranges *)

(** X9. A range [findEndPosition] returns covers a stretch of the
    document that is, whitespace aside, the sentence; it starts at or
    after the start position and is not empty. *)
Theorem located_range_spells_sentence (sentence originalText : jsstring)
    (startPosition a b : Position) :
  findEndPosition sentence originalText startPosition = Success a b →
  remove_ws (range_content originalText (mkRange a b)) = remove_ws sentence
  ∧ pos_le startPosition a ∧ pos_lt a b.
Proof.
  intros Hfind. destruct (findEndPosition_sound _ _ _ _ _ Hfind) as (H1 & H2 & H3).
  by split_and!.
Qed.

Lemma located_range_spells_sentence_witness :
  findEndPosition (js "a b") (js "x ab") (mkPosition 0 0)
  = Success (mkPosition 0 2) (mkPosition 0 4)
  ∧ remove_ws (range_content (js "x ab") (mkRange (mkPosition 0 2) (mkPosition 0 4)))
    = remove_ws (js "a b").
Proof.
  assert (findEndPosition (js "a b") (js "x ab") (mkPosition 0 0)
          = Success (mkPosition 0 2) (mkPosition 0 4)) as H by reflexivity.
  split; [exact H|].
  exact (proj1 (located_range_spells_sentence _ _ _ _ _ H)).
Defined.

Section RangeEnds.
Variables (lines : list jsstring) (cleanSentence : jsstring).

Lemma last_lookup_length (s : jsstring) (k : nat) (c : char) :
  s !! k = Some c → S k = length s → last s = Some c.
Proof. intros Hc Hk. rewrite last_lookup. by replace (Init.Nat.pred (length s)) with k by lia. Qed.

Lemma scan_line_ends (L : nat) (line : jsstring) :
  lines !! L = Some line →
  ∀ rest col mc ms, drop col line = rest →
  start_on_char lines cleanSentence mc ms →
  match scan_line cleanSentence L rest col mc ms with
  | inl (Success a b) => on_sentence_ends lines cleanSentence a b
  | inl Failure => False
  | inr (mc', ms') => start_on_char lines cleanSentence mc' ms'
  end.
Proof.
  intros Hline. induction rest as [|c rest IH]; intros col mc ms Hdrop Hinv; [done|].
  rewrite scan_line_cons. apply lookup_of_drop in Hdrop as [Hc Hdrop].
  destruct (is_space c); [by apply IH|].
  case_bool_decide as Hclean.
  2: { apply IH; [done|]. split; [lia|done]. }
  assert (start_on_char lines cleanSentence (S mc)
            (if mc =? 0 then Some (mkPosition L col) else ms)) as Hinv'.
  { destruct Hinv as [Hsome Hstart]. destruct mc as [|mc]; simpl.
    - split; [done|]. intros p [= <-]. exists c. split; [|done].
      unfold char_at_position. simpl. by rewrite Hline.
    - split; [|done]. intros _. apply Hsome. lia. }
  destruct (Nat.eqb_spec (S mc) (length cleanSentence)) as [Hlen|_]; [|by apply IH].
  destruct Hinv' as [Hsome Hstart].
  destruct Hsome as [p Hp]; [lia|]. rewrite Hp. simpl.
  destruct (Hstart p Hp) as (c0 & Hc0 & Hfirst).
  exists c0, c. split_and!; [done|done|simpl; lia| |by eapply last_lookup_length].
  unfold char_at_position. simpl. rewrite Hline. simpl.
  by replace (col + 1 - 1) with col by lia.
Qed.

Lemma scan_lines_ends (remaining : list jsstring) :
  ∀ L col mc ms a b, remaining = drop L lines →
  start_on_char lines cleanSentence mc ms →
  scan_lines cleanSentence remaining L col mc ms = Success a b →
  on_sentence_ends lines cleanSentence a b.
Proof.
  induction remaining as [|line more IH]; intros L col mc ms a b Hrem Hinv; simpl; [done|].
  assert (lines !! L = Some line) as Hline.
  { rewrite <- (Nat.add_0_r L), <- lookup_drop, <- Hrem. done. }
  assert (more = drop (S L) lines) as Hmore.
  { rewrite (drop_S _ _ _ Hline) in Hrem. by injection Hrem. }
  pose proof (scan_line_ends L line Hline (drop col line) col mc ms eq_refl Hinv) as Hscan.
  destruct (scan_line _ _ _ _ _ _) as [[a' b'|]|[mc' ms']];
    [by intros [= <- <-]|done|by apply IH].
Qed.

End RangeEnds.

(** X10. A located range starts on the first character of the sentence
    and ends just after its last one, whitespace aside: the character of
    the document at the start is the first non-whitespace character of
    the sentence, and the character before the end is its last. *)
Theorem located_range_ends (sentence originalText : jsstring)
    (startPosition a b : Position) :
  findEndPosition sentence originalText startPosition = Success a b →
  on_sentence_ends (split_lines originalText) (remove_ws sentence) a b.
Proof.
  unfold findEndPosition. apply scan_lines_ends; [done|].
  split; [lia|done].
Qed.

Lemma located_range_ends_witness :
  findEndPosition (js "a b") (js "x ab") (mkPosition 0 0)
  = Success (mkPosition 0 2) (mkPosition 0 4)
  ∧ on_sentence_ends (split_lines (js "x ab")) (remove_ws (js "a b"))
      (mkPosition 0 2) (mkPosition 0 4).
Proof.
  assert (findEndPosition (js "a b") (js "x ab") (mkPosition 0 0)
          = Success (mkPosition 0 2) (mkPosition 0 4)) as H by reflexivity.
  split; [exact H|].
  exact (located_range_ends _ _ _ _ _ H).
Defined.

(** ** A sentence right at the start position is found *)

(** One iteration of the line loop. *)
Lemma scan_lines_cons (cleanSentence line : jsstring) (more : list jsstring)
    (L col mc : nat) (ms : option Position) :
  scan_lines cleanSentence (line :: more) L col mc ms
  = match scan_line cleanSentence L (drop col line) col mc ms with
    | inl found => found
    | inr (mc', ms') => scan_lines cleanSentence more (S L) 0 mc' ms'
    end.
Proof. reflexivity. Qed.

Section Following.
Variables (cleanSentence more_text : jsstring).

Local Abbreviation ahead := (ahead cleanSentence more_text).

Lemma ahead_space (mc : nat) (c : char) (stream : jsstring) :
  is_space c = true → ahead mc (c :: stream) → ahead mc stream.
Proof.
  intros Hsp [(-> & pre & target & c0 & Heq & Hc0 & Hpre & Htarget)|[Hmc Hrest]].
  - left. split; [done|]. destruct pre as [|x pre]; simpl in Heq.
    + subst target. simpl in Htarget. rewrite Hsp in Htarget. simpl in Htarget.
      exists [], stream, c0. split_and!; [done|done|apply not_elem_of_nil|done].
    + injection Heq as <- ->. exists pre, target, c0. split_and!; [done..| |done].
      intros Hin. apply Hpre. by right.
  - right. split; [done|]. simpl in Hrest. by rewrite Hsp in Hrest.
Qed.

(** A character that is not whitespace either matches, and then ends
    the match or leaves the rest of it ahead, or comes before the
    sentence and leaves the scan idle. *)
Lemma ahead_char (mc : nat) (c : char) (stream : jsstring) :
  is_space c = false → ahead mc (c :: stream) →
  (cleanSentence !! mc = Some c ∧ (S mc = length cleanSentence ∨ ahead (S mc) stream))
  ∨ (mc = 0 ∧ cleanSentence !! 0 ≠ Some c ∧ ahead 0 stream).
Proof.
  intros Hsp Hahead.
  assert (mc < length cleanSentence →
          remove_ws (c :: stream) = drop mc cleanSentence ++ more_text →
          cleanSentence !! mc = Some c
          ∧ (S mc = length cleanSentence ∨ ahead (S mc) stream)) as Hfollow.
  { intros Hmc Hrest. simpl in Hrest. rewrite Hsp in Hrest. simpl in Hrest.
    destruct (cleanSentence !! mc) as [x|] eqn:Hx; [|apply lookup_ge_None in Hx; lia].
    rewrite (drop_S _ _ _ Hx) in Hrest. injection Hrest as -> Hrest.
    split; [done|]. destruct (decide (S mc = length cleanSentence)); [by left|].
    right. right. split; [lia|done]. }
  destruct Hahead as [(-> & pre & target & c0 & Heq & Hc0 & Hpre & Htarget)|[Hmc Hrest]].
  - destruct pre as [|x pre]; simpl in Heq.
    + subst target. left. apply Hfollow; [by apply lookup_lt_Some in Hc0|].
      by rewrite drop_0.
    + injection Heq as <- ->. right. split; [done|]. split.
      * intros Hc. rewrite Hc0 in Hc. injection Hc as ->. apply Hpre. by left.
      * left. split; [done|]. exists pre, target, c0. split_and!; [done..| |done].
        intros Hin. apply Hpre. by right.
  - left. by apply Hfollow.
Qed.

Lemma ahead_nil (mc : nat) : ¬ ahead mc [].
Proof.
  intros [(-> & pre & target & c0 & Heq & Hc0 & _ & Htarget)|[Hmc Hrest]].
  - symmetry in Heq. apply app_eq_nil in Heq as [_ ->]. simpl in Htarget.
    symmetry in Htarget. apply app_eq_nil in Htarget as [Hclean _].
    by rewrite Hclean in Hc0.
  - simpl in Hrest. symmetry in Hrest. apply app_eq_nil in Hrest as [Hd _].
    apply (f_equal length) in Hd. rewrite length_drop in Hd. simpl in Hd. lia.
Qed.

Lemma scan_line_follows (L : nat) (rest : jsstring) :
  ∀ col mc ms after,
  ahead mc (rest ++ after) →
  (∃ a b, scan_line cleanSentence L rest col mc ms = inl (Success a b))
  ∨ (∃ mc' ms', scan_line cleanSentence L rest col mc ms = inr (mc', ms')
                ∧ ahead mc' after).
Proof.
  induction rest as [|c rest IH]; intros col mc ms after Hahead.
  - right. by exists mc, ms.
  - rewrite scan_line_cons. simpl in Hahead.
    destruct (is_space c) eqn:Hsp; [by eapply IH, ahead_space|].
    destruct (ahead_char mc c _ Hsp Hahead) as [[Hc Hnext]|(-> & Hc & Hnext)].
    + rewrite bool_decide_eq_true_2 by done.
      destruct (Nat.eqb_spec (S mc) (length cleanSentence)) as [_|Hne]; [left; eauto|].
      destruct Hnext as [?|Hnext]; [done|]. by apply IH.
    + rewrite bool_decide_eq_false_2 by done. by apply IH.
Qed.

Lemma scan_lines_follows (remaining : list jsstring) :
  ∀ L mc ms, ahead mc (buffer_of remaining) →
  ∃ a b, scan_lines cleanSentence remaining L 0 mc ms = Success a b.
Proof.
  induction remaining as [|line more IH]; intros L mc ms Hahead.
  - by apply ahead_nil in Hahead.
  - rewrite scan_lines_cons, drop_0. rewrite buffer_of_cons, <- app_assoc in Hahead.
    destruct (scan_line_follows L line 0 mc ms _ Hahead)
      as [(a & b & ->)|(mc' & ms' & -> & Hahead')]; [eauto|].
    apply IH. by apply (ahead_space _ newline).
Qed.

End Following.

(** X11. A sentence is found when nothing that could start a match
    stands before it: if the start position lies on a line of the
    document, and the document from there on is a stretch without the
    first character of the sentence followed by text that begins,
    whitespace aside, with the sentence, [findEndPosition] locates a
    range. *)
Theorem findEndPosition_finds_next (sentence originalText : jsstring)
    (startPosition : Position) (line pre target more_text : jsstring) (c0 : char) :
  split_lines originalText !! lineIndex startPosition = Some line →
  columnIndex startPosition ≤ length line →
  drop (offset_of (split_lines originalText) startPosition) originalText = pre ++ target →
  remove_ws sentence !! 0 = Some c0 → c0 ∉ pre →
  remove_ws target = remove_ws sentence ++ more_text →
  ∃ a b, findEndPosition sentence originalText startPosition = Success a b.
Proof.
  intros Hline Hcol Hdoc Hc0 Hpre Htarget. unfold findEndPosition.
  destruct startPosition as [L col]. simpl in *.
  pose proof (drop_offset _ _ _ _ Hline Hcol) as Hstream.
  rewrite buffer_of_split_lines in Hstream.
  assert (ahead (remove_ws sentence) more_text 0
            (drop col line ++ [newline] ++ buffer_of (drop (S L) (split_lines originalText))))
    as Hahead.
  { left. split; [done|]. exists pre, (target ++ [newline]), c0.
    split_and!; [|done..|].
    - assert (offset_of (split_lines originalText) (mkPosition L col)
              < length (originalText ++ [newline])) as Hlt.
      { apply lookup_lt_is_Some. rewrite <- (Nat.add_0_r (offset_of _ _)), <- lookup_drop.
        rewrite Hstream. by destruct (drop col line). }
      rewrite length_app in Hlt. simpl in Hlt.
      rewrite <- Hstream, app_assoc, <- Hdoc, drop_app. f_equal.
      by replace (offset_of (split_lines originalText) (mkPosition L col)
                  - length originalText) with 0 by lia.
    - rewrite remove_ws_app, Htarget. simpl. by rewrite app_nil_r. }
  rewrite (drop_S _ _ _ Hline), scan_lines_cons.
  destruct (scan_line_follows (remove_ws sentence) more_text L (drop col line) col 0 None _
              Hahead) as [(a & b & ->)|(mc' & ms' & -> & Hahead')]; [eauto|].
  apply (scan_lines_follows _ more_text). by apply (ahead_space _ _ _ newline).
Qed.

Lemma findEndPosition_finds_next_witness :
  ∃ a b, findEndPosition (js "b c") (js "a xbc d") (mkPosition 0 1) = Success a b.
Proof.
  apply (findEndPosition_finds_next (js "b c") (js "a xbc d") (mkPosition 0 1)
           (js "a xbc d") (js " x") (js "bc d") (js "d") 98%N).
  - reflexivity.
  - vm_compute. lia.
  - reflexivity.
  - reflexivity.
  - intros Hin. repeat (apply elem_of_cons in Hin as [Hin|Hin]; [discriminate Hin|]).
    by apply elem_of_nil in Hin.
  - reflexivity.
Defined.

(** ** What [calculateRanges] returns *)

Lemma findEndPosition_nonblank (sentence originalText : jsstring)
    (startPosition a b : Position) :
  findEndPosition sentence originalText startPosition = Success a b →
  remove_ws sentence ≠ [].
Proof.
  unfold findEndPosition. intros Hfind Hblank.
  by rewrite Hblank, scan_lines_empty in Hfind.
Qed.

Lemma calc_step_found (originalText : jsstring) (st : DocumentSentences * Position)
    (s : jsstring) (a b : Position) :
  findEndPosition s originalText (snd st) = Success a b →
  calc_step originalText st s
  = (fst st ++ [DocumentSentence.mk (mkRange a b) s],
     mkPosition (lineIndex b) (columnIndex b)).
Proof. intros H. unfold calc_step. by rewrite H. Qed.

Lemma calc_step_missed (originalText : jsstring) (st : DocumentSentences * Position)
    (s : jsstring) :
  findEndPosition s originalText (snd st) = Failure → calc_step originalText st s = st.
Proof. intros H. unfold calc_step. by rewrite H. Qed.

Lemma calc_fold_located (originalText : jsstring) (lo : Position)
    (sentences : list jsstring) :
  ∀ st, pos_le lo (snd st) → Forall (located_in originalText lo) (fst st) →
  pos_le lo (snd (foldl (calc_step originalText) st sentences))
  ∧ Forall (located_in originalText lo) (fst (foldl (calc_step originalText) st sentences))
  ∧ ∃ found, DocumentSentence.text <$> fst (foldl (calc_step originalText) st sentences)
             = (DocumentSentence.text <$> fst st) ++ found
             ∧ found `sublist_of` sentences.
Proof.
  induction sentences as [|s sentences IH]; intros st Hlo Hst.
  - simpl. split_and!; [done..|]. exists []. by rewrite app_nil_r.
  - change (foldl (calc_step originalText) st (s :: sentences))
      with (foldl (calc_step originalText) (calc_step originalText st s) sentences).
    destruct (findEndPosition s originalText (snd st)) as [a b|] eqn:Hfind.
    2: rewrite (calc_step_missed _ _ _ Hfind).
    1: rewrite (calc_step_found _ _ _ _ _ Hfind).
    + destruct (findEndPosition_sound _ _ _ _ _ Hfind) as (Ha & Hab & Hcontent).
      pose proof (findEndPosition_nonblank _ _ _ _ _ Hfind) as Hne.
      destruct (IH (fst st ++ [DocumentSentence.mk (mkRange a b) s],
                    mkPosition (lineIndex b) (columnIndex b)))
        as (H1 & H2 & found & H3 & H4).
      * simpl. destruct b as [bl bc]. simpl.
        apply (pos_le_trans _ (snd st)); [done|].
        apply (pos_le_trans _ a); [done|]. by apply pos_lt_le.
      * simpl. apply Forall_app. split; [done|]. apply Forall_singleton.
        split_and!; [done..|]. simpl. by apply (pos_le_trans _ (snd st)).
      * split_and!; [done..|]. exists (s :: found). split.
        -- etrans; [exact H3|]. simpl. by rewrite fmap_app, <- app_assoc.
        -- by constructor.
    + destruct (IH st Hlo Hst) as (H1 & H2 & found & H3 & H4).
      split_and!; [done..|]. exists found. split; [done|]. by constructor.
Qed.

(** X12. [calculateRanges] keeps the sentences it can locate, in their
    order, and drops the others: the texts it returns are a subsequence
    of the sentences given. Each returned range covers, whitespace aside,
    the text of its sentence, no returned sentence is blank, and every
    range starts at or after column 0 of [startLine]. *)
Theorem calculateRanges_located (sentences : list jsstring) (originalText : jsstring)
    (startLine : nat) :
  (DocumentSentence.text <$> calculateRanges sentences originalText startLine)
    `sublist_of` sentences
  ∧ Forall (located_in originalText (mkPosition startLine 0))
           (calculateRanges sentences originalText startLine).
Proof.
  unfold calculateRanges.
  destruct (calc_fold_located originalText (mkPosition startLine 0) sentences
              ([], mkPosition startLine 0)) as (_ & Hall & found & Hfound & Hsub).
  - apply pos_le_refl.
  - constructor.
  - split; [|done]. by rewrite Hfound.
Qed.

(** ** The segmentation pipeline in general *)


Lemma with_index_lookup {A} (l : list A) (k : nat) (t : A * nat) :
  with_index l !! k = Some t ↔ l !! k = Some (fst t) ∧ snd t = k.
Proof.
  unfold with_index. rewrite list_lookup_imap_Some. split.
  - by intros (x & Hx & ->).
  - intros [Hx <-]. exists (fst t). split; [done|]. by destruct t.
Qed.

Lemma slice_batch_lookup {A} (tasks : list A) (i n j : nat) (t : A) :
  slice_batch tasks i n !! j = Some t → tasks !! (i + j) = Some t.
Proof. unfold slice_batch. rewrite lookup_take_Some, lookup_drop. tauto. Qed.

Section SegmentFacts.
Variables (tp : TextProcessor) (text : jsstring) (tasks : list (Paragraph.t * nat)).

Lemma segment_task_resolved (task : Paragraph.t * nat) :
  segmentation_resolves tp task →
  outcome (segment_task tp text task) = Some (segment_result tp text task).
Proof.
  unfold segmentation_resolves, segment_task, segment_result, paragraph_sentences.
  intros [ss Hss]. simpl. by rewrite Hss.
Qed.

(** With a positive limit and requests that all resolve, the loop
    collects the results of the tasks in the order of the tasks. *)
Lemma segment_batches_resolved (fuel : nat) :
  0 < maxConcurrency tp →
  (∀ k t, tasks !! k = Some t → segmentation_resolves tp t) →
  ∀ i results, length tasks ≤ i + fuel →
  segment_batches fuel tp text tasks i results
  = Some (results ++ (segment_result tp text <$> drop i tasks)).
Proof.
  intros Hc Hall. induction fuel as [|fuel IH]; intros i results Hfuel; simpl;
    destruct (Nat.ltb_spec i (length tasks)) as [Hi|Hi];
    try lia; try (by rewrite drop_ge, app_nil_r).
  rewrite (promise_all_resolved _
             (segment_result tp text <$> slice_batch tasks i (maxConcurrency tp))).
  2: { rewrite <- !list_fmap_compose. apply list_fmap_ext. intros j t Ht. simpl.
       apply segment_task_resolved. by eapply Hall, slice_batch_lookup. }
  simpl. rewrite IH by lia. f_equal. rewrite <- app_assoc. f_equal.
  unfold slice_batch. rewrite <- fmap_app. f_equal.
  rewrite <- drop_drop. apply take_drop.
Qed.

(** A request that rejects, in the batch at hand or in a later one,
    rejects the loop, and so does a limit of 0. *)
Lemma segment_batches_rejected (fuel : nat) (r : nat) (t : Paragraph.t * nat) :
  tasks !! r = Some t →
  splitIntoSentences (openai tp) (snd t) (Paragraph.text (fst t)) = None →
  ∀ i results, i ≤ r → segment_batches fuel tp text tasks i results = None.
Proof.
  intros Ht Hrej. induction fuel as [|fuel IH]; intros i results Hi; simpl;
    pose proof (lookup_lt_Some _ _ _ Ht) as Hr;
    destruct (Nat.ltb_spec i (length tasks)) as [_|?]; try lia; [done|].
  destruct (decide (r < i + maxConcurrency tp)) as [Hin|Hout].
  - rewrite (promise_all_rejected _ (r - i) (segment_task tp text t)); [done| |].
    + rewrite list_lookup_fmap. unfold slice_batch.
      rewrite lookup_take_lt by lia. rewrite lookup_drop.
      replace (i + (r - i)) with r by lia. by rewrite Ht.
    + unfold segment_task. simpl. by rewrite Hrej.
  - destruct (promise_all _) as [batchResults|]; [|done]. simpl. apply IH. lia.
Qed.

Lemma segment_batches_zero (fuel : nat) :
  maxConcurrency tp = 0 → tasks ≠ [] →
  ∀ results, segment_batches fuel tp text tasks 0 results = None.
Proof.
  intros Hzero Hne. induction fuel as [|fuel IH]; intros results; simpl;
    destruct tasks as [|t0 ts] eqn:Htasks; try done.
  rewrite Hzero. unfold slice_batch. simpl.
  change (promise_all (segment_task tp text <$> [])) with (Some (@nil (DocumentSentences * nat))).
  simpl. apply IH.
Qed.

End SegmentFacts.

(** Results that come in the order of their indices are left as they
    are by the sort. *)
Lemma sort_by_index_sorted {A} (f : nat → A → DocumentSentences) (l : list A) :
  ∀ start, sort_by_index (imap (fun k x => (f (start + k) x, start + k)) l)
           = imap (fun k x => (f (start + k) x, start + k)) l.
Proof.
  induction l as [|x l IH]; intros start; [done|].
  rewrite imap_cons. unfold sort_by_index. simpl.
  assert (imap ((fun k x => (f (start + k) x, start + k)) ∘ S) l
          = imap (fun k x => (f (S start + k) x, S start + k)) l) as Hshift.
  { apply imap_ext. intros k y _. simpl. by rewrite !Nat.add_succ_r. }
  rewrite Hshift. fold (sort_by_index (imap (fun k x => (f (S start + k) x, S start + k)) l)).
  rewrite IH. destruct l as [|y l]; [done|].
  rewrite imap_cons. simpl.
  destruct (Nat.leb_spec (start + 0) (S (start + 0))) as [_|?]; [done|lia].
Qed.

Lemma elem_of_concat {A} (x : A) (ls : list (list A)) :
  x ∈ concat ls ↔ ∃ l, l ∈ ls ∧ x ∈ l.
Proof.
  induction ls as [|l ls IH]; simpl.
  - split; [by intros ?%elem_of_nil|by intros (l & ?%elem_of_nil & _)].
  - rewrite elem_of_app, IH. split.
    + intros [Hx|(l' & Hl' & Hx)]; [exists l; split; [by left|done]|].
      exists l'. split; [by right|done].
    + intros (l' & [->|Hl']%elem_of_cons & Hx); [by left|]. right. by exists l'.
Qed.

Lemma processParagraphs_resolved_eq (tp : TextProcessor) (text : jsstring) :
  0 < maxConcurrency tp →
  (∀ k p, splitIntoParagraphs text !! k = Some p →
          is_Some (splitIntoSentences (openai tp) k (Paragraph.text p))) →
  processParagraphs tp text
  = Some (concat (imap (paragraph_sentences tp text) (splitIntoParagraphs text))).
Proof.
  intros Hc Hall. unfold processParagraphs.
  rewrite (segment_batches_resolved tp text _ _ Hc); [| |lia].
  - rewrite drop_0, app_nil_l. unfold with_index. rewrite fmap_imap.
    assert (imap (fun n => segment_result tp text ∘ (fun x => (x, n)))
                 (splitIntoParagraphs text)
            = imap (fun k x => (paragraph_sentences tp text (0 + k) x, 0 + k))
                   (splitIntoParagraphs text)) as -> by (by apply imap_ext).
    pose proof (sort_by_index_sorted (paragraph_sentences tp text)
                  (splitIntoParagraphs text) 0) as Hsort.
    set (res := imap _ (splitIntoParagraphs text)) in *.
    simpl. do 2 f_equal. etrans; [exact (f_equal (fmap fst) Hsort)|].
    subst res. etrans; [apply fmap_imap|]. by apply imap_ext.
  - intros k t [Hp <-]%with_index_lookup. by apply Hall.
Qed.

Lemma processParagraphs_rejected_eq (tp : TextProcessor) (text : jsstring)
    (k : nat) (p : Paragraph.t) :
  splitIntoParagraphs text !! k = Some p →
  splitIntoSentences (openai tp) k (Paragraph.text p) = None →
  processParagraphs tp text = None.
Proof.
  intros Hp Hrej. unfold processParagraphs.
  rewrite (segment_batches_rejected tp text _ _ k (p, k)); [done| |done|lia].
  by apply with_index_lookup.
Qed.

Lemma splitIntoParagraphs_nonempty (text : jsstring) : splitIntoParagraphs text ≠ [].
Proof.
  intros Hnil. pose proof (splitIntoParagraphs_startLines_eq text) as Heq.
  by rewrite Hnil in Heq.
Qed.

(** X13. With a positive concurrency limit and segmentation requests
    that all resolve, [processParagraphs] returns the sentences located
    in the first paragraph, then those of the second, and so on, each
    paragraph searched from the line after its start line. The result
    depends neither on the latencies of the requests nor on the size of
    the batches. *)
Theorem processParagraphs_resolved (tp : TextProcessor) (text : jsstring) :
  0 < maxConcurrency tp →
  (∀ k p, splitIntoParagraphs text !! k = Some p →
          is_Some (splitIntoSentences (openai tp) k (Paragraph.text p))) →
  processParagraphs tp text
  = Some (concat (imap (paragraph_sentences tp text) (splitIntoParagraphs text))).
Proof. apply processParagraphs_resolved_eq. Qed.

Lemma processParagraphs_resolved_witness :
  processParagraphs (new_TextProcessor two_sentence_client) title_document
  = Some (concat (imap (paragraph_sentences (new_TextProcessor two_sentence_client)
                          title_document)
                       (splitIntoParagraphs title_document))).
Proof.
  apply (processParagraphs_resolved (new_TextProcessor two_sentence_client) title_document).
  - simpl. lia.
  - intros k p _. simpl. by eexists.
Defined.

(** X14. A segmentation request that rejects is not caught: if the
    request of any paragraph rejects, [processParagraphs] rejects as a
    whole, whatever the other paragraphs give. *)
Theorem processParagraphs_rejected (tp : TextProcessor) (text : jsstring)
    (k : nat) (p : Paragraph.t) :
  splitIntoParagraphs text !! k = Some p →
  splitIntoSentences (openai tp) k (Paragraph.text p) = None →
  processParagraphs tp text = None.
Proof. apply processParagraphs_rejected_eq. Qed.

Lemma processParagraphs_rejected_witness :
  processParagraphs (new_TextProcessor second_rejects_client) two_paragraph_document = None.
Proof.
  apply (processParagraphs_rejected (new_TextProcessor second_rejects_client)
           two_paragraph_document 1
           (Paragraph.mk (js "# Title" ++ [newline] ++ js "body") 1)).
  - vm_compute. reflexivity.
  - reflexivity.
Defined.

Lemma located_in_weaken (originalText : jsstring) (lo lo' : Position)
    (d : DocumentSentence.t) :
  pos_le lo' lo → located_in originalText lo d → located_in originalText lo' d.
Proof.
  intros Hle (H1 & H2 & H3). split_and!; [done..|]. by apply (pos_le_trans _ lo).
Qed.

Lemma paragraph_sentences_located (tp : TextProcessor) (text : jsstring)
    (k : nat) (p : Paragraph.t) :
  Forall (located_in text (mkPosition 1 0)) (paragraph_sentences tp text k p).
Proof.
  unfold paragraph_sentences, calculateRanges.
  destruct (calc_fold_located text (mkPosition (Paragraph.startLine p + 1) 0)
              (default [] (splitIntoSentences (openai tp) k (Paragraph.text p)))
              ([], mkPosition (Paragraph.startLine p + 1) 0)) as (_ & Hall & _).
  - apply pos_le_refl.
  - constructor.
  - eapply Forall_impl; [exact Hall|]. intros d. apply located_in_weaken.
    unfold pos_le. simpl. lia.
Qed.

Lemma processParagraphs_Some_inv (tp : TextProcessor) (text : jsstring)
    (out : DocumentSentences) :
  processParagraphs tp text = Some out →
  out = concat (imap (paragraph_sentences tp text) (splitIntoParagraphs text)).
Proof.
  intros Hout.
  destruct (decide (maxConcurrency tp = 0)) as [Hzero|Hpos].
  { unfold processParagraphs in Hout.
    rewrite segment_batches_zero in Hout; [done..|].
    unfold with_index. intros Hnil%(f_equal length).
    rewrite length_imap in Hnil. pose proof (splitIntoParagraphs_nonempty text).
    by destruct (splitIntoParagraphs text). }
  destruct (decide (Forall (segmentation_resolves tp)
                           (with_index (splitIntoParagraphs text)))) as [Hall|Hsome].
  - rewrite processParagraphs_resolved_eq in Hout; [by injection Hout|lia|].
    intros k p Hp. rewrite Forall_lookup in Hall.
    apply (Hall k (p, k)). by apply with_index_lookup.
  - apply not_Forall_Exists in Hsome; [|apply _].
    apply Exists_exists in Hsome as ([p k] & Hin & Hrej).
    apply list_elem_of_lookup in Hin as [k' [Hp Hk]%with_index_lookup].
    simpl in *. subst k'.
    rewrite (processParagraphs_rejected_eq tp text k p) in Hout; [done..|].
    unfold segmentation_resolves in Hrej. simpl in Hrej.
    by destruct (splitIntoSentences _ _ _) as [ss|]; [destruct Hrej; eauto|].
Qed.

Lemma processParagraphs_located_all (tp : TextProcessor) (text : jsstring)
    (out : DocumentSentences) :
  processParagraphs tp text = Some out →
  Forall (located_in text (mkPosition 1 0)) out.
Proof.
  intros ->%processParagraphs_Some_inv.
  apply Forall_forall. intros d (l & Hl & Hd)%elem_of_concat.
  apply list_elem_of_lookup in Hl as [k Hk].
  apply list_lookup_imap_Some in Hk as (p & _ & ->).
  by apply (proj1 (Forall_forall _ _) (paragraph_sentences_located tp text k p)).
Qed.

Lemma located_after_first_line (text : jsstring) (d : DocumentSentence.t) :
  located_in text (mkPosition 1 0) d → 1 ≤ lineIndex (startsAt (DocumentSentence.range d)).
Proof. intros (_ & _ & Hle). revert Hle. unfold pos_le. simpl. lia. Qed.

(** X15. Every sentence [processParagraphs] returns is where its range
    says, whitespace aside, and none starts on line 0: each paragraph is
    searched from the line after its start line, so text on the first
    line of the document is never located. *)
Theorem processParagraphs_located (tp : TextProcessor) (text : jsstring)
    (out : DocumentSentences) :
  processParagraphs tp text = Some out →
  Forall (located_in text (mkPosition 1 0)) out
  ∧ ∀ d, d ∈ out → 1 ≤ lineIndex (startsAt (DocumentSentence.range d)).
Proof.
  intros Hall%processParagraphs_located_all. split; [done|]. intros d Hd.
  apply (located_after_first_line text).
  by apply (proj1 (Forall_forall _ _) Hall).
Qed.

Lemma processParagraphs_located_witness :
  processParagraphs (new_TextProcessor two_sentence_client) title_document
  = Some [DocumentSentence.mk (mkRange (mkPosition 1 0) (mkPosition 1 15))
            (js "This is a test.");
          DocumentSentence.mk (mkRange (mkPosition 1 17) (mkPosition 1 38))
            (js "It has two sentences.")]
  ∧ Forall (located_in title_document (mkPosition 1 0))
      [DocumentSentence.mk (mkRange (mkPosition 1 0) (mkPosition 1 15))
         (js "This is a test.");
       DocumentSentence.mk (mkRange (mkPosition 1 17) (mkPosition 1 38))
         (js "It has two sentences.")].
Proof.
  assert (processParagraphs (new_TextProcessor two_sentence_client) title_document
          = Some [DocumentSentence.mk (mkRange (mkPosition 1 0) (mkPosition 1 15))
                    (js "This is a test.");
                  DocumentSentence.mk (mkRange (mkPosition 1 17) (mkPosition 1 38))
                    (js "It has two sentences.")]) as H by (vm_compute; reflexivity).
  split; [exact H|].
  exact (proj1 (processParagraphs_located _ _ _ H)).
Defined.

(** ** The concurrency limit *)

Lemma correct_batches_zero (tp : TextProcessor) (tpl : PromptTemplate)
    (sentences : DocumentSentences) (tasks : list (DocumentSentence.t * nat)) (fuel : nat) :
  maxConcurrency tp = 0 → tasks ≠ [] →
  correct_batches fuel tp tpl sentences tasks 0 = ([], Stalled).
Proof.
  intros Hzero Hne. induction fuel as [|fuel IH]; simpl;
    destruct tasks as [|t0 ts] eqn:Htasks; try done.
  rewrite Hzero. unfold slice_batch. simpl.
  change (promise_all (correct_task tp tpl sentences <$> []))
    with (Some (@nil CorrectionResult.t)).
  simpl. by rewrite IH.
Qed.

Lemma with_index_nil {A} (l : list A) : with_index l = [] → l = [].
Proof.
  unfold with_index. intros H%(f_equal length). rewrite length_imap in H.
  by destruct l.
Qed.

(** X16. With a concurrency limit of 0 neither loop ever advances:
    however long they run, the segmentation loop gives no result for any
    document and the correction loop yields nothing for a non-empty list
    of sentences and does not end. An empty list of sentences still ends
    at once. *)
Theorem zero_concurrency_never_yields (tp : TextProcessor) (tpl : PromptTemplate) :
  maxConcurrency tp = 0 →
  (∀ text fuel,
     segment_batches fuel tp text (with_index (splitIntoParagraphs text)) 0 [] = None)
  ∧ (∀ sentences fuel, sentences ≠ [] →
       correct_batches fuel tp tpl sentences (with_index sentences) 0 = ([], Stalled))
  ∧ correctTextStream tp tpl [] = ([], Completed).
Proof.
  intros Hzero. split_and!.
  - intros text fuel. apply segment_batches_zero; [done|].
    intros Hnil%with_index_nil. by apply splitIntoParagraphs_nonempty in Hnil.
  - intros sentences fuel Hne. apply correct_batches_zero; [done|].
    by intros Hnil%with_index_nil.
  - done.
Qed.

Lemma zero_concurrency_never_yields_witness :
  maxConcurrency stalled_processor = 0
  ∧ correctTextStream stalled_processor no_template sample_sentences = ([], Stalled)
  ∧ processParagraphs stalled_processor title_document = None.
Proof.
  split; [reflexivity|].
  destruct (zero_concurrency_never_yields stalled_processor no_template eq_refl)
    as (Hseg & Hloop & _).
  split.
  - apply (Hloop sample_sentences). discriminate.
  - unfold processParagraphs. by rewrite Hseg.
Defined.

Lemma no_task_throws_same_client (tp tp' : TextProcessor) (tpl : PromptTemplate)
    (sentences : DocumentSentences) :
  openai tp = openai tp' →
  no_task_throws tp tpl sentences → no_task_throws tp' tpl sentences.
Proof.
  intros Hclient Hall i s Hs.
  rewrite <- (correct_sentence_same_client tp tp') by done. by apply Hall.
Qed.

(** X17. The size of the batches shows only in how many records come
    before a throw: two processors with the same client and positive
    concurrency limits yield the same record at every index at which
    both yield one, and their generators end in the same way; when no
    task throws, the two streams are the same. *)
Theorem correctTextStream_any_limit (tp tp' : TextProcessor) (tpl : PromptTemplate)
    (sentences : DocumentSentences) :
  openai tp = openai tp' → 0 < maxConcurrency tp → 0 < maxConcurrency tp' →
  (∀ i r r', fst (correctTextStream tp tpl sentences) !! i = Some r →
             fst (correctTextStream tp' tpl sentences) !! i = Some r' → r = r')
  ∧ snd (correctTextStream tp tpl sentences) = snd (correctTextStream tp' tpl sentences)
  ∧ (no_task_throws tp tpl sentences →
     correctTextStream tp tpl sentences = correctTextStream tp' tpl sentences).
Proof.
  intros Hclient Hc Hc'.
  assert (no_task_throws tp tpl sentences →
          correctTextStream tp tpl sentences = correctTextStream tp' tpl sentences) as Hsame.
  { intros Hall.
    pose proof (no_task_throws_same_client tp tp' tpl sentences Hclient Hall) as Hall'.
    destruct (correctTextStream_complete tp tpl sentences Hc Hall) as [H1 H2].
    destruct (correctTextStream_complete tp' tpl sentences Hc' Hall') as [H1' H2'].
    destruct (correctTextStream tp tpl sentences) as [records e].
    destruct (correctTextStream tp' tpl sentences) as [records' e'].
    simpl in *. subst e e'. f_equal. apply (inj (fmap Some)).
    rewrite H1, H1'. apply list_fmap_ext. intros ? task _.
    by apply correct_sentence_same_client. }
  split_and!; [| |done].
  - intros i r r' Hr Hr'.
    destruct (correctTextStream_emitted _ _ _ _ _ Hr) as (s & Hs & Hrec).
    destruct (correctTextStream_emitted _ _ _ _ _ Hr') as (s' & Hs' & Hrec').
    rewrite Hs in Hs'. injection Hs' as <-.
    rewrite (correct_sentence_same_client tp tp') in Hrec by done. congruence.
  - destruct (no_task_throws_dec tp tpl sentences) as [Hall|Hnot].
    + by rewrite (Hsame Hall).
    + rewrite (correctTextStream_throws tp tpl sentences Hc Hnot).
      symmetry. apply correctTextStream_throws; [done|].
      intros Hall'. apply Hnot.
      by apply (no_task_throws_same_client tp' tp).
Qed.

Lemma correctTextStream_any_limit_witness :
  correctTextStream (mkTextProcessor second_empty_client 1) no_template sample_sentences
  = ([CorrectionResult.mk (mkRange (mkPosition 1 0) (mkPosition 1 3))
        (VArray [VString (js "typo")]) (js "abc") (VString (js "fixed"))], Thrown)
  ∧ correctTextStream (mkTextProcessor second_empty_client 2) no_template sample_sentences
    = ([], Thrown)
  ∧ snd (correctTextStream (mkTextProcessor second_empty_client 1) no_template
           sample_sentences)
    = snd (correctTextStream (mkTextProcessor second_empty_client 2) no_template
             sample_sentences).
Proof.
  split; [vm_compute; reflexivity|]. split; [vm_compute; reflexivity|].
  apply (correctTextStream_any_limit (mkTextProcessor second_empty_client 1)
           (mkTextProcessor second_empty_client 2) no_template sample_sentences
           eq_refl); simpl; lia.
Defined.

(** ** The context window *)

Lemma take_min_length {A} (l : list A) (n : nat) :
  take (Nat.min n (length l)) l = take n l.
Proof.
  destruct (Nat.min_spec n (length l)) as [[_ ->]|[? ->]]; [done|].
  by rewrite !take_ge by lia.
Qed.

(** X18. The context of the sentence at index [i] is made of at most
    five sentences: the one or two before it, when there are any, the
    sentence itself and the one or two after it, their texts joined by
    newlines. *)
Theorem getContext_window (sentences : DocumentSentences) (i : nat)
    (s : DocumentSentence.t) :
  sentences !! i = Some s →
  getContext sentences i
  = join [newline]
      (DocumentSentence.text <$>
         (drop (i - 2) (take i sentences) ++ s :: take 2 (drop (S i) sentences)))
  ∧ length (drop (i - 2) (take i sentences) ++ s :: take 2 (drop (S i) sentences)) ≤ 5.
Proof.
  intros Hs. pose proof (lookup_lt_Some _ _ _ Hs) as Hi. split.
  - unfold getContext. do 2 f_equal.
    rewrite <- (take_drop_middle sentences i s Hs) at 2.
    rewrite drop_app_le by (rewrite length_take; lia).
    rewrite take_app_ge by (rewrite length_drop, length_take; lia).
    f_equal. rewrite length_drop, length_take.
    replace (Nat.min (length sentences) (i + 3) - (i - 2) - (i `min` length sentences - (i - 2)))
      with (S (Nat.min 2 (length (drop (S i) sentences))))
      by (rewrite length_drop; lia).
    rewrite firstn_cons. f_equal. apply take_min_length.
  - rewrite length_app, length_drop, length_take. simpl. rewrite length_take. lia.
Qed.

Lemma getContext_window_witness :
  sample_sentences !! 1
  = Some (DocumentSentence.mk (mkRange (mkPosition 1 4) (mkPosition 1 7)) (js "def"))
  ∧ getContext sample_sentences 1
    = js "abc" ++ [newline] ++ js "def" ++ [newline] ++ js "ghi".
Proof.
  split; [reflexivity|].
  rewrite (proj1 (getContext_window sample_sentences 1 _ eq_refl)). reflexivity.
Defined.

(** ** The whole pipeline *)

(** The stream never holds more records than there are sentences, and
    holds as many only when no task throws. *)
Lemma correctTextStream_length (tp : TextProcessor) (tpl : PromptTemplate)
    (sentences : DocumentSentences) :
  length (fst (correctTextStream tp tpl sentences)) ≤ length sentences
  ∧ (length (fst (correctTextStream tp tpl sentences)) = length sentences →
     no_task_throws tp tpl sentences).
Proof.
  destruct (correctTextStream_prefix tp tpl sentences) as [n Hn].
  pose proof (f_equal length Hn) as Hlen.
  rewrite length_fmap, length_take, length_fmap, length_with_index in Hlen.
  split; [lia|]. intros Hall.
  apply no_task_throws_outcomes, Forall_is_Some_fmap.
  exists (fst (correctTextStream tp tpl sentences)). rewrite Hn.
  symmetry. apply take_ge. rewrite length_fmap, length_with_index. lia.
Qed.

(** X19. When every segmentation request resolves, [proofread] is the
    correction stream of the sentences [processParagraphs] locates:
    every record it yields has, at its index, the range and the text of
    the located sentence at that index, and a record without errors
    carries the text of the sentence as its correction. When no
    correction task throws there is one record for each located
    sentence and the generator returns; otherwise the generator throws
    with fewer records than sentences. *)
Theorem proofread_resolved (client : OpenAI) (tpl : PromptTemplate) (text : jsstring) :
  (∀ k p, splitIntoParagraphs text !! k = Some p →
          is_Some (splitIntoSentences client k (Paragraph.text p))) →
  ∃ sentences,
    processParagraphs (new_TextProcessor client) text = Some sentences
    ∧ proofread client tpl text = correctTextStream (new_TextProcessor client) tpl sentences
    ∧ (∀ i r, fst (proofread client tpl text) !! i = Some r →
         ∃ s, sentences !! i = Some s
              ∧ CorrectionResult.range r = DocumentSentence.range s
              ∧ CorrectionResult.originalSentence r = DocumentSentence.text s
              ∧ (CorrectionResult.errors r = VArray [] →
                 CorrectionResult.correctedSentence r = VString (DocumentSentence.text s)))
    ∧ (no_task_throws (new_TextProcessor client) tpl sentences →
       snd (proofread client tpl text) = Completed
       ∧ Forall2 (fun s r =>
                    CorrectionResult.range r = DocumentSentence.range s
                    ∧ CorrectionResult.originalSentence r = DocumentSentence.text s
                    ∧ (CorrectionResult.errors r = VArray [] →
                       CorrectionResult.correctedSentence r
                       = VString (DocumentSentence.text s)))
                 sentences (fst (proofread client tpl text)))
    ∧ (¬ no_task_throws (new_TextProcessor client) tpl sentences →
       snd (proofread client tpl text) = Thrown
       ∧ length (fst (proofread client tpl text)) < length sentences).
Proof.
  intros Hall. unfold proofread.
  rewrite (processParagraphs_resolved_eq (new_TextProcessor client) text);
    [|simpl; lia|done].
  eexists. split; [done|]. split; [done|].
  set (sentences := concat _). set (tp := new_TextProcessor client).
  assert (∀ i r, fst (correctTextStream tp tpl sentences) !! i = Some r →
            ∃ s, sentences !! i = Some s
              ∧ CorrectionResult.range r = DocumentSentence.range s
              ∧ CorrectionResult.originalSentence r = DocumentSentence.text s
              ∧ (CorrectionResult.errors r = VArray [] →
                 CorrectionResult.correctedSentence r = VString (DocumentSentence.text s)))
    as Hrecords.
  { intros i r Hr. destruct (correctTextStream_emitted _ _ _ _ _ Hr) as (s & Hs & Hrec).
    exists s. split; [done|].
    destruct (record_of_response_inv _ _ _ _ Hrec) as (Hrange & Horig & Hcases).
    split_and!; [done|done|].
    destruct Hcases as [->|(_ & _ & Hne & _)]; [done|]. by intros ?. }
  split_and!; [done| |].
  - intros Hno. destruct (correctTextStream_complete tp tpl sentences) as [H1 H2];
      [simpl; lia|done|].
    split; [done|]. apply Forall2_same_length_lookup_2.
    + apply (f_equal length) in H1. by rewrite !length_fmap, length_with_index in H1.
    + intros i s r Hs Hr. destruct (Hrecords i r Hr) as (s' & Hs' & H).
      assert (s' = s) as -> by congruence. done.
  - intros Hnot. split; [apply correctTextStream_throws; [simpl; lia|done]|].
    destruct (correctTextStream_length tp tpl sentences) as [Hle Heq].
    destruct (decide (length (fst (correctTextStream tp tpl sentences))
                      = length sentences)) as [Hlen|Hlen]; [|lia].
    by destruct Hnot; apply Heq.
Qed.

Lemma proofread_resolved_witness :
  ∃ sentences,
    processParagraphs (new_TextProcessor two_sentence_client) title_document = Some sentences
    ∧ length sentences = 2
    ∧ snd (proofread two_sentence_client no_template title_document) = Completed
    ∧ length (fst (proofread two_sentence_client no_template title_document))
      = length sentences.
Proof.
  destruct (proofread_resolved two_sentence_client no_template title_document)
    as (sentences & H1 & H2 & H3 & H4 & H5).
  - intros k p _. simpl. by eexists.
  - exists sentences. split; [exact H1|].
    assert (no_task_throws (new_TextProcessor two_sentence_client) no_template sentences)
      as Hno by (intros i s _; eexists; reflexivity).
    destruct (H4 Hno) as [Hend Hall].
    split; [|split; [exact Hend|symmetry; exact (Forall2_length _ _ _ Hall)]].
    assert (processParagraphs (new_TextProcessor two_sentence_client) title_document
            = Some [DocumentSentence.mk (mkRange (mkPosition 1 0) (mkPosition 1 15))
                      (js "This is a test.");
                    DocumentSentence.mk (mkRange (mkPosition 1 17) (mkPosition 1 38))
                      (js "It has two sentences.")]) as Hrun by (vm_compute; reflexivity).
    rewrite Hrun in H1. by injection H1 as <-.
Defined.

(** X20. A segmentation request that rejects ends [proofread] without
    any record: no correction is requested, nothing is yielded and the
    generator throws. *)
Theorem proofread_rejected (client : OpenAI) (tpl : PromptTemplate) (text : jsstring)
    (k : nat) (p : Paragraph.t) :
  splitIntoParagraphs text !! k = Some p →
  splitIntoSentences client k (Paragraph.text p) = None →
  proofread client tpl text = ([], Thrown).
Proof.
  intros Hp Hrej. unfold proofread.
  by rewrite (processParagraphs_rejected_eq (new_TextProcessor client) text k p).
Qed.

Lemma proofread_rejected_witness :
  proofread second_rejects_client no_template two_paragraph_document = ([], Thrown).
Proof.
  apply (proofread_rejected second_rejects_client no_template two_paragraph_document 1
           (Paragraph.mk (js "# Title" ++ [newline] ++ js "body") 1)).
  - vm_compute. reflexivity.
  - reflexivity.
Defined.

(** ** Diagnostic ranges *)

(** X21. Moving positions of the proofread text to the document keeps
    their order, so ranges that follow each other without overlap still
    do; and for a text that starts at line 0, character 0 nothing
    moves. *)
Theorem shift_position_order (offset : vscode.Position) (p q : Position) :
  (pos_lt p q → vs_lt (shift_position offset p) (shift_position offset q))
  ∧ shift_position (vscode.mk 0 0) p = vscode.mk (lineIndex p) (columnIndex p).
Proof.
  split.
  - unfold pos_lt, vs_lt, shift_position. simpl. intros [Hlt|[Heq Hlt]]; [lia|].
    right. rewrite Heq. split; [done|]. destruct (lineIndex q =? 0); lia.
  - unfold shift_position. simpl. f_equal; [lia|]. destruct (lineIndex p =? 0); lia.
Qed.

(** X22. The character of the offset never reaches the start of a
    diagnostic: the sentences [processParagraphs] returns start after
    line 0, so only the line of the offset is added to their start. *)
Theorem shift_position_located (tp : TextProcessor) (text : jsstring)
    (out : DocumentSentences) (offset : vscode.Position) (d : DocumentSentence.t) :
  processParagraphs tp text = Some out → d ∈ out →
  shift_position offset (startsAt (DocumentSentence.range d))
  = vscode.mk (lineIndex (startsAt (DocumentSentence.range d)) + vscode.line offset)
              (columnIndex (startsAt (DocumentSentence.range d))).
Proof.
  intros Hall%processParagraphs_located_all Hd.
  pose proof (located_after_first_line text d
                (proj1 (Forall_forall _ _) Hall d Hd)) as Hline.
  unfold shift_position. f_equal.
  destruct (Nat.eqb_spec (lineIndex (startsAt (DocumentSentence.range d))) 0); lia.
Qed.

Lemma shift_position_located_witness :
  shift_position (vscode.mk 4 7) (mkPosition 1 17) = vscode.mk 5 17.
Proof.
  apply (shift_position_located (new_TextProcessor two_sentence_client) title_document
           [DocumentSentence.mk (mkRange (mkPosition 1 0) (mkPosition 1 15))
              (js "This is a test.");
            DocumentSentence.mk (mkRange (mkPosition 1 17) (mkPosition 1 38))
              (js "It has two sentences.")]
           (vscode.mk 4 7)
           (DocumentSentence.mk (mkRange (mkPosition 1 17) (mkPosition 1 38))
              (js "It has two sentences."))).
  - vm_compute. reflexivity.
  - apply list_elem_of_lookup. by exists 1.
Defined.

(** ** Start positions at the edges *)

(** X23. A start position at or past the end of its line continues the
    search at the beginning of the next line, and a start position below
    the last line finds nothing. *)
Theorem findEndPosition_edges (sentence originalText : jsstring) (L col : nat) :
  (∀ line : jsstring, split_lines originalText !! L = Some line → length line ≤ col →
     findEndPosition sentence originalText (mkPosition L col)
     = findEndPosition sentence originalText (mkPosition (S L) 0))
  ∧ (length (split_lines originalText) ≤ L →
     findEndPosition sentence originalText (mkPosition L col) = Failure).
Proof.
  unfold findEndPosition. cbv zeta. cbn [lineIndex columnIndex]. split.
  - intros line Hline Hcol.
    rewrite (drop_S _ _ _ Hline), scan_lines_cons, (drop_ge line) by done.
    reflexivity.
  - intros HL. by rewrite drop_ge.
Qed.

(** ** Sentences that follow each other *)

Section Exact.
Variables (lines : list jsstring) (cleanSentence more_text : jsstring).

Local Abbreviation rest_ahead := (rest_ahead lines cleanSentence more_text).

Lemma scan_line_exact (L : nat) (line : jsstring) :
  lines !! L = Some line →
  ∀ rest col mc ms, drop col line = rest → col ≤ length line →
  rest_ahead (offset_of lines (mkPosition L col)) mc →
  match scan_line cleanSentence L rest col mc ms with
  | inl (Success a b) =>
      on_line lines b ∧ remove_ws (drop (offset_of lines b) (buffer_of lines)) = more_text
  | inl Failure => False
  | inr (mc', ms') => rest_ahead (offset_of lines (mkPosition L (length line))) mc'
  end.
Proof.
  intros Hline. induction rest as [|c rest IH]; intros col mc ms Hrest Hcol Hahead.
  - simpl. assert (length line ≤ col) as Hge.
    { apply (f_equal length) in Hrest. rewrite length_drop in Hrest. simpl in Hrest. lia. }
    by replace (length line) with col by lia.
  - rewrite scan_line_cons.
    pose proof (drop_offset _ _ _ _ Hline Hcol) as Hstream. rewrite Hrest in Hstream.
    apply lookup_of_drop in Hstream as [Hc Hstream].
    apply lookup_of_drop in Hrest as [Hlc Hrest].
    pose proof (lookup_lt_Some _ _ _ Hlc) as Hlt.
    assert (offset_of lines (mkPosition L (S col)) = S (offset_of lines (mkPosition L col)))
      as Hnext by (unfold offset_of; simpl; lia).
    destruct Hahead as [Hmc Hahead].
    rewrite (drop_S _ _ _ Hc) in Hahead. simpl in Hahead.
    destruct (is_space c) eqn:Hsp; simpl in Hahead.
    { apply IH; [done|lia|]. rewrite Hnext. by split. }
    destruct (cleanSentence !! mc) as [x|] eqn:Hx; [|apply lookup_ge_None in Hx; lia].
    rewrite (drop_S _ _ _ Hx) in Hahead. injection Hahead as -> Hahead.
    rewrite bool_decide_eq_true_2 by done.
    destruct (Nat.eqb_spec (S mc) (length cleanSentence)) as [Hlen|Hne].
    + split.
      * exists line. simpl. split; [done|lia].
      * replace (offset_of lines (mkPosition L (col + 1)))
          with (S (offset_of lines (mkPosition L col))) by (unfold offset_of; simpl; lia).
        by rewrite Hahead, Hlen, drop_all.
    + apply IH; [done|lia|]. rewrite Hnext. split; [lia|done].
Qed.

Lemma scan_lines_exact (remaining : list jsstring) :
  ∀ L col mc ms, remaining = drop L lines →
  on_line lines (mkPosition L col) →
  rest_ahead (offset_of lines (mkPosition L col)) mc →
  ∃ a b, scan_lines cleanSentence remaining L col mc ms = Success a b
         ∧ on_line lines b
         ∧ remove_ws (drop (offset_of lines b) (buffer_of lines)) = more_text.
Proof.
  induction remaining as [|line more IH]; intros L col mc ms Hrem Hon Hahead.
  - destruct Hon as (line & Hline & _). simpl in Hline.
    apply lookup_lt_Some in Hline. symmetry in Hrem.
    apply (f_equal length) in Hrem. rewrite length_drop in Hrem. simpl in Hrem. lia.
  - assert (lines !! L = Some line) as Hline.
    { rewrite <- (Nat.add_0_r L), <- lookup_drop, <- Hrem. done. }
    assert (more = drop (S L) lines) as Hmore.
    { rewrite (drop_S _ _ _ Hline) in Hrem. by injection Hrem. }
    assert (col ≤ length line) as Hcol.
    { destruct Hon as (line' & Hline' & Hcol). simpl in *. by simplify_eq. }
    rewrite scan_lines_cons.
    pose proof (scan_line_exact L line Hline (drop col line) col mc ms eq_refl Hcol Hahead)
      as Hscan.
    destruct (scan_line _ _ _ _ _ _) as [[a b|]|[mc' ms']]; [by eauto|done|].
    destruct Hscan as [Hmc' Hrest].
    pose proof (drop_offset _ _ _ _ Hline (Nat.le_refl _)) as Hstream.
    rewrite drop_all in Hstream. apply lookup_of_drop in Hstream as [Hnl Hstream].
    rewrite (drop_S _ _ _ Hnl) in Hrest. simpl in Hrest.
    destruct more as [|line' more'].
    + exfalso. rewrite <- Hmore in Hstream. simpl in Hstream. rewrite Hstream in Hrest.
      simpl in Hrest. symmetry in Hrest. apply app_eq_nil in Hrest as [Hd _].
      apply (f_equal length) in Hd. rewrite length_drop in Hd. simpl in Hd. lia.
    + apply IH; [done| |].
      * exists line'. simpl. split; [|lia].
        rewrite <- (Nat.add_0_r (S L)), <- lookup_drop, <- Hmore. done.
      * rewrite (offset_next_line _ _ _ Hline). by split.
Qed.

End Exact.

Lemma remove_ws_drop_newline (s : jsstring) (o : nat) :
  remove_ws (drop o (s ++ [newline])) = remove_ws (drop o s).
Proof.
  rewrite drop_app, remove_ws_app.
  assert (remove_ws (drop (o - length s) [newline]) = []) as ->; [|by rewrite app_nil_r].
  destruct (o - length s) as [|k]; [done|]. simpl. by rewrite drop_nil.
Qed.

(** A sentence that stands right at the start position is located, and
    the range ends where the text after it begins. *)
Lemma findEndPosition_exact (sentence originalText : jsstring)
    (startPosition : Position) (more_text : jsstring) :
  on_line (split_lines originalText) startPosition →
  remove_ws sentence ≠ [] →
  remove_ws (drop (offset_of (split_lines originalText) startPosition) originalText)
  = remove_ws sentence ++ more_text →
  ∃ a b, findEndPosition sentence originalText startPosition = Success a b
         ∧ on_line (split_lines originalText) b
         ∧ remove_ws (drop (offset_of (split_lines originalText) b) originalText)
           = more_text.
Proof.
  intros Hon Hne Hahead. unfold findEndPosition.
  destruct startPosition as [L col]. simpl.
  rewrite <- remove_ws_drop_newline, <- buffer_of_split_lines in Hahead.
  destruct (scan_lines_exact (split_lines originalText) (remove_ws sentence) more_text
              (drop L (split_lines originalText)) L col 0 None eq_refl Hon)
    as (a & b & Hfind & Hb & Hrest).
  { split; [|done]. destruct (remove_ws sentence); [done|simpl; lia]. }
  exists a, b. split; [done|]. split; [done|].
  by rewrite <- remove_ws_drop_newline, <- buffer_of_split_lines.
Qed.

Lemma calc_fold_exact (originalText : jsstring) (sentences : list jsstring) :
  ∀ st more_text,
  on_line (split_lines originalText) (snd st) →
  Forall (fun s => remove_ws s ≠ []) sentences →
  remove_ws (drop (offset_of (split_lines originalText) (snd st)) originalText)
  = concat (remove_ws <$> sentences) ++ more_text →
  DocumentSentence.text <$> fst (foldl (calc_step originalText) st sentences)
  = (DocumentSentence.text <$> fst st) ++ sentences.
Proof.
  induction sentences as [|s sentences IH]; intros st more_text Hon Hne Hdoc.
  - simpl. by rewrite app_nil_r.
  - change (foldl (calc_step originalText) st (s :: sentences))
      with (foldl (calc_step originalText) (calc_step originalText st s) sentences).
    apply Forall_cons in Hne as [Hs Hne]. simpl in Hdoc. rewrite <- app_assoc in Hdoc.
    destruct (findEndPosition_exact s originalText (snd st) _ Hon Hs Hdoc)
      as (a & b & Hfind & Hb & Hrest).
    rewrite (calc_step_found _ _ _ _ _ Hfind).
    etrans; [apply (IH _ more_text); simpl; [by destruct b|done|by destruct b]|].
    simpl. by rewrite fmap_app, <- app_assoc.
Qed.

(** X24. When the document, from column 0 of [startLine] on, is made,
    whitespace aside, of the given sentences one after the other, none
    of them blank, and then of anything else, [calculateRanges] locates
    every one of them: it returns as many positioned sentences as it was
    given, with their texts in order. *)
Theorem calculateRanges_complete (sentences : list jsstring) (originalText : jsstring)
    (startLine : nat) (more_text : jsstring) :
  startLine < length (split_lines originalText) →
  Forall (fun s => remove_ws s ≠ []) sentences →
  remove_ws (drop (offset_of (split_lines originalText) (mkPosition startLine 0))
                  originalText)
  = concat (remove_ws <$> sentences) ++ more_text →
  DocumentSentence.text <$> calculateRanges sentences originalText startLine = sentences.
Proof.
  intros Hline Hne Hdoc. unfold calculateRanges.
  rewrite (calc_fold_exact originalText sentences ([], mkPosition startLine 0) more_text);
    [done| |done..].
  destruct (lookup_lt_is_Some_2 _ _ Hline) as [line Hl].
  exists line. simpl. split; [done|lia].
Qed.

Lemma calculateRanges_complete_witness :
  DocumentSentence.text <$> calculateRanges two_sentences title_document 1 = two_sentences.
Proof.
  apply (calculateRanges_complete two_sentences title_document 1 []).
  - vm_compute. lia.
  - repeat constructor; discriminate.
  - reflexivity.
Defined.
